(** * JPFinder: search, highlight, ingest and snippet cache

    A shallow embedding of the algorithmic core of the JPFinder sources
    ([app_ui.py], [search.py], [build_index.py], [indexer_gui.py],
    [parse_media.py]) together with the properties established about it.

    Conventions.
    - A Python [str] is a sequence of Unicode code points: [str := list N].
    - The morphological analyzer (SudachiPy), Unicode normalization
      ([unicodedata.normalize]), MD5 ([hashlib]), the SQLite engine and the
      ffmpeg process are collaborators of the program; they enter the
      development as section variables or as fields of an environment
      record, and every assumption made about them is a stated hypothesis.
    - A function that may raise returns an [Outcome]. *)

From Stdlib Require Import ZArith NArith List Bool String Ascii Lia.
From Stdlib Require Import DecimalString.
From Stdlib Require Import Sorting.Sorted.
From stdpp Require Import gmap list.
Import ListNotations.

(* ===================================================================== *)
(** ** Python strings *)
(* ===================================================================== *)

Module PyStr.

Definition char := N.
Definition str := list N.

(** An ASCII literal of the source, as a sequence of code points. *)
Definition lit (s : string) : str :=
  map N_of_ascii (list_ascii_of_string s).

(** [c.isspace()] for one code point (CPython's [_PyUnicode_IsWhitespace]). *)
Definition is_space (c : N) : bool :=
  ((0x09 <=? c) && (c <=? 0x0D) || (0x1C <=? c) && (c <=? 0x20)
   || (c =? 0x85) || (c =? 0xA0) || (c =? 0x1680)
   || (0x2000 <=? c) && (c <=? 0x200A)
   || (c =? 0x2028) || (c =? 0x2029) || (c =? 0x202F) || (c =? 0x205F)
   || (c =? 0x3000))%N.

Fixpoint lstrip (s : str) : str :=
  match s with
  | c :: s' => if is_space c then lstrip s' else s
  | [] => []
  end.

Definition rstrip (s : str) : str := rev (lstrip (rev s)).

(** [s.strip()] *)
Definition strip (s : str) : str := rstrip (lstrip s).

(** [s.replace(c, empty)] for a one-character [c]. *)
Definition remove_char (c : N) (s : str) : str :=
  List.filter (fun x => negb (x =? c)%N) s.

(** [sep.join(l)] *)
Fixpoint join (sep : str) (l : list str) : str :=
  match l with
  | [] => []
  | [x] => x
  | x :: rest => x ++ sep ++ join sep rest
  end.

Definition str_eqb (a b : str) : bool := bool_decide (a = b).

(** [t.startswith(p)] *)
Fixpoint startswith (p t : str) : bool :=
  match p, t with
  | [], _ => true
  | _ :: _, [] => false
  | a :: p', b :: t' => (a =? b)%N && startswith p' t'
  end.

(** [p in t] *)
Fixpoint contains (p t : str) : bool :=
  startswith p t ||
  match t with
  | [] => false
  | _ :: t' => contains p t'
  end.

(** The lowest index [i >= off] at which [p] occurs, [t] being the suffix
    of the text from offset [off] on. *)
Fixpoint find_from (p t : str) (off : nat) : option nat :=
  if startswith p t then Some off
  else match t with
       | [] => None
       | _ :: t' => find_from p t' (S off)
       end.

(** [text.find(p, start)] for [start >= 0]; [None] is Python's [-1]. *)
Definition find (text p : str) (start : nat) : option nat :=
  if (length text <? start)%nat then None
  else find_from p (drop start text) start.

(** [text[a:b]] for [0 <= a], [0 <= b]. *)
Definition slice (text : str) (a b : nat) : str :=
  take (b - a) (drop a text).

(** [s.lower()] on the ASCII letters; the messages it is applied to here are
    the SQLite engine's, which are ASCII. Other code points are kept. *)
Definition lower (s : str) : str :=
  map (fun c => if (0x41 <=? c) && (c <=? 0x5A) then c + 32 else c)%N s.

(** [str(n)] for an integer [n]: its decimal digits, with a minus sign
    when negative. *)
Definition str_of_Z (n : Z) : str :=
  lit (NilZero.string_of_int (Z.to_int n)).

(** A stable sort, as [list.sort] is: an element is placed before the first
    later element it is not greater than, so equal keys keep their order. *)
Section Sort.
Context {A : Type} (leb : A -> A -> bool).

Fixpoint insert_sorted (x : A) (l : list A) : list A :=
  match l with
  | [] => [x]
  | y :: l' => if leb x y then x :: l else y :: insert_sorted x l'
  end.

Definition sort (l : list A) : list A := fold_right insert_sorted [] l.
End Sort.

(** [l[:n]] for any integer [n]: a negative [n] counts from the end. *)
Definition slice_to {A} (l : list A) (n : Z) : list A :=
  if (0 <=? n)%Z then take (Z.to_nat n) l
  else take (length l - Z.to_nat (- n)) l.

End PyStr.
Import PyStr.

(** Outcome of a call that may raise: the returned value, or the message of
    the exception that escapes. *)
Inductive Outcome (A : Type) :=
| Return (a : A)
| Raise (msg : str).
Arguments Return {A} a.
Arguments Raise {A} msg.

(** One morpheme of the analyzer: [m.surface()], [m.reading_form()],
    [m.begin()], [m.end()]. An absent reading is the empty string. *)
Record Morpheme := {
  surface : str;
  reading_form : str;
  m_begin : nat;
  m_end : nat
}.

(** [a or b] on strings. *)
Definition or_str (a b : str) : str :=
  match a with [] => b | _ => a end.

(* ===================================================================== *)
(** ** Query compiler and retriever ([search.py], [app_ui.py]) *)
(* ===================================================================== *)

Module Search.

(** A result row of the SELECT:
    [title, media_type, start_ms, end_ms, text, source_path];
    [None] in [row_text] is SQL NULL. *)
Record Row := {
  row_title : str;
  row_media_type : str;
  row_start_ms : Z;
  row_end_ms : Z;
  row_text : option str;
  row_source_path : str
}.

(** What [cur.execute(sql, params).fetchall()] gives: the rows, or an
    [sqlite3.OperationalError] with its message. *)
Inductive ExecResult :=
| Rows (rows : list Row)
| OperationalError (msg : str).

(** The connection, seen through the two statements the program issues:
    the MATCH query ordered by [bm25(fts)] and the same query without
    ORDER BY; both take the MATCH expression and the LIMIT. *)
Record Conn := {
  execute_ranked : str -> Z -> ExecResult;
  execute_unranked : str -> Z -> ExecResult
}.

(** What [search.py] prints. *)
Inductive Printed :=
| EmptyQueryNote
| DebugMatch (expr : str)
| HitLine (i : nat) (r : Row).

Section WithTokenizer.
(** [_sudachi.tokenize(q, _mode)] *)
Variable tokenize : str -> list Morpheme.

(** [tokenize_surface]: the stripped surfaces that are not blank. *)
Definition tokenize_surface (q : str) : list str :=
  List.filter (fun w => negb (str_eqb w []))
         (map (fun m => strip (surface m)) (tokenize q)).

(** [tokenize_reading] of [search.py] and [app_ui.py]:
    [(m.reading_form() or m.surface()).strip()], kept when not blank. *)
Definition tokenize_reading (q : str) : list str :=
  List.filter (fun r => negb (str_eqb r []))
         (map (fun m => strip (or_str (reading_form m) (surface m)))
              (tokenize q)).

(** The two [replace] calls of [build_match_query]: the double quote
    (0x22) and the single quote (0x27) are removed from a token. *)
Definition strip_quotes (t : str) : str :=
  remove_char 0x27 (remove_char 0x22 t).

Definition build_match_query (query : str) : option str :=
  let s_tokens := map strip_quotes (tokenize_surface query) in
  let r_tokens := map strip_quotes (tokenize_reading query) in
  let parts := [] in
  let parts :=
    match s_tokens with
    | [] => parts
    | _ => parts ++ [join (lit " AND ")
                       (map (fun t => lit "text_tok:" ++ t) s_tokens)]
    end in
  let parts :=
    match r_tokens with
    | [] => parts
    | _ => parts ++ [join (lit " AND ")
                       (map (fun t => lit "reading_tok:" ++ t) r_tokens)]
    end in
  match parts with
  | [] => None
  | _ =>
      Some (join (lit " OR ")
              (map (fun p => lit "(" ++ p ++ lit ")")
                   (List.filter (fun p => negb (str_eqb p [])) parts)))
  end.

(** [has_all] of [query_hits]: every phrase occurs in the text, a NULL
    text counting as the empty string. *)
Definition has_all (phrases : list str) (txt : option str) : bool :=
  let t := default [] txt in
  forallb (fun p => contains p t) phrases.

(** [query_hits] of [app_ui.py]. *)
Definition query_hits (conn : Conn) (query : str) (phrases : list str)
    (topn : Z) : Outcome (list Row) :=
  match build_match_query query with
  | None | Some [] => Return []
  | Some match_expr =>
      let post rows :=
        match phrases with
        | _ :: _ =>
            let rows := List.filter (fun r => has_all phrases (row_text r)) rows in
            slice_to rows topn
        | [] => slice_to rows topn
        end in
      match execute_ranked conn match_expr (topn * 5) with
      | Rows rows => Return (post rows)
      | OperationalError e =>
          let msg := lower e in
          if contains (lit "no such table: fts") msg then Return []
          else if contains (lit "no such function: bm25") msg then
            match execute_unranked conn match_expr (topn * 5) with
            | Rows rows => Return (post rows)
            | OperationalError e' => Raise e'
            end
          else Raise e
      end
  end.

(** [search] of [search.py]: what it has printed when it returns, or the
    exception it lets escape. *)
Definition search (conn : Conn) (query : str) (topn : Z) (debug : bool)
    : Outcome (list Printed) :=
  match build_match_query query with
  | None | Some [] => Return [EmptyQueryNote]
  | Some match_expr =>
      let dbg := if debug then [DebugMatch match_expr] else [] in
      let show rows := dbg ++ imap (fun i r => HitLine (S i) r) rows in
      match execute_ranked conn match_expr topn with
      | Rows rows => Return (show rows)
      | OperationalError e =>
          if contains (lit "no such function: bm25") (lower e) then
            match execute_unranked conn match_expr topn with
            | Rows rows => Return (show rows)
            | OperationalError e' => Raise e'
            end
          else Raise e
      end
  end.
End WithTokenizer.

End Search.

(* ===================================================================== *)
(** ** Highlighter ([app_ui.py]) *)
(* ===================================================================== *)

Module Highlight.

(** The two labels of a highlighted range. *)
Inductive Label := phrase | token.

Definition label_eqb (a b : Label) : bool :=
  match a, b with
  | phrase, phrase | token, token => true
  | _, _ => false
  end.

Definition is_token (t : Label) : bool := label_eqb t token.

(** A range [(start, end)] of code point offsets, end excluded. *)
Definition Range := (nat * nat)%type.
(** A labeled range [(start, end, label)]. *)
Definition Labeled := (nat * nat * Label)%type.

(** The inner loop of [subtract_intervals]: what is left of one segment
    when the range [b] is taken away. *)
Definition cut_segment (b : Range) (seg : Range) : list Range :=
  let '(bs_s, bs_e) := b in
  let '(x, y) := seg in
  if (bs_e <=? x) || (y <=? bs_s) then [(x, y)]
  else (if x <? bs_s then [(x, bs_s)] else [])
       ++ (if bs_e <? y then [(bs_e, y)] else []).

(** The outer loop of [subtract_intervals], left as soon as no segment
    remains. *)
Fixpoint subtract_loop (segments : list Range) (bs : list Range) : list Range :=
  match bs with
  | [] => segments
  | b :: bs' =>
      match flat_map (cut_segment b) segments with
      | [] => []
      | new_segments => subtract_loop new_segments bs'
      end
  end.

Definition subtract_intervals (a : Range) (bs : list Range) : list Range :=
  List.filter (fun '(x, y) => x <? y) (subtract_loop [a] bs).

(** The [while] loop of [find_phrase_ranges] for one phrase: the
    occurrences of [p] found from [start] on, each search resuming after
    the previous match. [fuel] bounds the number of iterations. *)
Fixpoint occurrences (fuel : nat) (text p : str) (start : nat) : list Range :=
  match fuel with
  | 0 => []
  | S fuel' =>
      match find text p start with
      | None => []
      | Some i => (i, i + length p) :: occurrences fuel' text p (i + length p)
      end
  end.

(** Tuples are compared lexicographically by [list.sort]. *)
Definition range_leb (a b : Range) : bool :=
  (fst a <? fst b) || ((fst a =? fst b) && (snd a <=? snd b)).

(** The merge loop of [find_phrase_ranges]. *)
Definition merge_step (merged : list Range) (r : Range) : list Range :=
  let '(s, e) := r in
  match last merged with
  | None => merged ++ [(s, e)]
  | Some (ls, le) =>
      if le <? s then merged ++ [(s, e)]
      else removelast merged ++ [(ls, Nat.max le e)]
  end.

Definition find_phrase_ranges (text : str) (phrases : list str) : list Range :=
  let ranges :=
    flat_map (fun p => match p with
                       | [] => []
                       | _ => occurrences (S (length text)) text p 0
                       end) phrases in
  fold_left merge_step (sort range_leb ranges) [].

(** The sort key of a labeled range: its start, then whether it is not a
    phrase ([False] sorts before [True]). *)
Definition labeled_leb (a b : Labeled) : bool :=
  let '(s1, _, t1) := a in
  let '(s2, _, t2) := b in
  (s1 <? s2) || ((s1 =? s2) && implb (is_token t1) (is_token t2)).

(** One step of the loop that builds [out]. *)
Definition emit (out : list Labeled) (x : Labeled) : list Labeled :=
  let '(s, e, t) := x in
  if is_token t
     && existsb (fun '(ps, pe, pt) =>
                   label_eqb pt phrase && negb ((e <=? ps) || (pe <=? s)))
                out
  then out
  else
    match last out with
    | Some (ls, le, lt) =>
        if label_eqb lt t && (s <=? le)
        then removelast out ++ [(ls, Nat.max le e, t)]
        else out ++ [x]
    | None => out ++ [x]
    end.

(** [html.escape] *)
Definition html_escape (s : str) : str :=
  flat_map (fun c =>
              if (c =? 0x26)%N then lit "&amp;"
              else if (c =? 0x3C)%N then lit "&lt;"
              else if (c =? 0x3E)%N then lit "&gt;"
              else if (c =? 0x22)%N then lit "&quot;"
              else if (c =? 0x27)%N then lit "&#x27;"
              else [c]) s.

Definition HIGHLIGHT_TOKEN_STYLE : str :=
  lit "background-color:#FFE69A; color:#202020; border-radius:4px; padding:0 3px;".
Definition HIGHLIGHT_PHRASE_STYLE : str :=
  lit "background-color:#BAF7C7; color:#103E1E; border-radius:4px; padding:0 3px;".

(** The rendering loop: the pieces of markup and the position reached. *)
Definition render_step (text : str) (st : list str * nat) (x : Labeled)
    : list str * nat :=
  let '(parts, cur) := st in
  let '(s, e, t) := x in
  let parts :=
    if cur <? s then parts ++ [html_escape (slice text cur s)] else parts in
  let seg := html_escape (slice text s e) in
  let style :=
    match t with
    | phrase => HIGHLIGHT_PHRASE_STYLE
    | token => HIGHLIGHT_TOKEN_STYLE
    end in
  (parts ++ [lit "<span style=" ++ [0x22%N] ++ style ++ [0x22%N] ++ lit ">"
             ++ seg ++ lit "</span>"], e).

Definition render (text : str) (out : list Labeled) : str :=
  let '(parts, cur) := fold_left (render_step text) out ([], 0) in
  let parts :=
    if cur <? length text
    then parts ++ [html_escape (slice text cur (length text))] else parts in
  concat parts.

Section WithTokenizer.
(** [_sudachi.tokenize(text, _mode)] *)
Variable tokenize : str -> list Morpheme.

(** Whether a morpheme of the text is one of the query's tokens. *)
Definition is_query_token (surf_qset read_qset : gset str) (m : Morpheme)
    : bool :=
  let surf := surface m in
  let read := or_str (reading_form m) surf in
  bool_decide (surf ∈ surf_qset) || bool_decide (read ∈ read_qset).

Definition token_ranges (text : str) (phrase_ranges : list Range)
    (surf_qset read_qset : gset str) : list Range :=
  flat_map (fun m =>
              if is_query_token surf_qset read_qset m
              then subtract_intervals (m_begin m, m_end m) phrase_ranges
              else [])
           (tokenize text).

(** The list [out] of [build_highlight_html]: the labeled ranges it
    emits, in order. An empty text emits nothing. *)
Definition highlight_spans (text : str) (phrases : list str)
    (surf_qset read_qset : gset str) : list Labeled :=
  match text with
  | [] => []
  | _ =>
      let phrase_ranges := find_phrase_ranges text phrases in
      let token_ranges := token_ranges text phrase_ranges surf_qset read_qset in
      let labeled :=
        map (fun '(s, e) => (s, e, phrase)) phrase_ranges
        ++ map (fun '(s, e) => (s, e, token)) token_ranges in
      fold_left emit (sort labeled_leb labeled) []
  end.

Definition build_highlight_html (text : str) (phrases : list str)
    (surf_qset read_qset : gset str) : str :=
  match text with
  | [] => []
  | _ => render text (highlight_spans text phrases surf_qset read_qset)
  end.
End WithTokenizer.

End Highlight.

(* ===================================================================== *)
(** ** Text normalizer and index builder ([build_index.py], [indexer_gui.py]) *)
(* ===================================================================== *)

Module BuildIndex.

(** An entry as it is handed to the index builder and stored in the
    [entries] table. *)
Record Entry := {
  id : str;
  media_type : str;
  title : str;
  episode_or_track : str;
  media_path : str;
  source_path : str;
  start_ms : Z;
  end_ms : Z;
  text : str;
  context_prev : str;
  context_next : str
}.

(** One INSERT into the [fts] table: the rowid it was given and the two
    token fields. The table is an FTS5 external-content table
    ([content='entries']); it holds no uniqueness constraint on the rowid,
    so every INSERT adds the row's tokens to the index. *)
Record FtsRow := {
  fts_rowid : Z;
  text_tok : str;
  reading_tok : str
}.

(** The database: the [entries] table with its rowids, in insertion order,
    and the rows inserted into [fts]. *)
Record Store := {
  entries : list (Z * Entry);
  fts : list FtsRow
}.

Definition empty_store : Store := {| entries := []; fts := [] |}.

(** [BIDI_CTRL_RE]: U+200E, U+200F, U+202A..U+202E, U+2066..U+2069. *)
Definition is_bidi_ctrl (c : N) : bool :=
  ((c =? 0x200e) || (c =? 0x200f)
   || (0x202a <=? c) && (c <=? 0x202e)
   || (0x2066 <=? c) && (c <=? 0x2069))%N.

(** [clean_controls]: every match of [BIDI_CTRL_RE] is removed. *)
Definition clean_controls (text : str) : str :=
  List.filter (fun c => negb (is_bidi_ctrl c)) text.

(** SELECT rowid FROM entries WHERE id = ? *)
Definition select_rowid (st : Store) (i : str) : option Z :=
  fst <$> List.find (fun re => str_eqb (id (snd re)) i) (entries st).

(** The rowid SQLite gives a new row: one more than the largest in use. *)
Definition next_rowid (st : Store) : Z :=
  (fold_right Z.max 0 (map fst (entries st)) + 1)%Z.

(** INSERT OR IGNORE INTO entries: [id] is UNIQUE, a row whose id is
    already stored is ignored. *)
Definition insert_or_ignore (st : Store) (row : Entry) : Store :=
  match select_rowid st (id row) with
  | Some _ => st
  | None => {| entries := entries st ++ [(next_rowid st, row)];
               fts := fts st |}
  end.

(** INSERT INTO fts(rowid, text_tok, reading_tok) VALUES (?,?,?) *)
Definition insert_fts (st : Store) (r : FtsRow) : Store :=
  {| entries := entries st; fts := fts st ++ [r] |}.

Section WithCollaborators.
(** [unicodedata.normalize] with the form NFKC *)
Variable normalize_nfkc : str -> str.
(** [_sudachi.tokenize(text, _mode)] *)
Variable tokenize : str -> list Morpheme.

(** [nfkc]: NFKC normalization, then [strip]. *)
Definition nfkc (text : str) : str := strip (normalize_nfkc text).

(** [jp_clean]: [clean_controls(nfkc(text))]. *)
Definition jp_clean (text : str) : str := clean_controls (nfkc text).

Definition tokenize_surface (text : str) : list str :=
  List.filter (fun s => negb (str_eqb s []))
    (map (fun m => strip (surface m)) (tokenize text)).

(** [tokenize_reading_kana] of [build_index.py]: an empty reading or the
    reading [*] is replaced by the surface. *)
Definition tokenize_reading_kana (text : str) : list str :=
  List.filter (fun r => negb (str_eqb r []))
    (map (fun m =>
            let r := reading_form m in
            let r := if str_eqb r [] || str_eqb r (lit "*")
                     then surface m else r in
            strip r)
         (tokenize text)).

(** [tokenize_reading_kana] of [indexer_gui.py]:
    [(m.reading_form() or m.surface()).strip()]. *)
Definition tokenize_reading_kana_gui (text : str) : list str :=
  List.filter (fun r => negb (str_eqb r []))
    (map (fun m => strip (or_str (reading_form m) (surface m)))
         (tokenize text)).

(** [insert_entry] of [build_index.py]. [fetchone()[0]] raises a TypeError
    when no row is found. *)
Definition insert_entry (st : Store) (row : Entry) : Outcome Store :=
  let st := insert_or_ignore st row in
  match select_rowid st (id row) with
  | None => Raise (lit "TypeError")
  | Some rid =>
      let text := jp_clean (text row) in
      let text_tok := join (lit " ") (tokenize_surface text) in
      let reading_tok := join (lit " ") (tokenize_reading_kana text) in
      Return (insert_fts st {| fts_rowid := rid; text_tok := text_tok;
                               reading_tok := reading_tok |})
  end.

(** [insert_batch] of [indexer_gui.py]: the [executemany] over the batch,
    then one [fts] row for every element of the batch whose id is found. *)
Definition insert_batch (st : Store) (batch : list Entry) : Store :=
  let st := fold_left insert_or_ignore batch st in
  fold_left
    (fun st e =>
       match select_rowid st (id e) with
       | None => st
       | Some rid =>
           let text := jp_clean (text e) in
           let text_tok := join (lit " ") (tokenize_surface text) in
           let reading_tok := join (lit " ") (tokenize_reading_kana_gui text) in
           insert_fts st {| fts_rowid := rid; text_tok := text_tok;
                            reading_tok := reading_tok |}
       end)
    batch st.
End WithCollaborators.

End BuildIndex.

(* ===================================================================== *)
(** ** Snippet cache ([make_snippet] of [app_ui.py]) *)
(* ===================================================================== *)

Module Snippet.

(** The arguments that vary in the ffmpeg command line: the executable,
    the seek offset and the duration (both in milliseconds; the command
    line prints them in seconds with three decimals), the input and the
    output path. Codec, bitrate and sample rate are constants. *)
Record FfmpegArgs := {
  arg_exe : str;
  arg_ss_ms : Z;
  arg_input : str;
  arg_dur_ms : Z;
  arg_output : str
}.

(** The world [make_snippet] acts on: the files that exist, with their
    sizes in bytes, and the transcoder runs made so far. *)
Record World := {
  files : gmap str Z;
  transcoder_runs : list FfmpegArgs
}.

Section WithCollaborators.
(** [hashlib.md5(key.encode(...)).hexdigest()] *)
Variable md5_hexdigest : str -> str.
(** [CACHE_DIR], as a string ending with the path separator *)
Variable cache_dir : str.
(** One run of the transcoder: whether the process exits with status 0,
    and the files that exist afterwards. *)
Variable ffmpeg : FfmpegArgs -> gmap str Z -> bool * gmap str Z.

(** The cache key and the file name derived from it. *)
Definition cache_key (media : str) (start_ms end_ms pad_ms : Z) : str :=
  media ++ lit "|" ++ str_of_Z start_ms ++ lit "|" ++ str_of_Z end_ms
  ++ lit "|" ++ str_of_Z pad_ms.

Definition cache_file (media : str) (start_ms end_ms pad_ms : Z) : str :=
  cache_dir ++ md5_hexdigest (cache_key media start_ms end_ms pad_ms)
  ++ lit ".mp3".

(** [make_snippet]: the returned path ([None] when extraction fails) and
    the world afterwards. A non-zero exit status makes [subprocess.run]
    raise, which the function turns into [None]. *)
Definition make_snippet (ffmpeg_exe media : str) (start_ms end_ms pad_ms : Z)
    (w : World) : option str * World :=
  let out := cache_file media start_ms end_ms pad_ms in
  let cached :=
    match files w !! out with
    | Some size => (1024 <? size)%Z
    | None => false
    end in
  if cached then (Some out, w)
  else
    let ss := Z.max 0 (start_ms - pad_ms) in
    let dur := Z.max 1 ((end_ms - start_ms) + 2 * pad_ms) in
    let args := {| arg_exe := ffmpeg_exe; arg_ss_ms := ss; arg_input := media;
                   arg_dur_ms := dur; arg_output := out |} in
    let '(ok, files') := ffmpeg args (files w) in
    let w' := {| files := files';
                 transcoder_runs := transcoder_runs w ++ [args] |} in
    if ok then
      (match files' !! out with Some _ => Some out | None => None end, w')
    else (None, w').
End WithCollaborators.

End Snippet.

(* ===================================================================== *)
(** ** Lyric parser ([parse_lrc] of [parse_media.py] and [indexer_gui.py]) *)
(* ===================================================================== *)

Module ParseMedia.
Import BuildIndex.

(** One match of the time tag pattern: its three groups (minutes, seconds,
    and the fraction when present) and the number of code points matched. *)
Record TimeTag := {
  tag_mm : str;
  tag_ss : str;
  tag_frac : option str;
  tag_len : nat
}.

(** The line boundaries of [str.splitlines]. *)
Definition is_line_boundary (c : N) : bool :=
  ((c =? 0x0A) || (c =? 0x0B) || (c =? 0x0C) || (c =? 0x0D)
   || (c =? 0x1C) || (c =? 0x1D) || (c =? 0x1E) || (c =? 0x85)
   || (c =? 0x2028) || (c =? 0x2029))%N.

(** [txt.splitlines()]; [cur] is the current line, reversed. A carriage
    return followed by a line feed is one boundary. *)
Fixpoint splitlines_from (s : str) (cur : str) : list str :=
  match s with
  | [] => match cur with [] => [] | _ => [rev cur] end
  | c :: s' =>
      if (c =? 0x0D)%N then
        match s' with
        | c' :: s'' =>
            if (c' =? 0x0A)%N then rev cur :: splitlines_from s'' []
            else rev cur :: splitlines_from s' []
        | [] => rev cur :: splitlines_from s' []
        end
      else if is_line_boundary c then rev cur :: splitlines_from s' []
      else splitlines_from s' (c :: cur)
  end.

Definition splitlines (s : str) : list str := splitlines_from s [].

Section WithCollaborators.
(** [unicodedata.normalize] with the form NFKC *)
Variable normalize_nfkc : str -> str.
(** The value of a code point as a decimal digit ([None] when it is not
    one): the class the pattern writes as a backslash followed by d, and the
    digits [int] reads. *)
Variable digit_value : N -> option Z.
(** [path.stem] *)
Variable stem : str -> str.

Definition is_digit (c : N) : bool :=
  match digit_value c with Some _ => true | None => false end.

(** Up to [max] leading digits of [s], and what follows them. *)
Fixpoint take_digits (max : nat) (s : str) : str * str :=
  match max, s with
  | S k, c :: s' =>
      if is_digit c then
        let '(ds, rest) := take_digits k s' in (c :: ds, rest)
      else ([], s)
  | _, _ => ([], s)
  end.

(** A match of the time tag pattern at the head of [s]: an opening
    bracket, one or two digits, a colon, two digits, optionally a dot or a
    colon followed by one to three digits, a closing bracket. Each
    repetition is followed by a character that is not a digit, so the
    greedy choice is the only one that can succeed. *)
Definition match_time_tag (s : str) : option TimeTag :=
  match s with
  | c0 :: r1 =>
      if negb (c0 =? 0x5B)%N then None else
      let '(mm, r2) := take_digits 2 r1 in
      match mm, r2 with
      | _ :: _, c1 :: r3 =>
          if negb (c1 =? 0x3A)%N then None else
          let '(ss, r4) := take_digits 2 r3 in
          if negb (length ss =? 2)%nat then None else
          let plain :=
            match r4 with
            | c3 :: _ =>
                if (c3 =? 0x5D)%N
                then Some {| tag_mm := mm; tag_ss := ss; tag_frac := None;
                             tag_len := 1 + length mm + 1 + 2 + 1 |}
                else None
            | [] => None
            end in
          match r4 with
          | c2 :: r5 =>
              if (c2 =? 0x2E)%N || (c2 =? 0x3A)%N then
                let '(frac, r6) := take_digits 3 r5 in
                match frac, r6 with
                | _ :: _, c3 :: _ =>
                    if (c3 =? 0x5D)%N
                    then Some {| tag_mm := mm; tag_ss := ss;
                                 tag_frac := Some frac;
                                 tag_len := 1 + length mm + 1 + 2 + 1
                                            + length frac + 1 |}
                    else plain
                | _, _ => plain
                end
              else plain
          | [] => plain
          end
      | _, _ => None
      end
  | [] => None
  end.

(** One left-to-right scan for the non-overlapping matches of the pattern:
    the matches ([finditer]) and the line without them ([sub] with the empty
    replacement). [skip] counts the code points of the current match that
    are still to be passed over. *)
Fixpoint scan_time_tags (s : str) (skip : nat) : list TimeTag * str :=
  match s with
  | [] => ([], [])
  | c :: s' =>
      match skip with
      | S k => scan_time_tags s' k
      | 0 =>
          match match_time_tag s with
          | Some tag =>
              let '(tags, rest) := scan_time_tags s' (tag_len tag - 1) in
              (tag :: tags, rest)
          | None =>
              let '(tags, rest) := scan_time_tags s' 0 in
              (tags, c :: rest)
          end
      end
  end.

Definition finditer (line : str) : list TimeTag := fst (scan_time_tags line 0).
Definition sub_empty (line : str) : str := snd (scan_time_tags line 0).

(** [int(s)] for a string of digits. *)
Definition int_of_digits (s : str) : Z :=
  fold_left (fun acc c => (acc * 10 + default 0 (digit_value c))%Z) s 0%Z.

(** The start time of a tag, in milliseconds. *)
Definition tag_start_ms (m : TimeTag) : Z :=
  let mm := int_of_digits (tag_mm m) in
  let ss := int_of_digits (tag_ss m) in
  let ms :=
    match tag_frac m with
    | None => 0%Z
    | Some frac => int_of_digits (take 3 (frac ++ lit "00"))
    end in
  ((mm * 60 + ss) * 1000 + ms)%Z.

(** The entries of one line. *)
Definition line_entries (clean : str -> str) (path : str) (line : str)
    : list Entry :=
  match finditer line with
  | [] => []
  | tags =>
      let text := clean (strip (sub_empty line)) in
      match text with
      | [] => []
      | _ =>
          map (fun m =>
                 let start_ms := tag_start_ms m in
                 {| id := path ++ lit "|" ++ str_of_Z start_ms;
                    media_type := lit "song";
                    title := stem path;
                    episode_or_track := [];
                    media_path := [];
                    source_path := path;
                    start_ms := start_ms;
                    end_ms := (start_ms + 3000)%Z;
                    text := text;
                    context_prev := [];
                    context_next := [] |})
              tags
      end
  end.

(** The last loop of [parse_lrc]: each entry receives the text of its
    neighbours. *)
Definition set_context (entries : list Entry) : list Entry :=
  imap (fun i e =>
          {| id := id e; media_type := media_type e; title := title e;
             episode_or_track := episode_or_track e;
             media_path := media_path e; source_path := source_path e;
             start_ms := start_ms e; end_ms := end_ms e; text := text e;
             context_prev :=
               match i with
               | S j => default [] (text <$> entries !! j)
               | 0 => []
               end;
             context_next :=
               if (S i <? length entries)%nat
               then default [] (text <$> entries !! S i) else [] |})
       entries.

(** [parse_lrc] on the decoded content [txt] of the file at [path];
    [clean] is [nfkc] in [parse_media.py] and [jp_clean] in
    [indexer_gui.py]. *)
Definition parse_lrc_with (clean : str -> str) (path : str) (txt : str)
    : list Entry :=
  let entries := flat_map (line_entries clean path) (splitlines txt) in
  let entries := sort (fun a b => (start_ms a <=? start_ms b)%Z) entries in
  set_context entries.

Definition parse_lrc : str -> str -> list Entry :=
  parse_lrc_with (nfkc normalize_nfkc).

Definition parse_lrc_gui : str -> str -> list Entry :=
  parse_lrc_with (jp_clean normalize_nfkc).
End WithCollaborators.

End ParseMedia.

(* ===================================================================== *)
(** ** Time stamps ([ms_to_timestr] of [search.py], [app_ui.py],
       [parse_media.py] and [play_snippet.py]) *)
(* ===================================================================== *)

Module TimeStr.

(** The format specs [02d] and [03d]: the decimal digits of [n], filled
    with zeros up to [width], a minus sign counting in the width and
    standing before the zeros. *)
Definition zfill_d (width : nat) (n : Z) : str :=
  let digits := str_of_Z (Z.abs n) in
  let sign := if (n <? 0)%Z then lit "-" else [] in
  sign ++ repeat 0x30%N (width - length sign - length digits) ++ digits.

(** [ms_to_timestr]; [divmod] rounds towards minus infinity, as [Z.div]
    and [Z.modulo] do for a positive divisor. *)
Definition ms_to_timestr (ms : Z) : str :=
  let s := (ms / 1000)%Z in
  let ms := (ms mod 1000)%Z in
  let m := (s / 60)%Z in
  let s := (s mod 60)%Z in
  let h := (m / 60)%Z in
  let m := (m mod 60)%Z in
  zfill_d 2 h ++ lit ":" ++ zfill_d 2 m ++ lit ":" ++ zfill_d 2 s
  ++ lit "." ++ zfill_d 3 ms.

End TimeStr.

(* ===================================================================== *)
(** ** Query parsing ([parse_query] of [app_ui.py]) *)
(* ===================================================================== *)

Module ParseQuery.

(** The four quotation styles of [QUOTE_RE]: the closing mark that goes
    with an opening mark. The straight double quote (0x22) closes itself;
    the others are U+201C/U+201D, U+300E/U+300F and U+300C/U+300D. *)
Definition closer_of (c : N) : option N :=
  if (c =? 0x22)%N then Some 0x22%N
  else if (c =? 0x201C)%N then Some 0x201D%N
  else if (c =? 0x300E)%N then Some 0x300F%N
  else if (c =? 0x300C)%N then Some 0x300D%N
  else None.

(** The code points of [s] before the first [c], when [c] occurs. *)
Fixpoint span_until (c : N) (s : str) : option str :=
  match s with
  | [] => None
  | x :: s' =>
      if (x =? c)%N then Some []
      else match span_until c s' with
           | Some g => Some (x :: g)
           | None => None
           end
  end.

(** A match of [QUOTE_RE] at the head of [s]: an opening mark, one or more
    code points other than its closing mark, the closing mark. The result
    is the captured group. *)
Definition match_quote (s : str) : option str :=
  match s with
  | o :: r =>
      match closer_of o with
      | Some c =>
          match span_until c r with
          | Some (x :: g) => Some (x :: g)
          | _ => None
          end
      | None => None
      end
  | [] => None
  end.

(** The groups of the non-overlapping matches, left to right ([finditer]);
    [skip] counts the code points of the current match still to pass. *)
Fixpoint quoted_groups (s : str) (skip : nat) : list str :=
  match s with
  | [] => []
  | _ :: s' =>
      match skip with
      | S k => quoted_groups s' k
      | 0 =>
          match match_quote s with
          | Some g => g :: quoted_groups s' (S (length g))
          | None => quoted_groups s' 0
          end
      end
  end.

(** The phrases of a query: each captured group, stripped. *)
Definition extract_phrases (query : str) : list str :=
  map strip (quoted_groups query 0).

Section WithTokenizer.
(** [_sudachi.tokenize(query, _mode)] *)
Variable tokenize : str -> list Morpheme.

(** The set of stripped surfaces and the set of stripped readings that
    are not blank. *)
Definition surface_set (query : str) : gset str :=
  list_to_set
    (List.filter (fun s => negb (str_eqb s []))
       (map (fun m => strip (surface m)) (tokenize query))).

Definition reading_set (query : str) : gset str :=
  list_to_set
    (List.filter (fun r => negb (str_eqb r []))
       (map (fun m => strip (or_str (reading_form m) (surface m)))
            (tokenize query))).

Definition parse_query (query : str) : str * list str * gset str * gset str :=
  (query, extract_phrases query, surface_set query, reading_set query).
End WithTokenizer.

End ParseQuery.

(* ===================================================================== *)
(** ** The index build loop ([build] of [build_index.py]) *)
(* ===================================================================== *)

Module Build.
Import BuildIndex.

Section WithCollaborators.
Variable normalize_nfkc : str -> str.
Variable tokenize : str -> list Morpheme.

(** The three assignments of [build] to a decoded record: [text],
    [context_prev] and [context_next] are cleaned. *)
Definition clean_record (obj : Entry) : Entry :=
  {| id := id obj; media_type := media_type obj; title := title obj;
     episode_or_track := episode_or_track obj;
     media_path := media_path obj; source_path := source_path obj;
     start_ms := start_ms obj; end_ms := end_ms obj;
     text := jp_clean normalize_nfkc (text obj);
     context_prev := jp_clean normalize_nfkc (context_prev obj);
     context_next := jp_clean normalize_nfkc (context_next obj) |}.

(** One iteration of the loop of [build] over the decoded records: the
    store and the counter [total], or the exception that ends the loop. *)
Definition build_step (acc : Outcome (Store * nat)) (obj : Entry)
    : Outcome (Store * nat) :=
  match acc with
  | Raise msg => Raise msg
  | Return (st, total) =>
      let obj := clean_record obj in
      match text obj with
      | [] => Return (st, total)
      | _ =>
          match insert_entry normalize_nfkc tokenize st obj with
          | Return st' => Return (st', S total)
          | Raise msg => Raise msg
          end
      end
  end.

(** [json.loads] on a stripped line of the file: the decoded record, or
    the exception raised for a line that is not JSON. *)
Variable loads : str -> Outcome Entry.

(** One iteration of the loop of [build] over the lines of the file: a
    line that is blank once stripped is passed over, the others are
    decoded and handled as records. *)
Definition build_line (acc : Outcome (Store * nat)) (line : str)
    : Outcome (Store * nat) :=
  match acc with
  | Raise msg => Raise msg
  | Return (st, total) =>
      match strip line with
      | [] => Return (st, total)
      | c :: l =>
          match loads (c :: l) with
          | Raise msg => Raise msg
          | Return obj => build_step (Return (st, total)) obj
          end
      end
  end.

(** [build], from the store the schema leaves and the lines of the file:
    the store at the end and the number it reports as indexed, or the
    exception that escapes. *)
Definition build (st : Store) (lines : list str) : Outcome (Store * nat) :=
  fold_left build_line lines (Return (st, 0)).
End WithCollaborators.

End Build.

(* ===================================================================== *)
(** ** Media lookup ([get_bound_media], [bind_media] and
       [find_media_candidates] of [app_ui.py]; [find_media_candidates] of
       [play_snippet.py]) *)
(* ===================================================================== *)

Module Media.

(** [MEDIA_EXTS]: the video extensions followed by the audio extensions,
    in the order both files list them. *)
Definition MEDIA_EXTS : list str :=
  map lit [".mkv"; ".mp4"; ".ts"; ".m4v"; ".avi"; ".mov";
           ".mp3"; ".flac"; ".m4a"; ".aac"; ".wav"; ".ogg"]%string.

(** A loop that keeps the elements for which a test that can raise
    answers true; the first exception ends it. *)
Fixpoint filter_try {A : Type} (f : A -> Outcome bool) (l : list A)
    : Outcome (list A) :=
  match l with
  | [] => Return []
  | x :: l' =>
      match f x with
      | Raise e => Raise e
      | Return b =>
          match filter_try f l' with
          | Raise e => Raise e
          | Return r => Return (if b then x :: r else r)
          end
      end
  end.

(** A loop over listings that can raise: their elements in order, or the
    first exception. *)
Fixpoint collect_try {A : Type} (l : list (Outcome (list A)))
    : Outcome (list A) :=
  match l with
  | [] => Return []
  | o :: l' =>
      match o with
      | Raise e => Raise e
      | Return xs =>
          match collect_try l' with
          | Raise e => Raise e
          | Return ys => Return (xs ++ ys)
          end
      end
  end.

Section WithLinks.
(** [pathlib.Path], with the equality and the hash of Python. *)
Context {path : Type} `{Countable path}.
(** [p.stem] *)
Variable stem : path -> str.
(** [p.exists()] *)
Variable exists_ : path -> bool.

(** The table [media_links(stem TEXT PRIMARY KEY, media_path TEXT)] is a
    map from stems to paths: [bind_media], its only writer, stores the
    string of a path, which [get_bound_media] reads back as a path.

    [get_bound_media]: [source_path] is [None] or a path. *)
Definition get_bound_media (conn : gmap str path) (source_path : option path)
    : option path :=
  match source_path with
  | None => None
  | Some sp =>
      match conn !! stem sp with
      | Some p => if exists_ p then Some p else None
      | None => None
      end
  end.

(** [bind_media]: INSERT OR REPLACE on the primary key [stem]. *)
Definition bind_media (conn : gmap str path) (source_path media_path : path)
    : gmap str path :=
  <[stem source_path := media_path]> conn.
End WithLinks.

Section WithFileSystem.
Context {path : Type} `{Countable path}.
(** [p.stem], [p.parent], [folder / name], [p.suffix] *)
Variable stem : path -> str.
Variable parent : path -> path.
Variable joinpath : path -> str -> path.
Variable suffix : path -> str.
(** [str.lower] *)
Variable py_lower : str -> str.
(** [p.exists()] and [p.is_file()], which raise on an error of the file
    system that they do not take for absence (a refused permission) *)
Variable path_exists : path -> Outcome bool.
Variable path_is_file : path -> Outcome bool.
(** [folder.iterdir()], which raises when the folder cannot be listed *)
Variable iterdir : path -> Outcome (list path).
(** [root.rglob(pattern)], which raises on a pattern it does not accept,
    and [root.glob] with the pattern [*] *)
Variable rglob : path -> str -> Outcome (list path).
Variable glob_all : path -> Outcome (list path).

(** [p.is_file() and p.suffix.lower() in MEDIA_EXTS] *)
Definition is_media_file (p : path) : Outcome bool :=
  match path_is_file p with
  | Raise e => Raise e
  | Return b => Return (b && bool_decide (py_lower (suffix p) ∈ MEDIA_EXTS))
  end.

(** The last loop of [find_media_candidates]: the first occurrence of each
    path is kept. *)
Definition dedupe_step (acc : list path * gset path) (p : path)
    : list path * gset path :=
  let '(uniq, seen) := acc in
  if bool_decide (p ∈ seen) then (uniq, seen)
  else (uniq ++ [p], {[p]} ∪ seen).

Definition dedupe (candidates : list path) : list path :=
  fst (fold_left dedupe_step candidates ([], ∅)).

(** The files next to the source with its stem and a media extension. *)
Definition same_stem_siblings (sp : path) : Outcome (list path) :=
  filter_try path_exists
    (map (fun ext => joinpath (parent sp) (stem sp ++ ext)) MEDIA_EXTS).

(** The candidates found from the source path alone. *)
Definition local_candidates (source_path : option path)
    : Outcome (list path) :=
  match source_path with
  | None => Return []
  | Some sp =>
      match same_stem_siblings sp with
      | Raise e => Raise e
      | Return [] =>
          match iterdir (parent sp) with
          | Return ps => filter_try is_media_file ps
          | Raise e => Raise e
          end
      | Return candidates => Return candidates
      end
  end.

(** The candidates with those found under the media root. *)
Definition with_root_candidates (source_path media_root : option path)
    (candidates : list path) : Outcome (list path) :=
  match media_root with
  | None => Return candidates
  | Some root =>
      match option_map stem source_path with
      | Some (c :: st) =>
          match collect_try
                  (map (fun ext => rglob root ((c :: st) ++ ext)) MEDIA_EXTS)
          with
          | Raise e => Raise e
          | Return found => Return (candidates ++ found)
          end
      | _ =>
          match candidates with
          | [] =>
              match glob_all root with
              | Return ps => filter_try is_media_file ps
              | Raise e => Raise e
              end
          | _ => Return candidates
          end
      end
  end.

(** [find_media_candidates] *)
Definition find_media_candidates (source_path media_root : option path)
    : Outcome (list path) :=
  match local_candidates source_path with
  | Raise e => Raise e
  | Return candidates =>
      match with_root_candidates source_path media_root candidates with
      | Raise e => Raise e
      | Return candidates => Return (dedupe candidates)
      end
  end.
End WithFileSystem.

End Media.

(* ===================================================================== *)
(** ** Subtitle parser ([parse_subtitle] of [parse_media.py] and
       [indexer_gui.py]) *)
(* ===================================================================== *)

Module Subtitle.
Import BuildIndex ParseMedia.

(** An event of the loaded subtitle file: its [plaintext] attribute when
    the library has one, its [text] ([None] or a string), and its times
    in milliseconds. *)
Record Event := {
  ev_plaintext : option str;
  ev_text : option str;
  ev_start : Z;
  ev_end : Z
}.

(** [re.sub] of the override blocks with the empty string: an opening
    brace, any code points but a closing brace, a closing brace. [skip]
    counts the code points of the current block still to be passed over. *)
Fixpoint remove_blocks (s : str) (skip : nat) : str :=
  match s with
  | [] => []
  | c :: s' =>
      match skip with
      | S k => remove_blocks s' k
      | 0 =>
          if (c =? 0x7B)%N then
            match ParseQuery.span_until 0x7D s' with
            | Some g => remove_blocks s' (S (length g))
            | None => c :: remove_blocks s' 0
            end
          else c :: remove_blocks s' 0
      end
  end.

(** The text of an event before it is cleaned. *)
Definition event_text (ev : Event) : str :=
  match ev_plaintext ev with
  | Some t => t
  | None => remove_blocks (default [] (ev_text ev)) 0
  end.

Section WithCollaborators.
(** [path.stem] *)
Variable stem : str -> str.
(** [nfkc] in [parse_media.py], [jp_clean] in [indexer_gui.py] *)
Variable clean : str -> str.

(** The entry of one event, none when its cleaned text is empty. *)
Definition event_entries (path : str) (ev : Event) : list Entry :=
  let text := clean (event_text ev) in
  match text with
  | [] => []
  | _ =>
      [{| id := path ++ lit "|" ++ str_of_Z (ev_start ev);
          media_type := lit "anime";
          title := stem path;
          episode_or_track := [];
          media_path := [];
          source_path := path;
          start_ms := ev_start ev;
          end_ms := ev_end ev;
          text := text;
          context_prev := [];
          context_next := [] |}]
  end.

(** [parse_subtitle] on the events [pysubs2.load] returns for the file at
    [path]. *)
Definition parse_subtitle_with (path : str) (events : list Event)
    : list Entry :=
  set_context (flat_map (event_entries path) events).
End WithCollaborators.

End Subtitle.

(* ===================================================================== *)
(** ** The whole of [make_snippet], with its [try] block ([app_ui.py]) *)
(* ===================================================================== *)

Module SnippetTry.
Import Snippet.

(** What the body of [make_snippet] meets besides the transcoder. The
    whole body runs inside [try] with [except Exception: return None];
    each field tells whether the steps of one part of the body return
    rather than raise.
    - [prepares]: the steps before the cache is looked up, which are
      [CACHE_DIR.mkdir], the formatting and the encoding of the key, and
      the digest;
    - [stats]: [out.exists()] and [out.stat()], with the given files;
    - [builds_command]: the command line, that is [ss/1000] and
      [dur/1000] as floats, and [subprocess.CREATE_NO_WINDOW], which
      exists on Windows only. *)
Record Host := {
  prepares : str -> Z -> Z -> Z -> bool;
  stats : gmap str Z -> str -> bool;
  builds_command : Z -> Z -> bool
}.

Section WithCollaborators.
(** [hashlib.md5(key.encode(...)).hexdigest()] *)
Variable md5_hexdigest : str -> str.
(** [CACHE_DIR], as a string ending with the path separator *)
Variable cache_dir : str.
(** One call of [subprocess.run] with [check=True]: whether it returns
    (the process was started and exited with status 0) rather than
    raises, and the files that exist afterwards. *)
Variable ffmpeg : FfmpegArgs -> gmap str Z -> bool * gmap str Z.
Variable host : Host.

(** [make_snippet]: the returned path, [None] when any step of the body
    raises, and the world afterwards. *)
Definition make_snippet (ffmpeg_exe media : str) (start_ms end_ms pad_ms : Z)
    (w : World) : option str * World :=
  if negb (prepares host media start_ms end_ms pad_ms) then (None, w) else
  let out := cache_file md5_hexdigest cache_dir media start_ms end_ms pad_ms in
  if negb (stats host (files w) out) then (None, w) else
  let cached :=
    match files w !! out with
    | Some size => (1024 <? size)%Z
    | None => false
    end in
  if cached then (Some out, w)
  else
    let ss := Z.max 0 (start_ms - pad_ms) in
    let dur := Z.max 1 ((end_ms - start_ms) + 2 * pad_ms) in
    if negb (builds_command host ss dur) then (None, w) else
    let args := {| arg_exe := ffmpeg_exe; arg_ss_ms := ss; arg_input := media;
                   arg_dur_ms := dur; arg_output := out |} in
    let '(ok, files') := ffmpeg args (files w) in
    let w' := {| files := files';
                 transcoder_runs := transcoder_runs w ++ [args] |} in
    if ok then
      if stats host files' out then
        (match files' !! out with Some _ => Some out | None => None end, w')
      else (None, w')
    else (None, w').
End WithCollaborators.

(** A host on which no step raises. *)
Definition plain_host : Host :=
  {| prepares := fun _ _ _ _ => true;
     stats := fun _ _ => true;
     builds_command := fun _ _ => true |}.

End SnippetTry.

(* ===================================================================== *)
(** ** Fixtures: concrete collaborators used to instantiate the theorems *)
(* ===================================================================== *)

Module Fixtures.

(** An analyzer that returns the whole input as one morpheme, read as
    written. *)
Definition whole_tokenizer (s : str) : list Morpheme :=
  match s with
  | [] => []
  | _ => [{| surface := s; reading_form := s;
             m_begin := 0; m_end := length s |}]
  end.

(** An analyzer that returns one morpheme per code point, without a
    reading. *)
Definition char_tokenizer (s : str) : list Morpheme :=
  imap (fun i c => {| surface := [c]; reading_form := [];
                      m_begin := i; m_end := S i |}) s.

(** An analyzer that returns the whole input as one morpheme whose reading
    is reported as [*]. *)
Definition star_tokenizer (s : str) : list Morpheme :=
  [{| surface := s; reading_form := lit "*";
      m_begin := 0; m_end := length s |}].

(** An analyzer that returns the whole input as one morpheme whose reading
    is reported as a single space. *)
Definition blank_reading_tokenizer (s : str) : list Morpheme :=
  [{| surface := s; reading_form := lit " ";
      m_begin := 0; m_end := length s |}].

(** Normalization on text that NFKC leaves unchanged. *)
Definition inert_nfkc (s : str) : str := s.

Definition mk_row (t : str) : Search.Row :=
  {| Search.row_title := lit "ep1"; Search.row_media_type := lit "anime";
     Search.row_start_ms := 0; Search.row_end_ms := 1000;
     Search.row_text := Some t; Search.row_source_path := lit "ep1.srt" |}.

(** A database whose index returns three rows for any query. *)
Definition demo_conn : Search.Conn :=
  {| Search.execute_ranked := fun _ _ =>
       Search.Rows [mk_row (lit "abXc"); mk_row (lit "abc"); mk_row (lit "X")];
     Search.execute_unranked := fun _ _ => Search.Rows [] |}.

(** A database in which the [fts] table was never created. *)
Definition no_fts_conn : Search.Conn :=
  {| Search.execute_ranked := fun _ _ =>
       Search.OperationalError (lit "no such table: fts");
     Search.execute_unranked := fun _ _ =>
       Search.OperationalError (lit "no such table: fts") |}.

(** A database with an index in which nothing matches. *)
Definition no_hit_conn : Search.Conn :=
  {| Search.execute_ranked := fun _ _ => Search.Rows [];
     Search.execute_unranked := fun _ _ => Search.Rows [] |}.

Definition demo_entry : BuildIndex.Entry :=
  {| BuildIndex.id := lit "a.lrc|62500";
     BuildIndex.media_type := lit "song";
     BuildIndex.title := lit "a";
     BuildIndex.episode_or_track := [];
     BuildIndex.media_path := [];
     BuildIndex.source_path := lit "a.lrc";
     BuildIndex.start_ms := 62500;
     BuildIndex.end_ms := 65500;
     BuildIndex.text := lit "hello";
     BuildIndex.context_prev := [];
     BuildIndex.context_next := [] |}.

(** A transcoder that succeeds and writes an output file of the given
    size. *)
Definition ffmpeg_writes (size : Z) (args : Snippet.FfmpegArgs)
    (fs : gmap str Z) : bool * gmap str Z :=
  (true, <[Snippet.arg_output args := size]> fs).

Definition empty_world : Snippet.World :=
  {| Snippet.files := ∅; Snippet.transcoder_runs := [] |}.

(** A stand-in for the digest: any function of the key serves where a
    statement does not depend on the digest's values. *)
Definition toy_digest (key : str) : str := lit "k" ++ str_of_Z (Z.of_nat (length key)).

(** The decimal value of an ASCII digit. *)
Definition ascii_digit_value (c : N) : option Z :=
  if ((0x30 <=? c) && (c <=? 0x39))%N then Some (Z.of_N c - 0x30)%Z else None.

(** The file name without directory and extension, for a bare name with
    one dot. *)
Definition simple_stem (p : str) : str :=
  take (default (length p) (find p (lit ".") 0)) p.

End Fixtures.

(* ===================================================================== *)
(** ** Facts about the string and list primitives *)
(* ===================================================================== *)

Module PyStrFacts.

Lemma startswith_spec (p t : str) :
  startswith p t = true <-> exists post, t = p ++ post.
Proof.
  revert t. induction p as [|a p IH]; intros t; simpl.
  - split; [intros _; exists t; reflexivity | reflexivity].
  - destruct t as [|b t].
    + split; [discriminate | intros [post H]; discriminate].
    + rewrite andb_true_iff, N.eqb_eq, IH. split.
      * intros [-> [post ->]]. exists post. reflexivity.
      * intros [post H]. injection H as -> ->. eauto.
Qed.

(** [p in t] holds exactly when [p] is a literal, contiguous run of the
    code points of [t]. *)
Lemma contains_spec (p t : str) :
  contains p t = true <-> exists pre post, t = pre ++ p ++ post.
Proof.
  induction t as [|b t IH]; simpl.
  - rewrite orb_false_r, startswith_spec. split.
    + intros [post H]. exists [], post. exact H.
    + intros [pre [post H]]. destruct pre; simpl in H.
      * eauto.
      * discriminate.
  - rewrite orb_true_iff, startswith_spec, IH. split.
    + intros [[post H] | [pre [post H]]].
      * exists [], post. exact H.
      * exists (b :: pre), post. rewrite H. reflexivity.
    + intros [pre [post H]]. destruct pre as [|c pre]; simpl in H.
      * left. eauto.
      * right. injection H as -> ->. eauto.
Qed.

Lemma In_take {A} (n : nat) (l : list A) (x : A) : In x (take n l) -> In x l.
Proof.
  intros H. rewrite <- (firstn_skipn n l). apply in_or_app. left. exact H.
Qed.

Lemma slice_to_In {A} (l : list A) (n : Z) (x : A) :
  In x (slice_to l n) -> In x l.
Proof. unfold slice_to. destruct (0 <=? n)%Z; apply In_take. Qed.

Lemma slice_to_length {A} (l : list A) (n : Z) :
  (0 <= n)%Z -> (Z.of_nat (length (slice_to l n)) <= n)%Z.
Proof.
  intros Hn. unfold slice_to.
  destruct (Z.leb_spec 0 n); [|lia].
  rewrite length_take. lia.
Qed.

(** An invariant of a left fold that every step preserves. *)
Lemma fold_left_invariant {A B} (f : A -> B -> A) (P : A -> Prop)
    (l : list B) (a : A) :
  P a -> (forall a x, In x l -> P a -> P (f a x)) -> P (fold_left f l a).
Proof.
  revert a. induction l as [|y l IH]; intros a Ha Hstep; simpl; [exact Ha|].
  apply IH.
  - apply Hstep; [left; reflexivity|exact Ha].
  - intros a' x Hx. apply Hstep. right. exact Hx.
Qed.

Section SortFacts.
Context {A : Type} (leb : A -> A -> bool).
Hypothesis leb_total : forall a b, leb a b = true \/ leb b a = true.
Hypothesis leb_trans :
  forall a b c, leb a b = true -> leb b c = true -> leb a c = true.

Lemma insert_sorted_In (x y : A) (l : list A) :
  In y (insert_sorted leb x l) <-> y = x \/ In y l.
Proof.
  induction l as [|z l IH]; simpl.
  - intuition.
  - destruct (leb x z); simpl; [intuition|]. rewrite IH. intuition.
Qed.

(** Sorting keeps the elements. *)
Lemma sort_In (y : A) (l : list A) : In y (sort leb l) <-> In y l.
Proof.
  induction l as [|x l IH]; simpl; [reflexivity|].
  rewrite insert_sorted_In, IH. intuition.
Qed.

Lemma insert_sorted_sorted (x : A) (l : list A) :
  StronglySorted (fun a b => leb a b = true) l ->
  StronglySorted (fun a b => leb a b = true) (insert_sorted leb x l).
Proof.
  induction l as [|z l IH]; intros Hs; simpl.
  - constructor; constructor.
  - inversion Hs as [|? ? Hl Hz]; subst.
    destruct (leb x z) eqn:E.
    + constructor; [exact Hs|]. constructor; [exact E|].
      rewrite List.Forall_forall in Hz |- *.
      intros w Hw. apply (leb_trans x z w E), Hz, Hw.
    + constructor; [apply IH, Hl|].
      rewrite List.Forall_forall in Hz |- *. intros w Hw.
      apply insert_sorted_In in Hw. destruct Hw as [-> | Hw].
      * destruct (leb_total x z) as [H | H]; [congruence|exact H].
      * apply Hz, Hw.
Qed.

(** Sorting orders the elements by the key. *)
Lemma sort_sorted (l : list A) :
  StronglySorted (fun a b => leb a b = true) (sort leb l).
Proof.
  induction l as [|x l IH]; simpl; [constructor|].
  apply insert_sorted_sorted, IH.
Qed.
End SortFacts.

Lemma find_from_spec (p t : str) (off i : nat) :
  find_from p t off = Some i ->
  exists k, i = off + k /\ k <= length t /\ startswith p (drop k t) = true.
Proof.
  revert off. induction t as [|c t IH]; intros off; simpl.
  - destruct (startswith p []) eqn:E; [|discriminate].
    intros [= <-]. exists 0. rewrite Nat.add_0_r. auto.
  - destruct (startswith p (c :: t)) eqn:E.
    + intros [= <-]. exists 0. rewrite Nat.add_0_r. simpl. split; [|split]; auto. lia.
    + intros H. apply IH in H. destruct H as [k [-> [Hk Hs]]].
      exists (S k). simpl. split; [lia|]. split; [lia|exact Hs].
Qed.

(** What [text.find(p, start)] returns, when it finds: an offset not
    before [start] at which [p] occurs in [text]. *)
Lemma find_spec (text p : str) (start i : nat) :
  find text p start = Some i ->
  start <= i /\ exists pre post, text = pre ++ p ++ post /\ length pre = i.
Proof.
  unfold find. destruct (Nat.ltb_spec (length text) start) as [|Hle]; [discriminate|].
  intros Hf. apply find_from_spec in Hf. destruct Hf as [k [-> [Hk Hs]]].
  split; [lia|].
  rewrite length_drop in Hk. rewrite drop_drop in Hs.
  apply startswith_spec in Hs. destruct Hs as [post Hpost].
  exists (take (start + k) text), post. split.
  - rewrite <- Hpost. symmetry. apply take_drop.
  - rewrite length_take. lia.
Qed.

Lemma find_past_end (text p : str) (start : nat) :
  length text < start -> find text p start = None.
Proof.
  intros H. unfold find. destruct (Nat.ltb_spec (length text) start); [reflexivity|lia].
Qed.

End PyStrFacts.

(* ===================================================================== *)
(** ** Properties of the query compiler *)
(* ===================================================================== *)

Module SearchProps.
Import Search.

(** The match expression as the specification describes it: a disjunction
    of field groups, each the conjunction of the terms of one field. *)
Record FieldGroup := {
  fg_field : str;
  fg_tokens : list str
}.

(** A conjunction: [field:t1 AND field:t2 AND ...]. *)
Definition render_and (g : FieldGroup) : str :=
  join (lit " AND ") (map (fun t => fg_field g ++ lit ":" ++ t) (fg_tokens g)).

(** A disjunction of parenthesised conjunctions: [(g1) OR (g2) ...]. *)
Definition render_or (groups : list FieldGroup) : str :=
  join (lit " OR ") (map (fun g => lit "(" ++ render_and g ++ lit ")") groups).

(** The group of one field: absent when the field has no token. *)
Definition field_group (field : str) (toks : list str) : list FieldGroup :=
  match toks with
  | [] => []
  | _ => [{| fg_field := field; fg_tokens := toks |}]
  end.

Definition expected_groups (s_tokens r_tokens : list str) : list FieldGroup :=
  field_group (lit "text_tok") s_tokens
  ++ field_group (lit "reading_tok") r_tokens.

Example build_match_query_ex1 :
  build_match_query Fixtures.whole_tokenizer (lit " ab'c ")
  = Some (lit "(text_tok:abc) OR (reading_tok:abc)").
Proof. vm_compute. reflexivity. Qed.

(** One surface token and no reading token: the single clause, no OR. *)
Example build_match_query_ex2 :
  tokenize_surface Fixtures.blank_reading_tokenizer (lit "ab") = [lit "ab"]
  /\ tokenize_reading Fixtures.blank_reading_tokenizer (lit "ab") = []
  /\ build_match_query Fixtures.blank_reading_tokenizer (lit "ab")
     = Some (lit "(text_tok:ab)").
Proof. repeat split; vm_compute; reflexivity. Qed.

(** No token at all: no expression. *)
Example build_match_query_ex3 :
  build_match_query Fixtures.whole_tokenizer [] = None.
Proof. vm_compute. reflexivity. Qed.

Lemma join_and_nonempty (field : str) (t : str) (ts : list str) :
  field <> [] ->
  join (lit " AND ") (map (fun t => field ++ t) (t :: ts)) <> [].
Proof.
  intros Hf. destruct field as [|c field]; [congruence|].
  cbn [map join]. destruct (map (fun t0 => (c :: field) ++ t0) ts); discriminate.
Qed.

(** C1. Whenever the query has at least one non-blank surface token or one
    non-blank reading token, [build_match_query] returns an expression: the
    tokens of a field (quotes removed) are joined by AND, the surface group
    and the reading group are joined by OR, and a field without tokens
    contributes no group. In particular one surface token and no reading
    token give the single clause [(text_tok:t)], with no OR. *)
Theorem build_match_query_and_or (tokenize : str -> list Morpheme) (q : str) :
  tokenize_surface tokenize q <> [] \/ tokenize_reading tokenize q <> [] ->
  build_match_query tokenize q
  = Some (render_or
            (expected_groups (map strip_quotes (tokenize_surface tokenize q))
                             (map strip_quotes (tokenize_reading tokenize q))))
  /\ (forall t, tokenize_surface tokenize q = [t] ->
            tokenize_reading tokenize q = [] ->
            build_match_query tokenize q
            = Some (lit "(text_tok:" ++ strip_quotes t ++ lit ")")).
Proof.
  intros Hne.
  assert (Hmain : build_match_query tokenize q
    = Some (render_or
              (expected_groups (map strip_quotes (tokenize_surface tokenize q))
                               (map strip_quotes (tokenize_reading tokenize q))))).
  { unfold build_match_query, expected_groups, render_or, render_and, field_group.
    destruct (tokenize_surface tokenize q) as [|s ss] eqn:Es;
      destruct (tokenize_reading tokenize q) as [|r rs] eqn:Er.
    - destruct Hne; congruence.
    - cbn [map app].
      assert (Hr := join_and_nonempty (lit "reading_tok:") (strip_quotes r)
                      (map strip_quotes rs) ltac:(discriminate)).
      cbn [map] in Hr. cbn [List.filter].
      unfold str_eqb. rewrite bool_decide_eq_false_2 by exact Hr.
      reflexivity.
    - cbn [map app].
      assert (Hs := join_and_nonempty (lit "text_tok:") (strip_quotes s)
                      (map strip_quotes ss) ltac:(discriminate)).
      cbn [map] in Hs. cbn [List.filter].
      unfold str_eqb. rewrite bool_decide_eq_false_2 by exact Hs.
      reflexivity.
    - cbn [map app].
      assert (Hs := join_and_nonempty (lit "text_tok:") (strip_quotes s)
                      (map strip_quotes ss) ltac:(discriminate)).
      assert (Hr := join_and_nonempty (lit "reading_tok:") (strip_quotes r)
                      (map strip_quotes rs) ltac:(discriminate)).
      cbn [map] in Hs, Hr. cbn [List.filter].
      unfold str_eqb. rewrite !bool_decide_eq_false_2 by assumption.
      reflexivity. }
  split; [exact Hmain|].
  intros t Es Er. rewrite Hmain, Es, Er. reflexivity.
Qed.

Lemma build_match_query_and_or_witness :
  build_match_query Fixtures.whole_tokenizer (lit "ab")
  = Some (lit "(text_tok:ab) OR (reading_tok:ab)").
Proof.
  refine (eq_trans
    (proj1 (build_match_query_and_or Fixtures.whole_tokenizer (lit "ab") _)) _).
  - left. vm_compute. discriminate.
  - vm_compute. reflexivity.
Defined.

(** The rows [query_hits] keeps from what the engine returned. *)
Lemma query_hits_returns (tokenize : str -> list Morpheme) (conn : Conn)
    (query : str) (phrases : list str) (topn : Z) (rows : list Row) :
  query_hits tokenize conn query phrases topn = Return rows ->
  rows = [] \/
  exists fetched,
    rows = match phrases with
           | _ :: _ =>
               slice_to
                 (List.filter (fun r => has_all phrases (row_text r)) fetched)
                 topn
           | [] => slice_to fetched topn
           end.
Proof.
  unfold query_hits.
  destruct (build_match_query tokenize query) as [[|c e]|];
    try (intros [= <-]; left; reflexivity).
  destruct (execute_ranked conn (c :: e) (topn * 5)) as [fetched|msg].
  - intros [= <-]. right. exists fetched. reflexivity.
  - destruct (contains _ (lower msg)); [intros [= <-]; left; reflexivity|].
    destruct (contains _ (lower msg)); [|discriminate].
    destruct (execute_unranked conn (c :: e) (topn * 5)) as [fetched|msg'];
      [|discriminate].
    intros [= <-]. right. exists fetched. reflexivity.
Qed.

(** C2. With a non-empty phrase list, every row [query_hits] returns has a
    text in which every phrase occurs as a literal run of code points (no
    case folding, no normalization), and at most [topn] rows are returned,
    [topn] being a non-negative cap. *)
Theorem query_hits_phrase_filter (tokenize : str -> list Morpheme)
    (conn : Conn) (query : str) (phrases : list str) (topn : Z)
    (rows : list Row) :
  phrases <> [] ->
  (0 <= topn)%Z ->
  query_hits tokenize conn query phrases topn = Return rows ->
  (forall r p, In r rows -> In p phrases ->
     exists pre post, default [] (row_text r) = pre ++ p ++ post)
  /\ (Z.of_nat (length rows) <= topn)%Z.
Proof.
  intros Hph Hn Hq.
  destruct (query_hits_returns _ _ _ _ _ _ Hq) as [-> | [fetched ->]].
  - split; [intros r p []|simpl; lia].
  - destruct phrases as [|p0 ps]; [congruence|]. split.
    + intros r p Hr Hp.
      apply PyStrFacts.slice_to_In, filter_In in Hr. destruct Hr as [_ Hall].
      unfold has_all in Hall. rewrite forallb_forall in Hall.
      apply PyStrFacts.contains_spec, Hall, Hp.
    + apply PyStrFacts.slice_to_length, Hn.
Qed.

Lemma query_hits_phrase_filter_witness :
  (forall r p, In r [Fixtures.mk_row (lit "abXc")] -> In p [lit "X"] ->
     exists pre post, default [] (row_text r) = pre ++ p ++ post)
  /\ (Z.of_nat (length [Fixtures.mk_row (lit "abXc")]) <= 1)%Z.
Proof.
  apply (query_hits_phrase_filter Fixtures.whole_tokenizer Fixtures.demo_conn
           (lit "X") [lit "X"] 1 [Fixtures.mk_row (lit "abXc")]).
  - discriminate.
  - lia.
  - vm_compute. reflexivity.
Defined.

(** C8 (evaluation). With no [fts] table, [query_hits] returns the empty
    list, the very value it returns when the index exists and nothing
    matches: its caller receives no advisory. [search] of [search.py] lets
    the OperationalError escape. *)
Theorem index_absent_outcomes :
  query_hits Fixtures.whole_tokenizer Fixtures.no_fts_conn (lit "neko") [] 200
  = Return []
  /\ query_hits Fixtures.whole_tokenizer Fixtures.no_hit_conn (lit "neko") [] 200
     = Return []
  /\ search Fixtures.whole_tokenizer Fixtures.no_fts_conn (lit "neko") 20 false
     = Raise (lit "no such table: fts").
Proof. repeat split; vm_compute; reflexivity. Qed.

(** C6 (evaluation). For a morpheme whose reading is reported as [*], the
    query path ([tokenize_reading]) and the graphical indexer keep [*] as
    the reading; only [tokenize_reading_kana] of [build_index.py] falls back
    to the surface. *)
Theorem star_reading_on_each_path :
  tokenize_reading Fixtures.star_tokenizer (lit "neko") = [lit "*"]
  /\ BuildIndex.tokenize_reading_kana_gui Fixtures.star_tokenizer (lit "neko")
     = [lit "*"]
  /\ BuildIndex.tokenize_reading_kana Fixtures.star_tokenizer (lit "neko")
     = [lit "neko"].
Proof. repeat split; vm_compute; reflexivity. Qed.

End SearchProps.

(* ===================================================================== *)
(** ** Properties of the normalizer and of ingest *)
(* ===================================================================== *)

Module BuildIndexProps.
Import BuildIndex.

Lemma clean_controls_idempotent (s : str) :
  clean_controls (clean_controls s) = clean_controls s.
Proof.
  unfold clean_controls. induction s as [|c s IH]; simpl; [reflexivity|].
  destruct (is_bidi_ctrl c) eqn:E; simpl; [exact IH|].
  rewrite E. simpl. f_equal. exact IH.
Qed.

(** No directional control character is left in the output of [jp_clean]. *)
Lemma jp_clean_no_controls (nf : str -> str) (s : str) (c : N) :
  In c (jp_clean nf s) -> is_bidi_ctrl c = false.
Proof.
  unfold jp_clean, clean_controls. intros H. apply filter_In in H.
  destruct H as [_ H]. destruct (is_bidi_ctrl c); [discriminate|reflexivity].
Qed.

(** C5 (evaluation). On the text [a], space, U+200E (each of which NFKC
    leaves unchanged) [jp_clean] gives [a] followed by a space: the trailing
    space was shielded from [strip] by the control character, which is
    removed only afterwards. Cleaning that result again gives [a]. *)
Theorem jp_clean_twice_differs (normalize_nfkc : str -> str) :
  normalize_nfkc [0x61; 0x20; 0x200e]%N = [0x61; 0x20; 0x200e]%N ->
  normalize_nfkc [0x61; 0x20]%N = [0x61; 0x20]%N ->
  jp_clean normalize_nfkc [0x61; 0x20; 0x200e]%N = [0x61; 0x20]%N
  /\ jp_clean normalize_nfkc (jp_clean normalize_nfkc [0x61; 0x20; 0x200e]%N)
     = [0x61]%N.
Proof.
  intros H1 H2.
  assert (E : jp_clean normalize_nfkc [0x61; 0x20; 0x200e]%N = [0x61; 0x20]%N).
  { unfold jp_clean, nfkc. rewrite H1. vm_compute. reflexivity. }
  split; [exact E|].
  rewrite E. unfold jp_clean, nfkc. rewrite H2. vm_compute. reflexivity.
Qed.

Lemma jp_clean_twice_differs_witness :
  jp_clean Fixtures.inert_nfkc [0x61; 0x20; 0x200e]%N = [0x61; 0x20]%N
  /\ jp_clean Fixtures.inert_nfkc
       (jp_clean Fixtures.inert_nfkc [0x61; 0x20; 0x200e]%N)
     = [0x61]%N.
Proof.
  apply (jp_clean_twice_differs Fixtures.inert_nfkc); reflexivity.
Defined.

Lemma find_snoc_None {A} (f : A -> bool) (l : list A) (x : A) :
  List.find f l = None -> List.find f (l ++ [x]) = List.find f [x].
Proof.
  induction l as [|y l IH]; simpl; [reflexivity|].
  destruct (f y); [discriminate|exact IH].
Qed.

(** The second ingest of a record leaves the [entries] table as it is. *)
Lemma insert_or_ignore_twice (st : Store) (row : Entry) :
  insert_or_ignore (insert_or_ignore st row) row = insert_or_ignore st row.
Proof.
  unfold insert_or_ignore at 2 3.
  destruct (select_rowid st (id row)) eqn:E.
  - unfold insert_or_ignore. rewrite E. reflexivity.
  - unfold insert_or_ignore, select_rowid. cbn [entries].
    unfold select_rowid in E.
    destruct (List.find _ (entries st)) eqn:F; [discriminate|].
    rewrite (find_snoc_None _ _ _ F).
    cbn [List.find snd]. unfold str_eqb.
    rewrite bool_decide_eq_true_2 by reflexivity. reflexivity.
Qed.

(** C7 (evaluation). Ingesting one record twice into the empty store: the
    [entries] table holds the record once, under rowid 1, after the first
    ingest and after the second; the [fts] table holds one row after the
    first ingest and two rows for rowid 1 after the second. *)
Theorem second_ingest_adds_fts_row :
  let ingest st :=
    insert_entry Fixtures.inert_nfkc Fixtures.whole_tokenizer st
      Fixtures.demo_entry in
  let row := {| fts_rowid := 1; text_tok := lit "hello";
                reading_tok := lit "hello" |} in
  ingest empty_store
  = Return {| entries := [(1%Z, Fixtures.demo_entry)]; fts := [row] |}
  /\ ingest {| entries := [(1%Z, Fixtures.demo_entry)]; fts := [row] |}
     = Return {| entries := [(1%Z, Fixtures.demo_entry)]; fts := [row; row] |}
  /\ insert_batch Fixtures.inert_nfkc Fixtures.whole_tokenizer
       {| entries := [(1%Z, Fixtures.demo_entry)]; fts := [row] |}
       [Fixtures.demo_entry]
     = {| entries := [(1%Z, Fixtures.demo_entry)]; fts := [row; row] |}.
Proof. repeat split; vm_compute; reflexivity. Qed.

End BuildIndexProps.

(* ===================================================================== *)
(** ** Properties of the snippet cache *)
(* ===================================================================== *)

Module SnippetProps.
Import Snippet.

Example str_of_Z_ex :
  str_of_Z 62500 = lit "62500" /\ str_of_Z 0 = lit "0"
  /\ str_of_Z (-40) = lit "-40".
Proof. repeat split; vm_compute; reflexivity. Qed.

Example make_snippet_ex :
  fst (make_snippet Fixtures.toy_digest (lit "cache/")
         (Fixtures.ffmpeg_writes 20000) (lit "ffmpeg") (lit "a.mkv")
         1000 2000 400 Fixtures.empty_world)
  = Some (lit "cache/k19.mp3").
Proof. vm_compute. reflexivity. Qed.

(** The path [make_snippet] returns, when it returns one, is the cache file
    of its four key values. *)
Lemma make_snippet_path (md5 : str -> str) (dir : str)
    (ffmpeg : FfmpegArgs -> gmap str Z -> bool * gmap str Z)
    (exe media : str) (s e pad : Z) (w w1 : World) (out : str) :
  make_snippet md5 dir ffmpeg exe media s e pad w = (Some out, w1) ->
  out = cache_file md5 dir media s e pad.
Proof.
  unfold make_snippet.
  destruct (match files w !! cache_file md5 dir media s e pad with
            | Some size => (1024 <? size)%Z | None => false end).
  - intros [= <- _]. reflexivity.
  - destruct (ffmpeg _ (files w)) as [ok files'].
    destruct ok; [|discriminate].
    destruct (files' !! cache_file md5 dir media s e pad); [|discriminate].
    intros [= <- _]. reflexivity.
Qed.

(** C9 (as amended). Calls with the same [(media, start, end, pad)] name the
    same cache file, and once a call has left there a file of more than
    1024 bytes, the next call returns that path and leaves the world as it
    is: no file changes and the transcoder is not run. *)
Theorem make_snippet_cache_hit (md5 : str -> str) (dir : str)
    (ffmpeg : FfmpegArgs -> gmap str Z -> bool * gmap str Z)
    (exe exe' media : str) (s e pad : Z) (w w1 : World) (out : str) (size : Z) :
  make_snippet md5 dir ffmpeg exe media s e pad w = (Some out, w1) ->
  files w1 !! out = Some size ->
  (1024 < size)%Z ->
  out = cache_file md5 dir media s e pad
  /\ make_snippet md5 dir ffmpeg exe' media s e pad w1 = (Some out, w1).
Proof.
  intros H1 Hf Hsz.
  pose proof (make_snippet_path _ _ _ _ _ _ _ _ _ _ _ H1) as ->.
  split; [reflexivity|].
  unfold make_snippet. rewrite Hf.
  destruct (Z.ltb_spec 1024 size); [reflexivity|lia].
Qed.

Lemma make_snippet_cache_hit_witness :
  lit "cache/k19.mp3"
  = cache_file Fixtures.toy_digest (lit "cache/") (lit "a.mkv") 1000 2000 400
  /\ make_snippet Fixtures.toy_digest (lit "cache/")
       (Fixtures.ffmpeg_writes 20000) (lit "ffmpeg") (lit "a.mkv")
       1000 2000 400
       {| files := {[ lit "cache/k19.mp3" := 20000%Z ]};
          transcoder_runs :=
            [{| arg_exe := lit "ffmpeg"; arg_ss_ms := 600;
                arg_input := lit "a.mkv"; arg_dur_ms := 1800;
                arg_output := lit "cache/k19.mp3" |}] |}
     = (Some (lit "cache/k19.mp3"),
        {| files := {[ lit "cache/k19.mp3" := 20000%Z ]};
           transcoder_runs :=
             [{| arg_exe := lit "ffmpeg"; arg_ss_ms := 600;
                 arg_input := lit "a.mkv"; arg_dur_ms := 1800;
                 arg_output := lit "cache/k19.mp3" |}] |}).
Proof.
  apply (make_snippet_cache_hit Fixtures.toy_digest (lit "cache/")
           (Fixtures.ffmpeg_writes 20000) (lit "ffmpeg") (lit "ffmpeg")
           (lit "a.mkv") 1000 2000 400 Fixtures.empty_world _ _ 20000).
  - vm_compute. reflexivity.
  - vm_compute. reflexivity.
  - lia.
Defined.

(** C9 (counterexample). A transcoder that exits with status 0 after
    writing 500 bytes: whatever the digest and the cache directory, the
    first call runs it and returns the cache file, and the second call,
    finding a file that is not larger than 1024 bytes, runs it again. *)
Lemma small_snippet_is_extracted_again :
  exists ffmpeg w0, forall (md5 : str -> str) (dir : str),
    exists out w1 w2 run,
      make_snippet md5 dir ffmpeg (lit "ffmpeg") (lit "a.mkv")
        1000 2000 400 w0 = (Some out, w1)
      /\ transcoder_runs w1 = [run]
      /\ make_snippet md5 dir ffmpeg (lit "ffmpeg") (lit "a.mkv")
           1000 2000 400 w1 = (Some out, w2)
      /\ transcoder_runs w2 = [run; run].
Proof.
  exists (Fixtures.ffmpeg_writes 500), Fixtures.empty_world.
  intros md5 dir.
  set (out := cache_file md5 dir (lit "a.mkv") 1000 2000 400).
  set (run := {| arg_exe := lit "ffmpeg"; arg_ss_ms := 600;
                 arg_input := lit "a.mkv"; arg_dur_ms := 1800;
                 arg_output := out |}).
  exists out, {| files := <[out := 500%Z]> ∅; transcoder_runs := [run] |},
         {| files := <[out := 500%Z]> (<[out := 500%Z]> ∅);
            transcoder_runs := [run; run] |}, run.
  unfold make_snippet, Fixtures.ffmpeg_writes, Fixtures.empty_world.
  cbn [files transcoder_runs arg_output].
  fold out. rewrite lookup_empty.
  cbn [app]. rewrite !lookup_insert_eq.
  repeat split; reflexivity.
Qed.

End SnippetProps.

(* ===================================================================== *)
(** ** Properties of the lyric parser *)
(* ===================================================================== *)

Module ParseMediaProps.
Import BuildIndex ParseMedia.

Example splitlines_ex :
  splitlines (lit "a" ++ [0x0D; 0x0A; 0x0A]%N ++ lit "b" ++ [0x0A]%N)
  = [lit "a"; []; lit "b"].
Proof. vm_compute. reflexivity. Qed.

Example finditer_ex :
  map (tag_start_ms Fixtures.ascii_digit_value)
      (finditer Fixtures.ascii_digit_value (lit "[00:01][1:02:5]x[123:00][00:1]"))
  = [1000%Z; 62500%Z]
  /\ sub_empty Fixtures.ascii_digit_value (lit "[00:01][1:02:5]x[123:00][00:1]")
     = lit "x[123:00][00:1]".
Proof. split; vm_compute; reflexivity. Qed.

(** Two tags on one line: two entries that share the text of the line,
    each with the other as its neighbour. *)
Example parse_lrc_two_tags_ex :
  map (fun e => (start_ms e, end_ms e, text e, context_prev e, context_next e))
      (parse_lrc Fixtures.inert_nfkc Fixtures.ascii_digit_value
         Fixtures.simple_stem (lit "a.lrc") (lit "[00:05][00:01.5] la "))
  = [(1500%Z, 4500%Z, lit "la", [], lit "la");
     (5000%Z, 8000%Z, lit "la", lit "la", [])].
Proof. vm_compute. reflexivity. Qed.

(** The text of the scenario, U+3053 U+3093 U+306B U+3061 U+306F. *)
Definition konnichiwa : str := [0x3053; 0x3093; 0x306B; 0x3061; 0x306F]%N.

(** The entry the scenario expects from the file at [path]. *)
Definition scenario_entry (stem : str -> str) (path : str) : Entry :=
  {| id := path ++ lit "|62500";
     media_type := lit "song";
     title := stem path;
     episode_or_track := [];
     media_path := [];
     source_path := path;
     start_ms := 62500;
     end_ms := 65500;
     text := konnichiwa;
     context_prev := [];
     context_next := [] |}.

(** The scenario: a lyric file that consists of the line [[01:02.50]]
    followed by the five hiragana is parsed into exactly one entry, with
    [start_ms = 62500], [end_ms = 65500] and the hiragana as text, by
    [parse_lrc] of [parse_media.py] and by that of [indexer_gui.py]. The
    digit table is only asked to read the ASCII digits as usual and not to
    take the closing bracket for a digit; NFKC is only asked to leave the
    hiragana unchanged. *)
Lemma parse_lrc_scenario (normalize_nfkc : str -> str)
    (digit_value : N -> option Z) (stem : str -> str) (path : str) :
  (forall c, (c < 0x80)%N ->
     digit_value c = Fixtures.ascii_digit_value c) ->
  normalize_nfkc konnichiwa = konnichiwa ->
  parse_lrc normalize_nfkc digit_value stem path
    (lit "[01:02.50]" ++ konnichiwa)
  = [scenario_entry stem path]
  /\ parse_lrc_gui normalize_nfkc digit_value stem path
       (lit "[01:02.50]" ++ konnichiwa)
     = [scenario_entry stem path].
Proof.
  intros Hd Hn.
  assert (H0 : digit_value 48%N = Some 0%Z) by (rewrite Hd; reflexivity).
  assert (H1 : digit_value 49%N = Some 1%Z) by (rewrite Hd; reflexivity).
  assert (H2 : digit_value 50%N = Some 2%Z) by (rewrite Hd; reflexivity).
  assert (H5 : digit_value 53%N = Some 5%Z) by (rewrite Hd; reflexivity).
  assert (Hb : digit_value 93%N = None) by (rewrite Hd; reflexivity).
  assert (Hscan : scan_time_tags digit_value (lit "[01:02.50]" ++ konnichiwa) 0
          = ([{| tag_mm := lit "01"; tag_ss := lit "02";
                 tag_frac := Some (lit "50"); tag_len := 10 |}], konnichiwa)).
  { repeat (vm_compute; rewrite ?H0, ?H1, ?H2, ?H5, ?Hb). reflexivity. }
  assert (Hms : tag_start_ms digit_value
                  {| tag_mm := lit "01"; tag_ss := lit "02";
                     tag_frac := Some (lit "50"); tag_len := 10 |} = 62500%Z).
  { repeat (vm_compute; rewrite ?H0, ?H1, ?H2, ?H5, ?Hb). reflexivity. }
  assert (Hline : forall clean, clean konnichiwa = konnichiwa ->
            parse_lrc_with digit_value stem clean path
              (lit "[01:02.50]" ++ konnichiwa)
            = [scenario_entry stem path]).
  { intros clean Hc. unfold parse_lrc_with.
    replace (splitlines (lit "[01:02.50]" ++ konnichiwa))
      with [lit "[01:02.50]" ++ konnichiwa] by (vm_compute; reflexivity).
    cbn [flat_map app]. unfold line_entries, finditer, sub_empty.
    rewrite Hscan. cbn [fst snd].
    replace (strip konnichiwa) with konnichiwa by (vm_compute; reflexivity).
    rewrite Hc. unfold konnichiwa at 1. cbn [map]. rewrite Hms.
    reflexivity. }
  split.
  - apply Hline. unfold nfkc. rewrite Hn. vm_compute. reflexivity.
  - apply Hline. unfold jp_clean, nfkc. rewrite Hn. vm_compute. reflexivity.
Qed.

End ParseMediaProps.

(* ===================================================================== *)
(** ** Properties of the highlighter *)
(* ===================================================================== *)

Module HighlightProps.
Import Highlight.

Example subtract_intervals_ex :
  subtract_intervals (0, 10) [(2, 4); (6, 12)] = [(0, 2); (4, 6)]
  /\ subtract_intervals (3, 5) [(0, 9); (20, 30)] = [].
Proof. split; vm_compute; reflexivity. Qed.

Example find_phrase_ranges_ex :
  find_phrase_ranges (lit "aaaa-abab") [lit "aa"; lit "ab"; []; lit "a-"]
  = [(0, 9)]
  /\ find_phrase_ranges (lit "xaaax-ab") [lit "ab"; lit "aa"] = [(1, 3); (6, 8)].
Proof. split; vm_compute; reflexivity. Qed.

(** The text U+98DF U+3079 U+308B against a surface set that holds it and
    no phrase: one token range over the whole text. *)
Example highlight_whole_token_ex :
  highlight_spans Fixtures.whole_tokenizer [0x98DF; 0x3079; 0x308B]%N []
    {[ [0x98DF; 0x3079; 0x308B]%N ]} ∅
  = [(0, 3, token)].
Proof. vm_compute. reflexivity. Qed.

Example build_highlight_html_ex :
  build_highlight_html Fixtures.char_tokenizer (lit "a<b") [] {[ lit "b" ]} ∅
  = lit "a&lt;<span style=" ++ [0x22%N] ++ HIGHLIGHT_TOKEN_STYLE ++ [0x22%N]
    ++ lit ">b</span>".
Proof. vm_compute. reflexivity. Qed.

Example highlight_spans_ex :
  highlight_spans Fixtures.char_tokenizer (lit "abcdef") [lit "cd"]
    {[ lit "a"; lit "b"; lit "c"; lit "f" ]} ∅
  = [(0, 2, token); (2, 4, phrase); (5, 6, token)].
Proof. vm_compute. reflexivity. Qed.

(** *** Positions *)

(** The offset [i] lies in the range [r]. *)
Definition covers (r : Range) (i : nat) : Prop := fst r <= i < snd r.

Definition covered_by (l : list Range) (i : nat) : Prop :=
  exists r, In r l /\ covers r i.

(** The offset [i] lies in a range of [l] labeled [t]. *)
Definition covered_as (l : list Labeled) (t : Label) (i : nat) : Prop :=
  exists s e, In (s, e, t) l /\ s <= i < e.

(** Two ranges that share no offset. *)
Definition apart (a b : Range) : Prop := snd a <= fst b \/ snd b <= fst a.

Lemma apart_of_no_common_offset (a b : Range) :
  fst a < snd a -> fst b < snd b ->
  (forall i, covers a i -> ~ covers b i) -> apart a b.
Proof.
  destruct a as [x y], b as [u v]. unfold apart, covers. simpl.
  intros Ha Hb H.
  destruct (Nat.le_gt_cases y u) as [|Hyu]; [left; assumption|].
  destruct (Nat.le_gt_cases v x) as [|Hvx]; [right; assumption|].
  exfalso. apply (H (Nat.max x u)); simpl; lia.
Qed.

(** *** Interval subtraction *)

Lemma cut_segment_covers (b seg : Range) (i : nat) :
  covered_by (cut_segment b seg) i <-> covers seg i /\ ~ covers b i.
Proof.
  destruct b as [bs_s bs_e], seg as [x y].
  unfold covered_by, cut_segment, covers. cbn [fst snd]. split.
  - intros [[u v] [Hin Hc]]. cbn [fst snd] in Hc.
    destruct (Nat.leb_spec bs_e x); destruct (Nat.leb_spec y bs_s);
      destruct (Nat.ltb_spec x bs_s); destruct (Nat.ltb_spec bs_e y);
      cbn [orb app] in Hin; simpl in Hin;
      repeat (destruct Hin as [Hin | Hin]; [injection Hin as <- <-; lia|]);
      contradiction.
  - intros [Hseg Hb].
    destruct (Nat.leb_spec bs_e x); destruct (Nat.leb_spec y bs_s);
      destruct (Nat.ltb_spec x bs_s); destruct (Nat.ltb_spec bs_e y);
      destruct (Nat.lt_ge_cases i bs_s);
      cbn [orb app];
      first
        [ exists (x, y); split; [simpl; solve [auto]|simpl; lia]
        | exists (x, bs_s); split; [simpl; solve [auto]|simpl; lia]
        | exists (bs_e, y); split; [simpl; solve [auto]|simpl; lia]
        | exfalso; lia ].
Qed.

Lemma flat_map_cut_covers (b : Range) (segs : list Range) (i : nat) :
  covered_by (flat_map (cut_segment b) segs) i
  <-> covered_by segs i /\ ~ covers b i.
Proof.
  unfold covered_by at 1 2. split.
  - intros [r [Hin Hc]]. apply in_flat_map in Hin.
    destruct Hin as [seg [Hseg Hr]].
    destruct (proj1 (cut_segment_covers b seg i)) as [H1 H2].
    { exists r. auto. }
    split; [exists seg; auto|exact H2].
  - intros [[seg [Hseg Hc]] Hb].
    destruct (proj2 (cut_segment_covers b seg i)) as [r [Hr Hc']]; [auto|].
    exists r. split; [|exact Hc']. apply in_flat_map. exists seg. auto.
Qed.

Lemma subtract_loop_covers (bs segs : list Range) (i : nat) :
  covered_by (subtract_loop segs bs) i
  <-> covered_by segs i /\ forall b, In b bs -> ~ covers b i.
Proof.
  revert segs. induction bs as [|b bs IH]; intros segs; simpl.
  - split; [intros H; split; [exact H|intros b []]|intros [H _]; exact H].
  - pose proof (flat_map_cut_covers b segs i) as Hcut.
    destruct (flat_map (cut_segment b) segs) as [|seg new] eqn:E.
    + split.
      * intros [r [[] _]].
      * intros [Hs Hb]. apply Hcut. split; [exact Hs|]. apply Hb. auto.
    + rewrite IH, Hcut. split.
      * intros [[Hs Hb] Hbs]. split; [exact Hs|].
        intros b' [<- | Hb']; auto.
      * intros [Hs Hbs]. split; [split|]; auto.
Qed.

(** The pieces of [subtract_intervals(a, bs)] hold exactly the offsets of
    [a] that lie in no range of [bs]. *)
Lemma subtract_intervals_covers (a : Range) (bs : list Range) (i : nat) :
  covered_by (subtract_intervals a bs) i
  <-> covers a i /\ forall b, In b bs -> ~ covers b i.
Proof.
  unfold subtract_intervals. split.
  - intros [r [Hin Hc]]. apply filter_In in Hin.
    destruct (proj1 (subtract_loop_covers bs [a] i)) as [[a' [Ha Hca]] Hbs].
    { exists r. tauto. }
    split; [|exact Hbs]. destruct Ha as [<- | []]. exact Hca.
  - intros [Hca Hbs].
    destruct (proj2 (subtract_loop_covers bs [a] i)) as [r [Hr Hc]].
    { split; [exists a; simpl; auto|exact Hbs]. }
    exists r. split; [|exact Hc]. apply filter_In. split; [exact Hr|].
    destruct r as [x y]. unfold covers in Hc. simpl in Hc.
    apply Nat.ltb_lt. lia.
Qed.

Lemma subtract_intervals_nonempty (a : Range) (bs : list Range) (r : Range) :
  In r (subtract_intervals a bs) -> fst r < snd r.
Proof.
  unfold subtract_intervals. intros H. apply filter_In in H.
  destruct H as [_ H]. destruct r as [x y]. simpl. apply Nat.ltb_lt, H.
Qed.

Lemma subtract_intervals_inside (a : Range) (bs : list Range) (r : Range) :
  In r (subtract_intervals a bs) -> fst a <= fst r /\ snd r <= snd a.
Proof.
  intros H. pose proof (subtract_intervals_nonempty _ _ _ H) as Hne.
  assert (H1 : covered_by (subtract_intervals a bs) (fst r)).
  { exists r. unfold covers. split; [exact H|lia]. }
  assert (H2 : covered_by (subtract_intervals a bs) (snd r - 1)).
  { exists r. unfold covers. split; [exact H|lia]. }
  apply subtract_intervals_covers in H1, H2.
  destruct H1 as [H1 _], H2 as [H2 _]. unfold covers in H1, H2. lia.
Qed.

Lemma subtract_intervals_apart (a : Range) (bs : list Range) (r b : Range) :
  In r (subtract_intervals a bs) -> In b bs -> fst b < snd b -> apart r b.
Proof.
  intros H Hb Hne.
  apply apart_of_no_common_offset;
    [exact (subtract_intervals_nonempty _ _ _ H)|exact Hne|].
  intros i Hc.
  assert (H1 : covered_by (subtract_intervals a bs) i) by (exists r; auto).
  apply subtract_intervals_covers in H1. destruct H1 as [_ H1]. auto.
Qed.

(** *** Phrase ranges *)

(** [p] occurs in [text] at offset [k]. *)
Definition occurs_at (text p : str) (k : nat) : Prop :=
  exists pre post, text = pre ++ p ++ post /\ length pre = k.

(** The offset [i] lies inside an occurrence in [text] of one of the
    non-empty phrases. *)
Definition phrase_match_position (text : str) (phrases : list str) (i : nat)
    : Prop :=
  exists p k, In p phrases /\ p <> [] /\ occurs_at text p k
              /\ k <= i < k + length p.

Lemma occurs_at_bound (text p : str) (k : nat) :
  occurs_at text p k -> k + length p <= length text.
Proof.
  intros [pre [post [-> <-]]]. rewrite !length_app. lia.
Qed.

Lemma occurrences_spec (fuel : nat) (text p : str) (start : nat) (r : Range) :
  In r (occurrences fuel text p start) ->
  occurs_at text p (fst r) /\ snd r = fst r + length p.
Proof.
  revert start. induction fuel as [|fuel IH]; intros start; simpl; [intros []|].
  destruct (find text p start) as [i|] eqn:E; [|intros []].
  intros [<- | H]; [|exact (IH _ H)].
  apply PyStrFacts.find_spec in E. destruct E as [_ E]. split; [exact E|reflexivity].
Qed.

(** The loop over the occurrences of a non-empty phrase ends within
    [length text + 1 - start] iterations: any fuel above that gives the
    same list. *)
Lemma occurrences_fuel (text p : str) (f1 f2 start : nat) :
  p <> [] ->
  length text < start + f1 -> length text < start + f2 ->
  occurrences f1 text p start = occurrences f2 text p start.
Proof.
  intros Hp. revert f2 start.
  induction f1 as [|f1 IH]; intros f2 start H1 H2.
  - destruct f2; simpl; [reflexivity|].
    rewrite PyStrFacts.find_past_end by lia. reflexivity.
  - destruct f2; simpl.
    + rewrite PyStrFacts.find_past_end by lia. reflexivity.
    + destruct (find text p start) as [i|] eqn:E; [|reflexivity].
      apply PyStrFacts.find_spec in E. destruct E as [Hi _].
      assert (0 < length p) by (destruct p; [congruence|simpl; lia]).
      f_equal. apply IH; lia.
Qed.

(** In particular the fuel [find_phrase_ranges] passes is enough. *)
Lemma occurrences_enough (text p : str) (fuel : nat) :
  p <> [] -> length text < fuel ->
  occurrences fuel text p 0 = occurrences (S (length text)) text p 0.
Proof. intros Hp Hf. apply occurrences_fuel; [exact Hp|lia|lia]. Qed.

Lemma last_view {A} (l : list A) :
  (l = [] /\ last l = None)
  \/ exists init x, l = init ++ [x] /\ last l = Some x /\ removelast l = init.
Proof.
  destruct (last l) as [x|] eqn:E.
  - right. apply last_Some in E. destruct E as [init ->].
    exists init, x. split; [reflexivity|]. split; [reflexivity|].
    apply removelast_last.
  - left. apply last_None in E. auto.
Qed.

Lemma merge_step_In (merged : list Range) (r r' : Range) :
  In r' (merge_step merged r) ->
  In r' merged \/ r' = r
  \/ exists l, In l merged /\ fst r <= snd l
               /\ r' = (fst l, Nat.max (snd l) (snd r)).
Proof.
  destruct r as [s e]. unfold merge_step.
  destruct (last_view merged) as [[-> ->] | [init [[ls le] [-> [-> ->]]]]].
  - simpl. intros [<- | []]. auto.
  - destruct (Nat.ltb_spec le s) as [Hlt|Hge].
    + intros H. apply in_app_or in H. destruct H as [H | [<- | []]]; auto.
    + intros H. apply in_app_or in H. destruct H as [H | [<- | []]].
      * left. apply in_or_app. auto.
      * right. right. exists (ls, le). cbn [fst snd].
        split; [apply in_or_app; simpl; auto|]. split; [lia|reflexivity].
Qed.

Lemma merged_ranges_good (n : nat) (l : list Range) (r : Range) :
  (forall x, In x l -> fst x < snd x <= n) ->
  In r (fold_left merge_step l []) -> fst r < snd r <= n.
Proof.
  intros Hl. revert r.
  apply (PyStrFacts.fold_left_invariant merge_step
           (fun acc => forall r, In r acc -> fst r < snd r <= n)).
  - intros r [].
  - intros acc x Hx Hacc r Hr. apply merge_step_In in Hr.
    destruct Hr as [Hr | [-> | [lst [Hlst [_ ->]]]]]; auto.
    specialize (Hacc _ Hlst). specialize (Hl _ Hx). cbn [fst snd]. lia.
Qed.

Lemma merged_ranges_covers (l : list Range) (r : Range) (i : nat) :
  In r (fold_left merge_step l []) -> covers r i -> covered_by l i.
Proof.
  revert r i.
  apply (PyStrFacts.fold_left_invariant merge_step
           (fun acc => forall r i, In r acc -> covers r i -> covered_by l i)).
  - intros r i [].
  - intros acc x Hx Hacc r i Hr Hc. apply merge_step_In in Hr.
    destruct Hr as [Hr | [-> | [lst [Hlst [Hle ->]]]]].
    + eauto.
    + exists x. auto.
    + unfold covers in Hc. cbn [fst snd] in Hc.
      destruct (Nat.lt_ge_cases i (snd lst)).
      * apply (Hacc lst i Hlst). unfold covers. lia.
      * exists x. split; [exact Hx|]. unfold covers. lia.
Qed.

Lemma all_occurrences_spec (text : str) (phrases : list str) (r : Range) :
  In r (flat_map (fun p => match p with
                           | [] => []
                           | _ => occurrences (S (length text)) text p 0
                           end) phrases) ->
  exists p, In p phrases /\ p <> [] /\ occurs_at text p (fst r)
            /\ snd r = fst r + length p.
Proof.
  intros H. apply in_flat_map in H. destruct H as [p [Hp Hr]].
  destruct p as [|c p]; [destruct Hr|].
  apply occurrences_spec in Hr. exists (c :: p). intuition congruence.
Qed.

(** Every range of [find_phrase_ranges] is non-empty and lies within the
    text. *)
Lemma find_phrase_ranges_good (text : str) (phrases : list str) (r : Range) :
  In r (find_phrase_ranges text phrases) -> fst r < snd r <= length text.
Proof.
  unfold find_phrase_ranges. apply merged_ranges_good.
  intros x Hx. apply PyStrFacts.sort_In in Hx.
  apply all_occurrences_spec in Hx.
  destruct Hx as [p [_ [Hne [Hocc ->]]]].
  apply occurs_at_bound in Hocc.
  assert (0 < length p) by (destruct p; [congruence|simpl; lia]). lia.
Qed.

(** Every offset of a range of [find_phrase_ranges] lies in an occurrence
    of a phrase. *)
Lemma find_phrase_ranges_covers (text : str) (phrases : list str)
    (r : Range) (i : nat) :
  In r (find_phrase_ranges text phrases) -> covers r i ->
  phrase_match_position text phrases i.
Proof.
  unfold find_phrase_ranges. intros Hr Hc.
  destruct (merged_ranges_covers _ _ _ Hr Hc) as [x [Hx Hcx]].
  apply PyStrFacts.sort_In in Hx. apply all_occurrences_spec in Hx.
  destruct Hx as [p [Hp [Hne [Hocc Hend]]]].
  exists p, (fst x). unfold covers in Hcx. rewrite Hend in Hcx. auto.
Qed.

(** *** The loop that builds [out] *)

Lemma label_eqb_eq (a b : Label) : label_eqb a b = true <-> a = b.
Proof. destruct a, b; simpl; split; congruence. Qed.

Lemma StronglySorted_snoc {A} (R : A -> A -> Prop) (l : list A) (x : A) :
  StronglySorted R (l ++ [x])
  <-> StronglySorted R l /\ (forall a, In a l -> R a x).
Proof.
  induction l as [|y l IH]; simpl.
  - split; [intros _; split; [constructor|intros a []]|].
    intros _. constructor; constructor.
  - split.
    + intros H. inversion H as [|? ? Hl Hy]; subst.
      apply IH in Hl. destruct Hl as [Hl Hx].
      rewrite List.Forall_forall in Hy. split.
      * constructor; [exact Hl|]. rewrite List.Forall_forall.
        intros a Ha. apply Hy, in_or_app. auto.
      * intros a [<- | Ha]; [apply Hy, in_or_app; simpl; auto|auto].
    + intros [H Hx]. inversion H as [|? ? Hl Hy]; subst.
      rewrite List.Forall_forall in Hy.
      constructor; [apply IH; auto|]. rewrite List.Forall_forall.
      intros a Ha. apply in_app_or in Ha. destruct Ha as [Ha | [<- | []]]; auto.
Qed.

(** Where an element of [emit out x] comes from: [out], [x] itself, or the
    last element of [out] extended by [x]. *)
Lemma emit_In (out : list Labeled) (s e : nat) (t : Label) (r : Labeled) :
  In r (emit out (s, e, t)) ->
  In r out \/ r = (s, e, t)
  \/ exists ls le, In (ls, le, t) out /\ s <= le
                   /\ r = (ls, Nat.max le e, t).
Proof.
  unfold emit.
  match goal with
  | |- In r (if ?c then _ else _) -> _ => destruct c; [auto|]
  end.
  destruct (last_view out) as [[-> ->] | [init [[[ls le] lt] [-> [-> ->]]]]].
  - simpl. intros [<- | []]. auto.
  - destruct (label_eqb lt t) eqn:El; cbn [andb].
    + apply label_eqb_eq in El. subst lt.
      destruct (Nat.leb_spec s le) as [Hle|Hgt].
      * intros H. apply in_app_or in H. destruct H as [H | [<- | []]].
        -- left. apply in_or_app. auto.
        -- right. right. exists ls, le.
           split; [apply in_or_app; simpl; auto|]. split; [lia|reflexivity].
      * intros H. apply in_app_or in H. destruct H as [H | [<- | []]]; auto.
    + intros H. apply in_app_or in H. destruct H as [H | [<- | []]]; auto.
Qed.

(** Every offset of an emitted range lies in a range of the same label
    that was fed to the loop. *)
Lemma resolve_covers (l : list Labeled) (t : Label) (i : nat) :
  covered_as (fold_left emit l []) t i -> covered_as l t i.
Proof.
  apply (PyStrFacts.fold_left_invariant emit
           (fun acc => covered_as acc t i -> covered_as l t i)).
  - intros [s [e [[] _]]].
  - intros acc [[s e] t'] Hx Hacc [s' [e' [Hin Hc]]].
    apply emit_In in Hin.
    destruct Hin as [Hin | [Heq | [ls [le [Hlst [Hle Heq]]]]]].
    + apply Hacc. exists s', e'. auto.
    + injection Heq as -> -> ->. exists s, e. auto.
    + injection Heq as -> -> ->.
      destruct (Nat.lt_ge_cases i le).
      * apply Hacc. exists ls, le. split; [exact Hlst|lia].
      * exists s, e. split; [exact Hx|lia].
Qed.

(** Emitted ranges are non-empty and end where the ranges fed to the loop
    end at the latest. *)
Lemma resolve_good (n : nat) (l : list Labeled) (s e : nat) (t : Label) :
  (forall s e t, In (s, e, t) l -> s < e <= n) ->
  In (s, e, t) (fold_left emit l []) -> s < e <= n.
Proof.
  intros Hl. revert s e t.
  apply (PyStrFacts.fold_left_invariant emit
           (fun acc => forall s e t, In (s, e, t) acc -> s < e <= n)).
  - intros s e t [].
  - intros acc [[s e] t] Hx Hacc s' e' t' Hin.
    apply emit_In in Hin.
    destruct Hin as [Hin | [Heq | [ls [le [Hlst [Hle Heq]]]]]].
    + eauto.
    + injection Heq as -> -> ->. eauto.
    + injection Heq as -> -> ->.
      specialize (Hacc _ _ _ Hlst). specialize (Hl _ _ _ Hx). lia.
Qed.

(** The emitted ranges are in order and share no offset: each ends where
    the next begins at the latest. *)
Definition ordered (out : list Labeled) : Prop :=
  StronglySorted (fun a b : Labeled => snd (fst a) <= fst (fst b)) out.

Section Resolve.
(** The labeled ranges fed to the loop: non-empty, and a range shares no
    offset with a range of the other label. *)
Variable all : list Labeled.
Hypothesis all_nonempty : forall s e t, In (s, e, t) all -> s < e.
Hypothesis all_cross :
  forall s e t s' e' t',
    In (s, e, t) all -> In (s', e', t') all -> t <> t' -> e <= s' \/ e' <= s.

(** The invariant of the loop, [out] being what was emitted so far and
    [rest] what is still to be read. *)
Definition Inv (out rest : list Labeled) : Prop :=
  (forall s e t, In (s, e, t) out -> s < e)
  /\ ordered out
  /\ (forall s e t s' e' t',
        In (s, e, t) out -> In (s', e', t') rest -> s <= s')
  /\ (forall s e t s' e' t',
        In (s, e, t) out -> In (s', e', t') all -> t <> t' ->
        e <= s' \/ e' <= s).

(** A token range read by the loop never overlaps an emitted phrase range:
    the test that would skip it is always false. *)
Lemma emit_never_skips (out rest : list Labeled) (s e : nat) (t : Label) :
  Inv out ((s, e, t) :: rest) -> In (s, e, t) all ->
  is_token t
  && existsb (fun '(ps, pe, pt) =>
                label_eqb pt phrase && negb ((e <=? ps) || (pe <=? s))) out
  = false.
Proof.
  intros [_ [_ [_ Hcross]]] Hin.
  destruct t; [reflexivity|]. cbn [is_token label_eqb andb].
  match goal with |- ?b = false => destruct b eqn:E; [|reflexivity] end.
  apply existsb_exists in E. destruct E as [[[ps pe] pt] [Hp Hc]].
  apply andb_true_iff in Hc. destruct Hc as [Hl Hov].
  apply label_eqb_eq in Hl. subst pt.
  apply negb_true_iff, orb_false_iff in Hov. destruct Hov as [H1 H2].
  apply Nat.leb_gt in H1, H2.
  destruct (Hcross _ _ _ _ _ _ Hp Hin ltac:(discriminate)); lia.
Qed.

(** The three ways a step of the loop goes, once the range is not skipped. *)
Lemma emit_cases (out rest : list Labeled) (s e : nat) (t : Label) :
  Inv out ((s, e, t) :: rest) -> In (s, e, t) all ->
  (out = [] /\ emit out (s, e, t) = [(s, e, t)])
  \/ (exists init ls le,
        out = init ++ [(ls, le, t)] /\ s <= le
        /\ emit out (s, e, t) = init ++ [(ls, Nat.max le e, t)])
  \/ (exists init ls le lt,
        out = init ++ [(ls, le, lt)] /\ (lt <> t \/ le < s)
        /\ emit out (s, e, t) = out ++ [(s, e, t)]).
Proof.
  intros HI Hin. unfold emit. rewrite (emit_never_skips _ _ _ _ _ HI Hin).
  destruct (last_view out) as [[-> ->] | [init [[[ls le] lt] [-> [-> ->]]]]].
  - left. auto.
  - destruct (label_eqb lt t) eqn:El; cbn [andb].
    + apply label_eqb_eq in El. subst lt.
      destruct (Nat.leb_spec s le) as [Hle|Hgt].
      * right. left. exists init, ls, le. auto.
      * right. right. exists init, ls, le, t. auto.
    + right. right. exists init, ls, le, lt. split; [reflexivity|].
      split; [|reflexivity]. left. intros ->.
      rewrite (proj2 (label_eqb_eq t t) eq_refl) in El. discriminate.
Qed.

Lemma emit_inv (out rest : list Labeled) (s e : nat) (t : Label) :
  Inv out ((s, e, t) :: rest) -> In (s, e, t) all ->
  (forall s' e' t', In (s', e', t') rest -> s <= s') ->
  Inv (emit out (s, e, t)) rest.
Proof.
  intros HI Hin Hsorted.
  pose proof (all_nonempty _ _ _ Hin) as Hne.
  destruct (emit_cases _ _ _ _ _ HI Hin)
    as [[-> ->] | [[init [ls [le [-> [Hle ->]]]]]
                  | [init [ls [le [lt [-> [Hnew ->]]]]]]]];
    destruct HI as [Hnon [Hord [Hbefore Hcross]]].
  - (* first range *)
    split; [|split; [|split]].
    + intros s' e' t' [[= <- <- <-] | []]. exact Hne.
    + constructor; constructor.
    + intros s1 e1 t1 s2 e2 t2 [[= <- <- <-] | []] H2. eauto.
    + intros s1 e1 t1 s2 e2 t2 [[= <- <- <-] | []] H2 Hd. eauto.
  - (* the last range is extended *)
    assert (Hlast : In (ls, le, t) (init ++ [(ls, le, t)]))
      by (apply in_or_app; simpl; auto).
    pose proof (Hnon _ _ _ Hlast) as Hlne.
    pose proof (Hbefore _ _ _ s e t Hlast ltac:(simpl; auto)) as Hls.
    apply StronglySorted_snoc in Hord. destruct Hord as [Hord Hinit].
    split; [|split; [|split]].
    + intros s' e' t' H. apply in_app_or in H.
      destruct H as [H | [[= <- <- <-] | []]]; [|lia].
      apply (Hnon s' e' t'), in_or_app. auto.
    + apply StronglySorted_snoc. split; [exact Hord|].
      intros a Ha. apply (Hinit a Ha).
    + intros s1 e1 t1 s2 e2 t2 H1 H2. apply in_app_or in H1.
      destruct H1 as [H1 | [[= <- <- <-] | []]].
      * apply (Hbefore s1 e1 t1 s2 e2 t2); [apply in_or_app|simpl]; auto.
      * pose proof (Hsorted _ _ _ H2). lia.
    + intros s1 e1 t1 s2 e2 t2 H1 H2 Hd. apply in_app_or in H1.
      destruct H1 as [H1 | [[= <- <- <-] | []]].
      * apply (Hcross s1 e1 t1 s2 e2 t2); [apply in_or_app| |]; auto.
      * pose proof (Hcross _ _ _ _ _ _ Hlast H2 Hd).
        pose proof (all_cross _ _ _ _ _ _ Hin H2 Hd).
        pose proof (all_nonempty _ _ _ H2). lia.
  - (* the range is appended *)
    assert (Hlast : In (ls, le, lt) (init ++ [(ls, le, lt)]))
      by (apply in_or_app; simpl; auto).
    pose proof (Hnon _ _ _ Hlast) as Hlne.
    pose proof (Hbefore _ _ _ s e t Hlast ltac:(simpl; auto)) as Hls.
    assert (Hles : le <= s).
    { destruct Hnew as [Hd | Hlt]; [|lia].
      destruct (Hcross _ _ _ _ _ _ Hlast Hin Hd); lia. }
    split; [|split; [|split]].
    + intros s' e' t' H. apply in_app_or in H.
      destruct H as [H | [[= <- <- <-] | []]]; [eauto|exact Hne].
    + apply StronglySorted_snoc. split; [exact Hord|].
      apply StronglySorted_snoc in Hord. destruct Hord as [_ Hinit].
      intros a Ha. apply in_app_or in Ha. cbn [fst snd].
      destruct Ha as [Ha | [<- | []]]; [|cbn [fst snd]; lia].
      specialize (Hinit a Ha). cbn [fst snd] in Hinit. lia.
    + intros s1 e1 t1 s2 e2 t2 H1 H2. apply in_app_or in H1.
      destruct H1 as [H1 | [[= <- <- <-] | []]].
      * apply (Hbefore s1 e1 t1 s2 e2 t2); [|simpl]; auto.
      * eauto.
    + intros s1 e1 t1 s2 e2 t2 H1 H2 Hd. apply in_app_or in H1.
      destruct H1 as [H1 | [[= <- <- <-] | []]]; eauto.
Qed.

(** What a step of the loop emits covers what was covered before and the
    range it reads. *)
Lemma emit_covered (out rest : list Labeled) (s e : nat) (t t' : Label)
    (i : nat) :
  Inv out ((s, e, t) :: rest) -> In (s, e, t) all ->
  covered_as out t' i \/ (t' = t /\ s <= i < e) ->
  covered_as (emit out (s, e, t)) t' i.
Proof.
  intros HI Hin Hc.
  destruct (emit_cases _ _ _ _ _ HI Hin)
    as [[-> ->] | [[init [ls [le [-> [Hle ->]]]]]
                  | [init [ls [le [lt [-> [Hnew ->]]]]]]]];
    destruct HI as [Hnon [Hord [Hbefore Hcross]]].
  - destruct Hc as [[s1 [e1 [[] _]]] | [-> Hi]].
    exists s, e. simpl. auto.
  - assert (Hlast : In (ls, le, t) (init ++ [(ls, le, t)]))
      by (apply in_or_app; simpl; auto).
    pose proof (Hbefore _ _ _ s e t Hlast ltac:(simpl; auto)) as Hls.
    destruct Hc as [[s1 [e1 [H1 Hi]]] | [-> Hi]].
    + apply in_app_or in H1. destruct H1 as [H1 | [[= <- <- <-] | []]].
      * exists s1, e1. split; [apply in_or_app; auto|exact Hi].
      * exists ls, (Nat.max le e).
        split; [apply in_or_app; simpl; auto|lia].
    + exists ls, (Nat.max le e). split; [apply in_or_app; simpl; auto|lia].
  - destruct Hc as [[s1 [e1 [H1 Hi]]] | [-> Hi]].
    + exists s1, e1. split; [apply in_or_app; auto|exact Hi].
    + exists s, e. split; [apply in_or_app; simpl; auto|exact Hi].
Qed.

(** The loop, run on ranges sorted by start. *)
Lemma resolve_inv (rest out : list Labeled) :
  (forall x, In x rest -> In x all) ->
  StronglySorted (fun a b : Labeled => fst (fst a) <= fst (fst b)) rest ->
  Inv out rest ->
  Inv (fold_left emit rest out) []
  /\ forall t i,
       covered_as out t i \/ covered_as rest t i ->
       covered_as (fold_left emit rest out) t i.
Proof.
  revert out. induction rest as [|[[s e] t] rest IH]; intros out Hall Hs HI.
  - simpl. split; [exact HI|].
    intros t i [H | [s [e [[] _]]]]. exact H.
  - inversion Hs as [|? ? Hs' Hfirst]; subst.
    rewrite List.Forall_forall in Hfirst.
    assert (Hin : In (s, e, t) all) by (apply Hall; simpl; auto).
    assert (Hsorted : forall s' e' t', In (s', e', t') rest -> s <= s').
    { intros s' e' t' H. apply (Hfirst _ H). }
    destruct (IH (emit out (s, e, t))) as [HI' Hcov].
    + intros x Hx. apply Hall. simpl. auto.
    + exact Hs'.
    + apply emit_inv; assumption.
    + cbn [fold_left]. split; [exact HI'|].
      intros t' i Hc. apply Hcov.
      destruct Hc as [Hc | [s1 [e1 [[[= <- <- <-] | H1] Hi]]]].
      * left. apply (emit_covered out rest); auto.
      * left. apply (emit_covered out rest); auto.
      * right. exists s1, e1. auto.
Qed.
End Resolve.

(** *** The highlighter as a whole *)

Lemma labeled_leb_total (a b : Labeled) :
  labeled_leb a b = true \/ labeled_leb b a = true.
Proof.
  destruct a as [[s1 e1] t1], b as [[s2 e2] t2]. unfold labeled_leb.
  destruct (Nat.ltb_spec s1 s2); destruct (Nat.ltb_spec s2 s1);
    destruct (Nat.eqb_spec s1 s2); destruct (Nat.eqb_spec s2 s1);
    destruct t1, t2; simpl; auto; lia.
Qed.

Lemma labeled_leb_trans (a b c : Labeled) :
  labeled_leb a b = true -> labeled_leb b c = true -> labeled_leb a c = true.
Proof.
  destruct a as [[s1 e1] t1], b as [[s2 e2] t2], c as [[s3 e3] t3].
  unfold labeled_leb.
  destruct (Nat.ltb_spec s1 s2); destruct (Nat.ltb_spec s2 s3);
    destruct (Nat.ltb_spec s1 s3);
    destruct (Nat.eqb_spec s1 s2); destruct (Nat.eqb_spec s2 s3);
    destruct (Nat.eqb_spec s1 s3);
    destruct t1, t2, t3; simpl; auto; lia.
Qed.

Lemma labeled_leb_start (a b : Labeled) :
  labeled_leb a b = true -> fst (fst a) <= fst (fst b).
Proof.
  destruct a as [[s1 e1] t1], b as [[s2 e2] t2]. unfold labeled_leb.
  destruct (Nat.ltb_spec s1 s2); destruct (Nat.eqb_spec s1 s2);
    simpl; intros; try lia; discriminate.
Qed.

Lemma StronglySorted_weaken {A} (R Q : A -> A -> Prop) (l : list A) :
  (forall a b, R a b -> Q a b) -> StronglySorted R l -> StronglySorted Q l.
Proof.
  intros HRQ. induction 1 as [|a l Hl IH Ha]; constructor; [exact IH|].
  rewrite List.Forall_forall in Ha |- *. auto.
Qed.

Lemma StronglySorted_lookup {A} (R : A -> A -> Prop) (l : list A)
    (j k : nat) (a b : A) :
  StronglySorted R l -> j < k -> l !! j = Some a -> l !! k = Some b -> R a b.
Proof.
  intros Hs. revert j k. induction Hs as [|x l Hl IH Hx]; intros j k Hjk Hj Hk.
  - discriminate.
  - destruct k as [|k]; [lia|]. destruct j as [|j]; simpl in Hj, Hk.
    + injection Hj as ->. rewrite List.Forall_forall in Hx.
      apply Hx. apply list_elem_of_In, list_elem_of_lookup. eauto.
    + apply (IH j k); [lia|assumption|assumption].
Qed.

Section Spans.
Variable tokenize : str -> list Morpheme.
Variables (text : str) (phrases : list str) (surf_qset read_qset : gset str).

(** The labeled ranges handed to the sort. *)
Definition labeled_ranges : list Labeled :=
  map (fun '(s, e) => (s, e, phrase)) (find_phrase_ranges text phrases)
  ++ map (fun '(s, e) => (s, e, token))
       (token_ranges tokenize text (find_phrase_ranges text phrases)
          surf_qset read_qset).

Lemma labeled_phrase (s e : nat) :
  In (s, e, phrase) labeled_ranges
  <-> In (s, e) (find_phrase_ranges text phrases).
Proof.
  unfold labeled_ranges. rewrite in_app_iff, !in_map_iff. split.
  - intros [[[s' e'] [[= -> ->] H]] | [[s' e'] [[=] _]]]. exact H.
  - intros H. left. exists (s, e). auto.
Qed.

Lemma labeled_token (s e : nat) :
  In (s, e, token) labeled_ranges
  <-> exists m, In m (tokenize text)
        /\ is_query_token surf_qset read_qset m = true
        /\ In (s, e) (subtract_intervals (m_begin m, m_end m)
                        (find_phrase_ranges text phrases)).
Proof.
  unfold labeled_ranges, token_ranges.
  rewrite in_app_iff, !in_map_iff. split.
  - intros [[[s' e'] [[=] _]] | [[s' e'] [[= -> ->] H]]].
    apply in_flat_map in H. destruct H as [m [Hm H]].
    exists m. destruct (is_query_token surf_qset read_qset m); [auto|destruct H].
  - intros [m [Hm [Hq H]]]. right. exists (s, e). split; [reflexivity|].
    apply in_flat_map. exists m. rewrite Hq. auto.
Qed.

Lemma labeled_nonempty (s e : nat) (t : Label) :
  In (s, e, t) labeled_ranges -> s < e.
Proof.
  destruct t; intros H.
  - apply labeled_phrase, find_phrase_ranges_good in H. simpl in H. lia.
  - apply labeled_token in H. destruct H as [m [_ [_ H]]].
    apply subtract_intervals_nonempty in H. exact H.
Qed.

Lemma labeled_cross (s e : nat) (t : Label) (s' e' : nat) (t' : Label) :
  In (s, e, t) labeled_ranges -> In (s', e', t') labeled_ranges -> t <> t' ->
  e <= s' \/ e' <= s.
Proof.
  assert (Hkey : forall s e s' e',
            In (s, e, token) labeled_ranges ->
            In (s', e', phrase) labeled_ranges -> e <= s' \/ e' <= s).
  { clear s e t s' e' t'. intros s e s' e' Ht Hp.
    apply labeled_token in Ht. destruct Ht as [m [_ [_ Ht]]].
    apply labeled_phrase in Hp.
    pose proof (find_phrase_ranges_good _ _ _ Hp) as Hg.
    apply (subtract_intervals_apart _ _ _ _ Ht Hp). simpl in Hg |- *. lia. }
  destruct t, t'; intros H1 H2 Hd; try congruence.
  - destruct (Hkey _ _ _ _ H2 H1); auto.
  - apply (Hkey _ _ _ _ H1 H2).
Qed.

(** The ranges emitted for a non-empty text: [out] of
    [build_highlight_html]. *)
Definition emitted : list Labeled :=
  fold_left emit (sort labeled_leb labeled_ranges) [].

Lemma highlight_spans_emitted :
  text <> [] ->
  highlight_spans tokenize text phrases surf_qset read_qset = emitted.
Proof.
  unfold emitted, labeled_ranges, highlight_spans.
  destruct text; [congruence|reflexivity].
Qed.

Lemma sorted_In (x : Labeled) :
  In x (sort labeled_leb labeled_ranges) <-> In x labeled_ranges.
Proof. apply PyStrFacts.sort_In. Qed.

(** The structure of [out]: non-empty ranges in order, no two of them
    sharing an offset, which cover, label by label, exactly the offsets of
    the labeled ranges. *)
Lemma emitted_structure :
  ordered emitted
  /\ (forall s e t, In (s, e, t) emitted -> s < e)
  /\ (forall t i, covered_as emitted t i <-> covered_as labeled_ranges t i).
Proof.
  destruct (resolve_inv (sort labeled_leb labeled_ranges)) with
    (rest := sort labeled_leb labeled_ranges) (out := @nil Labeled)
    as [[Hnon [Hord _]] Hcov].
  - intros s e t H. apply sorted_In in H. exact (labeled_nonempty _ _ _ H).
  - intros s e t s' e' t' H1 H2. apply sorted_In in H1, H2.
    exact (labeled_cross _ _ _ _ _ _ H1 H2).
  - auto.
  - apply (StronglySorted_weaken (fun a b => labeled_leb a b = true)).
    + apply labeled_leb_start.
    + apply PyStrFacts.sort_sorted;
        [apply labeled_leb_total|apply labeled_leb_trans].
  - split; [intros s e t []|]. split; [constructor|].
    split; [intros s e t s' e' t' []|intros s e t s' e' t' []].
  - split; [exact Hord|]. split; [exact Hnon|].
    intros t i. split.
    + intros H. apply resolve_covers in H.
      destruct H as [s [e [H Hi]]]. apply sorted_In in H. exists s, e. auto.
    + intros [s [e [H Hi]]]. apply Hcov. right. exists s, e.
      split; [apply sorted_In, H|exact Hi].
Qed.

Lemma emitted_apart (j k : nat) (a b : Labeled) :
  j <> k -> emitted !! j = Some a -> emitted !! k = Some b ->
  apart (fst a) (fst b).
Proof.
  destruct emitted_structure as [Hord _]. intros Hjk Hj Hk.
  destruct (Nat.lt_gt_cases j k) as [[Hlt | Hgt] _]; [exact Hjk| |].
  - left. exact (StronglySorted_lookup _ _ _ _ _ _ Hord Hlt Hj Hk).
  - right. exact (StronglySorted_lookup _ _ _ _ _ _ Hord Hgt Hk Hj).
Qed.

(** With the offsets of the analyzer inside the text, so are the emitted
    ranges. *)
Lemma emitted_within (s e : nat) (t : Label) :
  (forall m, In m (tokenize text) -> m_end m <= length text) ->
  In (s, e, t) emitted -> s < e <= length text.
Proof.
  intros Htok. apply resolve_good. clear s e t.
  intros s e t H. apply sorted_In in H. destruct t.
  - apply labeled_phrase, find_phrase_ranges_good in H. exact H.
  - pose proof (labeled_nonempty _ _ _ H).
    apply labeled_token in H. destruct H as [m [Hm [_ H]]].
    apply subtract_intervals_inside in H. specialize (Htok m Hm).
    simpl in H. lia.
Qed.
End Spans.

(** The offset [i] lies in a morpheme of the text whose surface is in the
    surface set or whose reading is in the reading set. *)
Definition query_token_position (tokenize : str -> list Morpheme) (text : str)
    (surf_qset read_qset : gset str) (i : nat) : Prop :=
  exists m, In m (tokenize text)
            /\ is_query_token surf_qset read_qset m = true
            /\ m_begin m <= i < m_end m.

(** C3. Whatever the text, the phrases and the two query sets, and for
    any analyzer whose offsets lie within the text: every range emitted by
    the highlighter has its bounds within [[0, len(text)]]; two ranges
    emitted at different places share no offset; and every offset of an
    emitted range lies in an occurrence of a phrase or in a query token of
    the text. *)
Theorem highlight_spans_coverage (tokenize : str -> list Morpheme)
    (text : str) (phrases : list str) (surf_qset read_qset : gset str) :
  (forall m, In m (tokenize text) -> m_end m <= length text) ->
  let out := highlight_spans tokenize text phrases surf_qset read_qset in
  (forall s e t, In (s, e, t) out -> 0 <= s /\ s <= e /\ e <= length text)
  /\ (forall j k a b, j <> k -> out !! j = Some a -> out !! k = Some b ->
        snd (fst a) <= fst (fst b) \/ snd (fst b) <= fst (fst a))
  /\ (forall s e t i, In (s, e, t) out -> s <= i < e ->
        phrase_match_position text phrases i
        \/ query_token_position tokenize text surf_qset read_qset i).
Proof.
  intros Htok out. subst out.
  destruct (decide (text = [])) as [-> | Hne].
  { simpl. split; [intros s e t []|]. split; [intros j k a b _ Hj|intros s e t i []].
    discriminate. }
  rewrite (highlight_spans_emitted tokenize text phrases surf_qset read_qset Hne).
  split; [|split].
  - intros s e t H.
    pose proof (emitted_within tokenize text phrases surf_qset read_qset
                  s e t Htok H). lia.
  - intros j k a b Hjk Hj Hk.
    exact (emitted_apart tokenize text phrases surf_qset read_qset
             j k a b Hjk Hj Hk).
  - intros s e t i H Hi.
    destruct (emitted_structure tokenize text phrases surf_qset read_qset)
      as [_ [_ Hcov]].
    destruct (proj1 (Hcov t i)) as [s' [e' [H' Hi']]]; [exists s, e; auto|].
    destruct t.
    + left. apply labeled_phrase in H'.
      apply (find_phrase_ranges_covers _ _ (s', e') i H'). exact Hi'.
    + right. apply labeled_token in H'. destruct H' as [m [Hm [Hq H']]].
      exists m. split; [exact Hm|]. split; [exact Hq|].
      apply subtract_intervals_inside in H'. simpl in H'. lia.
Qed.

Lemma char_tokenizer_within :
  forall m, In m (Fixtures.char_tokenizer (lit "abcdef")) ->
            m_end m <= length (lit "abcdef").
Proof.
  intros m Hm. vm_compute in Hm.
  repeat (destruct Hm as [<- | Hm]; [vm_compute; repeat constructor|]).
  destruct Hm.
Qed.

Lemma highlight_spans_coverage_witness :
  highlight_spans Fixtures.char_tokenizer (lit "abcdef") [lit "cd"]
    {[ lit "a"; lit "b"; lit "c"; lit "f" ]} ∅
  = [(0, 2, token); (2, 4, phrase); (5, 6, token)]
  /\ forall s e t,
       In (s, e, t) [(0, 2, token); (2, 4, phrase); (5, 6, token)] ->
       0 <= s /\ s <= e /\ e <= 6.
Proof.
  split; [vm_compute; reflexivity|].
  exact (proj1 (highlight_spans_coverage Fixtures.char_tokenizer
                  (lit "abcdef") [lit "cd"]
                  {[ lit "a"; lit "b"; lit "c"; lit "f" ]} ∅
                  char_tokenizer_within)).
Defined.

(** C4. For any analyzer whose offsets lie within the text: a token-labeled
    range of the output never shares an offset with a phrase-labeled one,
    so a token that lies inside a phrase-labeled range is not emitted as a
    token-labeled range, nor is any of its offsets; and every offset of a
    query token that no phrase-labeled range covers lies in a token-labeled
    range of the output. *)
Theorem highlight_phrase_precedence (tokenize : str -> list Morpheme)
    (text : str) (phrases : list str) (surf_qset read_qset : gset str) :
  (forall m, In m (tokenize text) -> m_end m <= length text) ->
  let out := highlight_spans tokenize text phrases surf_qset read_qset in
  (forall s e ps pe, In (s, e, token) out -> In (ps, pe, phrase) out ->
     e <= ps \/ pe <= s)
  /\ (forall m ps pe,
        In m (tokenize text) -> In (ps, pe, phrase) out ->
        ps <= m_begin m -> m_end m <= pe ->
        ~ In (m_begin m, m_end m, token) out
        /\ forall s e i, In (s, e, token) out ->
                         m_begin m <= i < m_end m -> ~ (s <= i < e))
  /\ (forall m i,
        In m (tokenize text) ->
        is_query_token surf_qset read_qset m = true ->
        m_begin m <= i < m_end m ->
        (forall ps pe, In (ps, pe, phrase) out -> ~ (ps <= i < pe)) ->
        exists s e, In (s, e, token) out /\ s <= i < e).
Proof.
  intros Htok out. subst out.
  destruct (decide (text = [])) as [-> | Hne].
  { simpl. split; [intros s e ps pe []|]. split; [intros m ps pe _ []|].
    intros m i Hm _ Hi _. specialize (Htok m Hm). simpl in Htok. lia. }
  rewrite (highlight_spans_emitted tokenize text phrases surf_qset read_qset Hne).
  destruct (emitted_structure tokenize text phrases surf_qset read_qset)
    as [_ [Hnon Hcov]].
  assert (Hapart : forall s e ps pe,
            In (s, e, token)
               (emitted tokenize text phrases surf_qset read_qset) ->
            In (ps, pe, phrase)
               (emitted tokenize text phrases surf_qset read_qset) ->
            e <= ps \/ pe <= s).
  { intros s e ps pe Ht Hp.
    apply list_elem_of_In, list_elem_of_lookup in Ht, Hp.
    destruct Ht as [j Hj], Hp as [k Hk].
    assert (Hjk : j <> k) by (intros ->; congruence).
    exact (emitted_apart tokenize text phrases surf_qset read_qset
             j k _ _ Hjk Hj Hk). }
  split; [exact Hapart|]. split.
  - intros m ps pe Hm Hp Hb He.
    assert (Hpos : forall s e i,
              In (s, e, token)
                 (emitted tokenize text phrases surf_qset read_qset) ->
              m_begin m <= i < m_end m -> ~ (s <= i < e)).
    { intros s e i Ht Hi Hc. destruct (Hapart _ _ _ _ Ht Hp); lia. }
    split; [|exact Hpos].
    intros Ht. pose proof (Hnon _ _ _ Ht) as Hlt.
    apply (Hpos _ _ (m_begin m) Ht); lia.
  - intros m i Hm Hq Hi Hfree.
    apply (Hcov token i). 
    assert (Hpiece : covered_by
              (subtract_intervals (m_begin m, m_end m)
                 (find_phrase_ranges text phrases)) i).
    { apply subtract_intervals_covers. split; [exact Hi|].
      intros [ps pe] Hp Hc.
      destruct (proj2 (Hcov phrase i)) as [ps' [pe' [Hp' Hi']]].
      - exists ps, pe. split; [apply labeled_phrase, Hp|exact Hc].
      - exact (Hfree _ _ Hp' Hi'). }
    destruct Hpiece as [[s e] [Hr Hc]]. exists s, e.
    split; [|exact Hc]. apply labeled_token. exists m. auto.
Qed.

Lemma highlight_phrase_precedence_witness :
  highlight_spans Fixtures.char_tokenizer (lit "abcdef") [lit "cd"]
    {[ lit "a"; lit "b"; lit "c"; lit "f" ]} ∅
  = [(0, 2, token); (2, 4, phrase); (5, 6, token)]
  /\ forall s e ps pe,
       In (s, e, token) [(0, 2, token); (2, 4, phrase); (5, 6, token)] ->
       In (ps, pe, phrase) [(0, 2, token); (2, 4, phrase); (5, 6, token)] ->
       e <= ps \/ pe <= s.
Proof.
  split; [vm_compute; reflexivity|].
  exact (proj1 (highlight_phrase_precedence Fixtures.char_tokenizer
                  (lit "abcdef") [lit "cd"]
                  {[ lit "a"; lit "b"; lit "c"; lit "f" ]} ∅
                  char_tokenizer_within)).
Defined.

End HighlightProps.

(* ===================================================================== *)
(** ** Properties of the time stamps *)
(* ===================================================================== *)

Module TimeStrProps.
Import TimeStr.

Example ms_to_timestr_ex :
  ms_to_timestr 62500 = lit "00:01:02.500"
  /\ ms_to_timestr 359999999 = lit "99:59:59.999"
  /\ ms_to_timestr 360000000 = lit "100:00:00.000"
  /\ ms_to_timestr (-1) = lit "-1:59:59.999".
Proof. repeat split; vm_compute; reflexivity. Qed.

(** The digit of a value below ten. *)
Definition digit (n : Z) : N := (0x30 + Z.to_N n)%N.

Lemma zfill_2_digits (n : Z) :
  (0 <= n < 100)%Z -> zfill_d 2 n = [digit (n / 10); digit (n mod 10)].
Proof.
  intros Hn.
  assert (Hall : forallb (fun k =>
            str_eqb (zfill_d 2 (Z.of_nat k))
              [digit (Z.of_nat k / 10); digit (Z.of_nat k mod 10)])
            (seq 0 100) = true) by (vm_compute; reflexivity).
  rewrite forallb_forall in Hall.
  specialize (Hall (Z.to_nat n)). rewrite Z2Nat.id in Hall by lia.
  unfold str_eqb in Hall. rewrite bool_decide_eq_true in Hall.
  apply Hall, in_seq. lia.
Qed.

Lemma zfill_3_digits (n : Z) :
  (0 <= n < 1000)%Z ->
  zfill_d 3 n = [digit (n / 100); digit (n / 10 mod 10); digit (n mod 10)].
Proof.
  intros Hn.
  assert (Hall : forallb (fun k =>
            str_eqb (zfill_d 3 (Z.of_nat k))
              [digit (Z.of_nat k / 100); digit (Z.of_nat k / 10 mod 10);
               digit (Z.of_nat k mod 10)])
            (seq 0 1000) = true) by (vm_compute; reflexivity).
  rewrite forallb_forall in Hall.
  specialize (Hall (Z.to_nat n)). rewrite Z2Nat.id in Hall by lia.
  unfold str_eqb in Hall. rewrite bool_decide_eq_true in Hall.
  apply Hall, in_seq. lia.
Qed.

Lemma digit_inj (a b : Z) : (0 <= a)%Z -> (0 <= b)%Z -> digit a = digit b -> a = b.
Proof. unfold digit. lia. Qed.

(** The twelve code points of a time below one hundred hours. *)
Lemma ms_to_timestr_digits (ms : Z) :
  (0 <= ms < 360000000)%Z ->
  let h := (ms / 3600000)%Z in
  let m := (ms / 60000 mod 60)%Z in
  let s := (ms / 1000 mod 60)%Z in
  let l := (ms mod 1000)%Z in
  ms_to_timestr ms
  = [digit (h / 10); digit (h mod 10); 0x3A%N;
     digit (m / 10); digit (m mod 10); 0x3A%N;
     digit (s / 10); digit (s mod 10); 0x2E%N;
     digit (l / 100); digit (l / 10 mod 10); digit (l mod 10)].
Proof.
  intros Hms h m s l. unfold ms_to_timestr.
  assert (E1 : (ms / 1000 / 60 / 60 = h)%Z).
  { unfold h. rewrite !Z.div_div by lia. reflexivity. }
  assert (E2 : (ms / 1000 / 60 mod 60 = m)%Z).
  { unfold m. rewrite Z.div_div by lia. reflexivity. }
  rewrite E1, E2. fold s l.
  assert (0 <= h < 100)%Z.
  { unfold h. split; [apply Z.div_pos; lia|].
    apply Z.div_lt_upper_bound; lia. }
  assert (0 <= m < 60)%Z by (unfold m; apply Z.mod_pos_bound; lia).
  assert (0 <= s < 60)%Z by (unfold s; apply Z.mod_pos_bound; lia).
  assert (0 <= l < 1000)%Z by (unfold l; apply Z.mod_pos_bound; lia).
  rewrite !zfill_2_digits, zfill_3_digits by lia. reflexivity.
Qed.

(** X1. Below one hundred hours and from zero on, [ms_to_timestr] gives
    twelve code points, and two different times never give the same
    string. *)
Theorem ms_to_timestr_injective (a b : Z) :
  (0 <= a < 360000000)%Z -> (0 <= b < 360000000)%Z ->
  length (ms_to_timestr a) = 12
  /\ (ms_to_timestr a = ms_to_timestr b -> a = b).
Proof.
  intros Ha Hb.
  rewrite (ms_to_timestr_digits a Ha), (ms_to_timestr_digits b Hb).
  cbv zeta. split; [reflexivity|].
  intros E. injection E as E1 E2 E3 E4 E5 E6 E7 E8 E9.
  assert (Hpos : forall x y : Z, (0 <= x)%Z -> (0 < y)%Z -> (0 <= x / y)%Z)
    by (intros; apply Z.div_pos; lia).
  assert (Hmod : forall x y : Z, (0 < y)%Z -> (0 <= x mod y)%Z)
    by (intros; apply Z.mod_pos_bound; lia).
  apply digit_inj in E1, E2, E3, E4, E5, E6, E7, E8, E9;
    try (first [apply Hmod | apply Hpos; [|lia]]; auto; try lia;
         first [apply Hmod | apply Hpos]; lia).
  assert (Hh : (a / 3600000 = b / 3600000)%Z).
  { rewrite (Z.div_mod (a / 3600000) 10), (Z.div_mod (b / 3600000) 10) by lia.
    congruence. }
  assert (Hm : (a / 60000 mod 60 = b / 60000 mod 60)%Z).
  { rewrite (Z.div_mod (a / 60000 mod 60) 10),
      (Z.div_mod (b / 60000 mod 60) 10) by lia. congruence. }
  assert (Hs : (a / 1000 mod 60 = b / 1000 mod 60)%Z).
  { rewrite (Z.div_mod (a / 1000 mod 60) 10),
      (Z.div_mod (b / 1000 mod 60) 10) by lia. congruence. }
  assert (Hl : (a mod 1000 = b mod 1000)%Z).
  { rewrite (Z.div_mod (a mod 1000) 10), (Z.div_mod (b mod 1000) 10) by lia.
    rewrite (Z.div_mod (a mod 1000 / 10) 10),
      (Z.div_mod (b mod 1000 / 10) 10) by lia.
    rewrite !Z.div_div by lia. change (10 * 10)%Z with 100%Z. congruence. }
  assert (Ha60 : (a / 60000 = b / 60000)%Z).
  { rewrite (Z.div_mod (a / 60000) 60), (Z.div_mod (b / 60000) 60) by lia.
    rewrite !Z.div_div by lia. change (60000 * 60)%Z with 3600000%Z.
    congruence. }
  assert (Ha1 : (a / 1000 = b / 1000)%Z).
  { rewrite (Z.div_mod (a / 1000) 60), (Z.div_mod (b / 1000) 60) by lia.
    rewrite !Z.div_div by lia. change (1000 * 60)%Z with 60000%Z.
    congruence. }
  rewrite (Z.div_mod a 1000), (Z.div_mod b 1000) by lia. congruence.
Qed.

Lemma ms_to_timestr_injective_witness :
  length (ms_to_timestr 62500) = 12
  /\ (ms_to_timestr 62500 = ms_to_timestr 62500 -> 62500%Z = 62500%Z).
Proof.
  apply (ms_to_timestr_injective 62500 62500); lia.
Defined.

End TimeStrProps.

(* ===================================================================== *)
(** ** Properties of query parsing *)
(* ===================================================================== *)

Module ParseQueryProps.
Import ParseQuery.

Example extract_phrases_ex :
  extract_phrases (lit "a " ++ [0x22; 0x20; 0x78; 0x20; 0x22; 0x22; 0x22;
                                0x300C; 0x79; 0x22; 0x300D; 0x300E; 0x7A]%N)
  = [lit "x"; [0x300C; 0x79]%N].
Proof. vm_compute. reflexivity. Qed.

Lemma span_until_spec (c : N) (s g : str) :
  span_until c s = Some g -> exists post, s = g ++ c :: post /\ ~ In c g.
Proof.
  revert g. induction s as [|x s IH]; intros g; simpl; [discriminate|].
  destruct (N.eqb_spec x c) as [-> | Hne].
  - intros [= <-]. exists s. split; [reflexivity|intros []].
  - destruct (span_until c s) as [g'|]; [|discriminate].
    intros [= <-]. destruct (IH g' eq_refl) as [post [-> Hnot]].
    exists post. split; [reflexivity|]. intros [H | H]; [congruence|auto].
Qed.

Lemma span_until_found (c : N) (g post : str) :
  ~ In c g -> span_until c (g ++ c :: post) = Some g.
Proof.
  induction g as [|x g IH]; intros Hnot; simpl.
  - rewrite N.eqb_refl. reflexivity.
  - destruct (N.eqb_spec x c) as [-> | Hne]; [exfalso; apply Hnot; simpl; auto|].
    rewrite IH; [reflexivity|]. intros H. apply Hnot. simpl. auto.
Qed.

Lemma match_quote_spec (s g : str) :
  match_quote s = Some g ->
  exists o c post,
    s = o :: g ++ c :: post /\ closer_of o = Some c /\ g <> [] /\ ~ In c g.
Proof.
  destruct s as [|o r]; simpl; [discriminate|].
  destruct (closer_of o) as [c|] eqn:Ec; [|discriminate].
  destruct (span_until c r) as [[|x g']|] eqn:Es; try discriminate.
  intros [= <-]. apply span_until_spec in Es. destruct Es as [post [-> Hnot]].
  exists o, c, post. split; [reflexivity|]. split; [exact Ec|].
  split; [discriminate|exact Hnot].
Qed.

Lemma quoted_groups_spec (s : str) (skip : nat) (g : str) :
  In g (quoted_groups s skip) ->
  exists pre rest, s = pre ++ rest /\ match_quote rest = Some g.
Proof.
  revert skip. induction s as [|x s IH]; intros skip; [intros []|].
  cbn [quoted_groups]. destruct skip as [|k].
  - destruct (match_quote (x :: s)) as [g'|] eqn:Em.
    + intros [<- | H].
      * exists [], (x :: s). auto.
      * destruct (IH _ H) as [pre [rest [-> Hm]]].
        exists (x :: pre), rest. auto.
    + intros H. destruct (IH _ H) as [pre [rest [-> Hm]]].
      exists (x :: pre), rest. auto.
  - intros H. destruct (IH _ H) as [pre [rest [-> Hm]]].
    exists (x :: pre), rest. auto.
Qed.

Lemma lstrip_suffix (s : str) : exists a, s = a ++ lstrip s.
Proof.
  induction s as [|c s [a IH]]; simpl; [exists []; reflexivity|].
  destruct (is_space c).
  - exists (c :: a). simpl. congruence.
  - exists []. reflexivity.
Qed.

(** [strip] keeps a contiguous part of the string. *)
Lemma strip_substring (s : str) : exists a b, s = a ++ strip s ++ b.
Proof.
  unfold strip, rstrip.
  destruct (lstrip_suffix s) as [a Ha].
  destruct (lstrip_suffix (rev (lstrip s))) as [b Hb].
  exists a, (rev b). rewrite <- rev_app_distr, <- Hb, rev_involutive. exact Ha.
Qed.

(** X2. Every phrase [parse_query] extracts comes from a quoted part of
    the query: an opening mark, a non-empty group free of the matching
    closing mark, that closing mark; the phrase is the stripped group, and
    so a literal part of the query. *)
Theorem extract_phrases_quoted (query p : str) :
  In p (extract_phrases query) ->
  (exists pre o g c post,
     query = pre ++ o :: g ++ c :: post
     /\ closer_of o = Some c /\ g <> [] /\ ~ In c g /\ p = strip g)
  /\ contains p query = true.
Proof.
  unfold extract_phrases. intros H. apply in_map_iff in H.
  destruct H as [g [<- Hg]]. apply quoted_groups_spec in Hg.
  destruct Hg as [pre [rest [-> Hm]]]. apply match_quote_spec in Hm.
  destruct Hm as [o [c [post [-> [Hc [Hne Hnot]]]]]].
  split.
  - exists pre, o, g, c, post. auto.
  - apply PyStrFacts.contains_spec.
    destruct (strip_substring g) as [a [b Hab]].
    exists (pre ++ o :: a), (b ++ c :: post).
    rewrite Hab at 1.
    repeat (rewrite <- app_assoc; simpl). reflexivity.
Qed.

Lemma extract_phrases_quoted_witness :
  In (lit "x") (extract_phrases (lit "a " ++ [0x300C]%N ++ lit " x "
                                 ++ [0x300D]%N))
  /\ contains (lit "x") (lit "a " ++ [0x300C]%N ++ lit " x " ++ [0x300D]%N)
     = true.
Proof.
  assert (H : In (lit "x") (extract_phrases (lit "a " ++ [0x300C]%N
                                            ++ lit " x " ++ [0x300D]%N)))
    by (vm_compute; auto).
  split; [exact H|].
  exact (proj2 (extract_phrases_quoted _ _ H)).
Defined.

Lemma quoted_groups_no_opener (s : str) :
  (forall x, In x s -> closer_of x = None) -> quoted_groups s 0 = [].
Proof.
  induction s as [|x s IH]; intros H; [reflexivity|].
  cbn [quoted_groups match_quote]. rewrite (H x) by (simpl; auto).
  apply IH. intros y Hy. apply H. simpl. auto.
Qed.

Lemma quoted_groups_skip (a b : str) :
  quoted_groups (a ++ b) (length a) = quoted_groups b 0.
Proof. induction a as [|x a IH]; simpl; [reflexivity|exact IH]. Qed.

Lemma quoted_groups_prefix (pre rest : str) :
  (forall x, In x pre -> closer_of x = None) ->
  quoted_groups (pre ++ rest) 0 = quoted_groups rest 0.
Proof.
  induction pre as [|x pre IH]; intros H; [reflexivity|].
  cbn [app quoted_groups match_quote]. rewrite (H x) by (simpl; auto).
  apply IH. intros y Hy. apply H. simpl. auto.
Qed.

(** X3. A query without any opening mark has no phrase; and a query that
    holds, between parts without opening marks, one non-empty text [g]
    enclosed in a pair of marks (and free of the closing one) has exactly
    the phrase [strip g]. *)
Theorem extract_phrases_single (pre post g : str) (o c : N) :
  (forall x, In x pre -> closer_of x = None) ->
  (forall x, In x post -> closer_of x = None) ->
  closer_of o = Some c -> g <> [] -> ~ In c g ->
  extract_phrases (pre ++ post) = []
  /\ extract_phrases (pre ++ o :: g ++ c :: post) = [strip g].
Proof.
  intros Hpre Hpost Hc Hne Hnot. unfold extract_phrases. split.
  - rewrite quoted_groups_no_opener; [reflexivity|].
    intros x Hx. apply in_app_or in Hx. destruct Hx; auto.
  - rewrite quoted_groups_prefix by exact Hpre.
    cbn [quoted_groups match_quote]. rewrite Hc.
    rewrite (span_until_found c g post Hnot).
    destruct g as [|x g]; [congruence|].
    replace ((x :: g) ++ c :: post) with (((x :: g) ++ [c]) ++ post)
      by (rewrite <- app_assoc; reflexivity).
    replace (S (length (x :: g))) with (length ((x :: g) ++ [c]))
      by (rewrite length_app; simpl; lia).
    rewrite quoted_groups_skip, (quoted_groups_no_opener post Hpost).
    reflexivity.
Qed.

Lemma extract_phrases_single_witness :
  extract_phrases (lit "see " ++ lit " now") = []
  /\ extract_phrases (lit "see " ++ 0x22%N :: lit " it " ++ 0x22%N :: lit " now")
     = [strip (lit " it ")].
Proof.
  apply (extract_phrases_single (lit "see ") (lit " now") (lit " it ")
           0x22%N 0x22%N).
  - intros x Hx. vm_compute in Hx.
    repeat (destruct Hx as [<- | Hx]; [reflexivity|]). destruct Hx.
  - intros x Hx. vm_compute in Hx.
    repeat (destruct Hx as [<- | Hx]; [reflexivity|]). destruct Hx.
  - reflexivity.
  - discriminate.
  - vm_compute. intros H.
    repeat (destruct H as [H | H]; [discriminate|]). destruct H.
Defined.

Lemma list_to_set_empty_nil (l : list str) :
  (list_to_set l : gset str) = ∅ <-> l = [].
Proof.
  split; [|intros ->; reflexivity].
  destruct l as [|x l]; [reflexivity|]. intros H.
  assert (Hx : x ∈ (list_to_set (x :: l) : gset str)) by set_solver.
  rewrite H in Hx. set_solver.
Qed.

(** X4. The query compiles to no match expression exactly when the two
    token sets [parse_query] hands to the highlighter are empty; the
    retriever then answers with the empty list whatever the database. *)
Theorem empty_query_sets (tokenize : str -> list Morpheme) (query : str) :
  (surface_set tokenize query = ∅ /\ reading_set tokenize query = ∅
   <-> Search.build_match_query tokenize query = None)
  /\ (Search.build_match_query tokenize query = None ->
      forall conn phrases topn,
        Search.query_hits tokenize conn query phrases topn = Return []).
Proof.
  split.
  - unfold surface_set, reading_set. rewrite !list_to_set_empty_nil.
    unfold Search.build_match_query.
    fold (Search.tokenize_surface tokenize query).
    fold (Search.tokenize_reading tokenize query).
    destruct (Search.tokenize_surface tokenize query) as [|s ss];
      destruct (Search.tokenize_reading tokenize query) as [|r rs];
      cbn [map app]; split; try discriminate; try tauto;
      intros [H1 H2]; discriminate.
  - intros H conn phrases topn. unfold Search.query_hits. rewrite H.
    reflexivity.
Qed.

End ParseQueryProps.

(* ===================================================================== *)
(** ** More on the retriever *)
(* ===================================================================== *)

Module RetrieverProps.
Import Search.

Lemma filter_sublist {A} (f : A -> bool) (l : list A) :
  sublist (List.filter f l) l.
Proof.
  induction l as [|x l IH]; simpl; [constructor|].
  destruct (f x); [apply sublist_skip|apply sublist_cons]; exact IH.
Qed.

Lemma slice_to_sublist {A} (l : list A) (n : Z) : sublist (slice_to l n) l.
Proof. unfold slice_to. destruct (0 <=? n)%Z; apply sublist_take. Qed.

(** X5. The rows [query_hits] returns are rows the database returned to
    one and the same statement (the ranked one, or the unranked one when
    the database reports that it has no bm25 function), in the order the
    database gave them; without phrases they are its first [topn] rows. *)
Theorem query_hits_keeps_rank_order (tokenize : str -> list Morpheme)
    (conn : Conn) (query : str) (phrases : list str) (topn : Z)
    (rows : list Row) :
  query_hits tokenize conn query phrases topn = Return rows ->
  rows <> [] ->
  exists expr fetched,
    build_match_query tokenize query = Some expr
    /\ (execute_ranked conn expr (topn * 5) = Rows fetched
        \/ exists msg,
             execute_ranked conn expr (topn * 5) = OperationalError msg
             /\ contains (lit "no such function: bm25") (lower msg) = true
             /\ execute_unranked conn expr (topn * 5) = Rows fetched)
    /\ sublist rows fetched
    /\ (phrases = [] -> rows = slice_to fetched topn).
Proof.
  unfold query_hits.
  destruct (build_match_query tokenize query) as [[|c e]|];
    try (intros [= <-] H; congruence).
  assert (Hpost : forall fetched,
            sublist
              match phrases with
              | _ :: _ =>
                  slice_to
                    (List.filter (fun r => has_all phrases (row_text r)) fetched)
                    topn
              | [] => slice_to fetched topn
              end fetched).
  { intros fetched. destruct phrases.
    - apply slice_to_sublist.
    - etransitivity; [apply slice_to_sublist|apply filter_sublist]. }
  destruct (execute_ranked conn (c :: e) (topn * 5)) as [fetched|msg] eqn:Er.
  - intros [= <-] _. exists (c :: e), fetched.
    split; [reflexivity|]. split; [left; exact Er|].
    split; [apply Hpost|]. intros ->. reflexivity.
  - destruct (contains (lit "no such table: fts") (lower msg));
      [intros [= <-] H; congruence|].
    destruct (contains (lit "no such function: bm25") (lower msg)) eqn:Eb;
      [|discriminate].
    destruct (execute_unranked conn (c :: e) (topn * 5)) as [fetched|msg']
      eqn:Eu; [|discriminate].
    intros [= <-] _. exists (c :: e), fetched.
    split; [reflexivity|].
    split; [right; exists msg; repeat split; assumption|].
    split; [apply Hpost|]. intros ->. reflexivity.
Qed.

Lemma query_hits_keeps_rank_order_witness :
  exists expr fetched,
    build_match_query Fixtures.whole_tokenizer (lit "X") = Some expr
    /\ (execute_ranked Fixtures.demo_conn expr (2 * 5) = Rows fetched
        \/ exists msg,
             execute_ranked Fixtures.demo_conn expr (2 * 5)
             = OperationalError msg
             /\ contains (lit "no such function: bm25") (lower msg) = true
             /\ execute_unranked Fixtures.demo_conn expr (2 * 5) = Rows fetched)
    /\ sublist [Fixtures.mk_row (lit "abXc"); Fixtures.mk_row (lit "X")] fetched
    /\ ([lit "X"] = [] ->
        [Fixtures.mk_row (lit "abXc"); Fixtures.mk_row (lit "X")]
        = slice_to fetched 2).
Proof.
  apply (query_hits_keeps_rank_order Fixtures.whole_tokenizer
           Fixtures.demo_conn (lit "X") [lit "X"] 2).
  - vm_compute. reflexivity.
  - discriminate.
Defined.

Lemma join_In (c : N) (sep : str) (l : list str) :
  In c (join sep l) -> In c sep \/ exists x, In x l /\ In c x.
Proof.
  induction l as [|x l IH]; [intros []|].
  destruct l as [|y l].
  - simpl. intros H. right. exists x. auto.
  - change (join sep (x :: y :: l)) with (x ++ sep ++ join sep (y :: l)).
    intros H. apply in_app_or in H. destruct H as [H | H].
    + right. exists x. simpl. auto.
    + apply in_app_or in H. destruct H as [H | H]; [auto|].
      destruct (IH H) as [Hs | [z [Hz Hc]]]; [auto|].
      right. exists z. split; [right; exact Hz|exact Hc].
Qed.

Lemma strip_quotes_clean (c : N) (t : str) :
  c = 0x22%N \/ c = 0x27%N -> ~ In c (strip_quotes t).
Proof.
  unfold strip_quotes, remove_char. intros Hc H.
  apply filter_In in H. destruct H as [H H27].
  apply filter_In in H. destruct H as [_ H22].
  destruct Hc as [-> | ->]; [discriminate H22|discriminate H27].
Qed.

Lemma and_group_clean (c : N) (field : str) (toks : list str) :
  c = 0x22%N \/ c = 0x27%N -> ~ In c field ->
  ~ In c (join (lit " AND ")
            (map (fun t => field ++ t) (map strip_quotes toks))).
Proof.
  intros Hc Hf H. apply join_In in H. destruct H as [H | [x [Hx H]]].
  - vm_compute in H. destruct Hc as [-> | ->];
      repeat (destruct H as [H | H]; [discriminate|]); destruct H.
  - apply in_map_iff in Hx. destruct Hx as [t [<- Ht]].
    apply in_map_iff in Ht. destruct Ht as [t' [<- _]].
    apply in_app_or in H. destruct H as [H | H]; [auto|].
    exact (strip_quotes_clean c t' Hc H).
Qed.

Lemma or_join_In (c : N) (f : str -> bool) (parts : list str) :
  In c (join (lit " OR ")
          (map (fun p => lit "(" ++ p ++ lit ")") (List.filter f parts))) ->
  In c (lit " OR ") \/ In c (lit "(") \/ In c (lit ")")
  \/ exists p, In p parts /\ In c p.
Proof.
  intros H. apply join_In in H. destruct H as [H | [x [Hx H]]]; [auto|].
  apply in_map_iff in Hx. destruct Hx as [p [<- Hp]].
  apply filter_In in Hp. destruct Hp as [Hp _].
  apply in_app_or in H. destruct H as [H | H]; [auto|].
  apply in_app_or in H. destruct H as [H | H]; [|auto].
  right. right. right. exists p. auto.
Qed.

(** The parts of the expression [build_match_query] joins with OR. *)
Lemma build_match_query_parts (tokenize : str -> list Morpheme)
    (query expr : str) :
  build_match_query tokenize query = Some expr ->
  exists parts,
    expr = join (lit " OR ")
             (map (fun p => lit "(" ++ p ++ lit ")")
                (List.filter (fun p => negb (str_eqb p [])) parts))
    /\ forall p, In p parts ->
         p = join (lit " AND ")
               (map (fun t => lit "text_tok:" ++ t)
                  (map strip_quotes (tokenize_surface tokenize query)))
         \/ p = join (lit " AND ")
                  (map (fun t => lit "reading_tok:" ++ t)
                     (map strip_quotes (tokenize_reading tokenize query))).
Proof.
  unfold build_match_query.
  destruct (tokenize_surface tokenize query) as [|s ss];
    destruct (tokenize_reading tokenize query) as [|r rs];
    cbn [map app]; intros H; [discriminate| | |];
    apply (inj Some) in H; subst expr; eexists; (split; [reflexivity|]);
    intros p Hp; simpl in Hp; intuition.
Qed.

(** X6. No match expression holds a double or a single quote, whatever
    the tokens of the query are. *)
Theorem build_match_query_no_quotes (tokenize : str -> list Morpheme)
    (query expr : str) (c : N) :
  build_match_query tokenize query = Some expr ->
  c = 0x22%N \/ c = 0x27%N -> ~ In c expr.
Proof.
  intros Hq Hc Hin.
  assert (Hlit : forall l : str,
            In c l -> forallb (fun x => negb ((x =? 0x22) || (x =? 0x27))%N) l
                      = true -> False).
  { intros l Hl Hall. rewrite forallb_forall in Hall.
    specialize (Hall c Hl). destruct Hc as [-> | ->]; discriminate. }
  destruct (build_match_query_parts _ _ _ Hq) as [parts [-> Hparts]].
  apply or_join_In in Hin.
  destruct Hin as [H | [H | [H | [p [Hp H]]]]];
    try exact (Hlit _ H eq_refl).
  destruct (Hparts p Hp) as [-> | ->].
  - apply (and_group_clean c (lit "text_tok:") _ Hc) in H; [exact H|].
    intros H'. exact (Hlit _ H' eq_refl).
  - apply (and_group_clean c (lit "reading_tok:") _ Hc) in H; [exact H|].
    intros H'. exact (Hlit _ H' eq_refl).
Qed.

Lemma build_match_query_no_quotes_witness :
  build_match_query Fixtures.whole_tokenizer (lit " ab'c ")
  = Some (lit "(text_tok:abc) OR (reading_tok:abc)")
  /\ ~ In 0x27%N (lit "(text_tok:abc) OR (reading_tok:abc)").
Proof.
  assert (H : build_match_query Fixtures.whole_tokenizer (lit " ab'c ")
              = Some (lit "(text_tok:abc) OR (reading_tok:abc)"))
    by (vm_compute; reflexivity).
  split; [exact H|].
  apply (build_match_query_no_quotes _ _ _ 0x27%N H). right. reflexivity.
Defined.

End RetrieverProps.

(* ===================================================================== *)
(** ** Properties of ingest and of the build loop *)
(* ===================================================================== *)

Module IngestProps.
Import BuildIndex.

(** SELECT ... FROM entries WHERE id = ?, as a lookup of the stored
    entry. *)
Definition lookup_entry (st : Store) (i : str) : option Entry :=
  snd <$> List.find (fun re => str_eqb (id (snd re)) i) (entries st).

(** No two rows of [entries] have the same id, or the same rowid, and
    every row of [fts] carries the rowid of a row of [entries]. *)
Definition well_formed (st : Store) : Prop :=
  NoDup (map (fun re => id (snd re)) (entries st))
  /\ NoDup (map fst (entries st))
  /\ forall r, In r (fts st) -> exists e, In (fts_rowid r, e) (entries st).

Lemma find_id_Some (st : Store) (i : str) (re : Z * Entry) :
  List.find (fun re => str_eqb (id (snd re)) i) (entries st) = Some re ->
  In re (entries st) /\ id (snd re) = i.
Proof.
  intros H. apply find_some in H. destruct H as [Hin Hid].
  split; [exact Hin|]. unfold str_eqb in Hid.
  rewrite bool_decide_eq_true in Hid. exact Hid.
Qed.

Lemma find_id_None (st : Store) (i : str) :
  List.find (fun re => str_eqb (id (snd re)) i) (entries st) = None ->
  ~ In i (map (fun re => id (snd re)) (entries st)).
Proof.
  intros H Hin. apply in_map_iff in Hin. destruct Hin as [re [Hid Hre]].
  pose proof (find_none _ _ H re Hre) as Hf. unfold str_eqb in Hf.
  rewrite bool_decide_eq_false in Hf. auto.
Qed.

Lemma find_id_app (l k : list (Z * Entry)) (i : str) :
  List.find (fun re => str_eqb (id (snd re)) i) (l ++ k)
  = match List.find (fun re => str_eqb (id (snd re)) i) l with
    | Some re => Some re
    | None => List.find (fun re => str_eqb (id (snd re)) i) k
    end.
Proof.
  induction l as [|x l IH]; simpl; [reflexivity|].
  destruct (str_eqb (id (snd x)) i); [reflexivity|exact IH].
Qed.

Lemma rowid_le_max (l : list Z) (z : Z) :
  In z l -> (z <= fold_right Z.max 0 l)%Z.
Proof.
  induction l as [|a l IH]; simpl; [intros []|].
  intros [-> | H]; [lia|]. specialize (IH H). lia.
Qed.

Lemma next_rowid_fresh (st : Store) :
  ~ In (next_rowid st) (map fst (entries st)).
Proof.
  unfold next_rowid. intros H. apply rowid_le_max in H. lia.
Qed.

(** What INSERT OR IGNORE does to a lookup by id. *)
Lemma insert_or_ignore_lookup (st : Store) (row : Entry) (j : str) :
  lookup_entry (insert_or_ignore st row) j
  = if str_eqb j (id row)
    then Some (default row (lookup_entry st j))
    else lookup_entry st j.
Proof.
  unfold insert_or_ignore, select_rowid, lookup_entry.
  destruct (str_eqb j (id row)) eqn:Ej.
  - unfold str_eqb in Ej. rewrite bool_decide_eq_true in Ej. subst j.
    destruct (List.find (fun re => str_eqb (id (snd re)) (id row)) (entries st))
      as [re|] eqn:E; simpl.
    + rewrite E. reflexivity.
    + rewrite find_id_app, E. simpl. unfold str_eqb.
      rewrite bool_decide_eq_true_2 by reflexivity. reflexivity.
  - unfold str_eqb in Ej. rewrite bool_decide_eq_false in Ej.
    destruct (List.find (fun re => str_eqb (id (snd re)) (id row)) (entries st));
      simpl; [reflexivity|].
    rewrite find_id_app.
    destruct (List.find (fun re => str_eqb (id (snd re)) j) (entries st));
      [reflexivity|].
    simpl. unfold str_eqb. rewrite bool_decide_eq_false_2 by congruence.
    reflexivity.
Qed.

Lemma insert_or_ignore_selects (st : Store) (row : Entry) :
  exists rid e,
    select_rowid (insert_or_ignore st row) (id row) = Some rid
    /\ In (rid, e) (entries (insert_or_ignore st row)).
Proof.
  unfold insert_or_ignore, select_rowid.
  destruct (List.find _ (entries st)) as [[rid e]|] eqn:E; simpl.
  - rewrite ?E. exists rid, e. split; [reflexivity|].
    apply find_id_Some in E. tauto.
  - rewrite find_id_app, ?E. simpl. unfold str_eqb.
    rewrite bool_decide_eq_true_2 by reflexivity.
    exists (next_rowid st), row. split; [reflexivity|].
    apply in_or_app. simpl. auto.
Qed.

Lemma insert_or_ignore_entries (st : Store) (row : Entry) (re : Z * Entry) :
  In re (entries st) -> In re (entries (insert_or_ignore st row)).
Proof.
  unfold insert_or_ignore. destruct (select_rowid st (id row)); [auto|].
  simpl. intros H. apply in_or_app. auto.
Qed.

Lemma insert_or_ignore_well_formed (st : Store) (row : Entry) :
  well_formed st -> well_formed (insert_or_ignore st row).
Proof.
  intros [Hid [Hrow Hfts]]. unfold insert_or_ignore, select_rowid.
  destruct (List.find _ (entries st)) as [re|] eqn:E; simpl;
    [repeat split; assumption|].
  split; [|split]; cbn [entries fts].
  - rewrite map_app. apply NoDup_app. split; [exact Hid|].
    split; [|apply NoDup_singleton].
    intros x Hx Hx'. apply list_elem_of_In in Hx, Hx'.
    destruct Hx' as [<- | []]. exact (find_id_None _ _ E Hx).
  - rewrite map_app. apply NoDup_app. split; [exact Hrow|].
    split; [|apply NoDup_singleton].
    intros x Hx Hx'. apply list_elem_of_In in Hx, Hx'.
    destruct Hx' as [<- | []]. exact (next_rowid_fresh st Hx).
  - intros r Hr. destruct (Hfts r Hr) as [e He]. exists e.
    apply in_or_app. auto.
Qed.

Lemma insert_or_ignore_fts (st : Store) (row : Entry) :
  fts (insert_or_ignore st row) = fts st.
Proof.
  unfold insert_or_ignore. destruct (select_rowid st (id row)); reflexivity.
Qed.

(** What [insert_entry] returns: the [entries] table after INSERT OR
    IGNORE and one more [fts] row, which carries the rowid of a stored
    entry. *)
Lemma insert_entry_spec (nf : str -> str) (tokenize : str -> list Morpheme)
    (st : Store) (row : Entry) :
  exists rid e tt rt,
    insert_entry nf tokenize st row
    = Return {| entries := entries (insert_or_ignore st row);
                fts := fts st ++ [{| fts_rowid := rid; text_tok := tt;
                                     reading_tok := rt |}] |}
    /\ In (rid, e) (entries (insert_or_ignore st row)).
Proof.
  destruct (insert_or_ignore_selects st row) as [rid [e [Hsel Hin]]].
  unfold insert_entry. rewrite Hsel. unfold insert_fts.
  rewrite insert_or_ignore_fts. eauto 6.
Qed.

(** X7. When [insert_entry] returns, a lookup by the id of the ingested
    record gives the entry that was stored first under that id, the
    record itself if there was none; lookups by other ids are
    unchanged. *)
Theorem insert_entry_first_write_wins (nf : str -> str)
    (tokenize : str -> list Morpheme) (st st' : Store) (row : Entry) :
  insert_entry nf tokenize st row = Return st' ->
  forall j,
    lookup_entry st' j
    = if str_eqb j (id row)
      then Some (default row (lookup_entry st j))
      else lookup_entry st j.
Proof.
  intros Hret j.
  destruct (insert_entry_spec nf tokenize st row) as [rid [e [tt [rt [H _]]]]].
  assert (Est : st' = {| entries := entries (insert_or_ignore st row);
                         fts := fts st ++ [{| fts_rowid := rid; text_tok := tt;
                                              reading_tok := rt |}] |})
    by congruence.
  subst st'. exact (insert_or_ignore_lookup st row j).
Qed.

(** The store an ingest returns, the empty one when it raises. *)
Definition store_of (o : Outcome Store) : Store :=
  match o with
  | Return st => st
  | Raise _ => empty_store
  end.

(** The record of the fixtures with another text. *)
Definition demo_entry_again : Entry :=
  {| id := id Fixtures.demo_entry;
     media_type := media_type Fixtures.demo_entry;
     title := title Fixtures.demo_entry;
     episode_or_track := episode_or_track Fixtures.demo_entry;
     media_path := media_path Fixtures.demo_entry;
     source_path := source_path Fixtures.demo_entry;
     start_ms := start_ms Fixtures.demo_entry;
     end_ms := end_ms Fixtures.demo_entry;
     text := lit "goodbye";
     context_prev := []; context_next := [] |}.

Lemma insert_entry_first_write_wins_witness :
  lookup_entry
    (store_of
       (insert_entry Fixtures.inert_nfkc Fixtures.whole_tokenizer
          (store_of
             (insert_entry Fixtures.inert_nfkc Fixtures.whole_tokenizer
                empty_store Fixtures.demo_entry))
          demo_entry_again))
    (id Fixtures.demo_entry)
  = Some Fixtures.demo_entry.
Proof.
  exact (insert_entry_first_write_wins Fixtures.inert_nfkc
           Fixtures.whole_tokenizer
           (store_of
              (insert_entry Fixtures.inert_nfkc Fixtures.whole_tokenizer
                 empty_store Fixtures.demo_entry))
           (store_of
              (insert_entry Fixtures.inert_nfkc Fixtures.whole_tokenizer
                 (store_of
                    (insert_entry Fixtures.inert_nfkc Fixtures.whole_tokenizer
                       empty_store Fixtures.demo_entry))
                 demo_entry_again))
           demo_entry_again eq_refl (id Fixtures.demo_entry)).
Defined.

Lemma insert_fts_well_formed (st : Store) (r : FtsRow) (e : Entry) :
  well_formed st -> In (fts_rowid r, e) (entries st) ->
  well_formed (insert_fts st r).
Proof.
  intros [Hid [Hrow Hfts]] Hin. unfold insert_fts.
  split; [exact Hid|]. split; [exact Hrow|]. cbn [fts entries].
  intros r' Hr'. apply in_app_or in Hr'.
  destruct Hr' as [Hr' | [<- | []]]; [auto|]. exists e. exact Hin.
Qed.

Lemma select_rowid_In (st : Store) (i : str) (rid : Z) :
  select_rowid st i = Some rid -> exists e, In (rid, e) (entries st).
Proof.
  unfold select_rowid.
  destruct (List.find _ (entries st)) as [[rid' e]|] eqn:E; [|discriminate].
  intros [= <-]. exists e. apply find_id_Some in E. tauto.
Qed.

(** X8. Ingest keeps the store well formed: after [insert_entry] and
    after [insert_batch], no two entries share an id or a rowid, and every
    row of the index carries the rowid of a stored entry. *)
Theorem ingest_keeps_well_formed (nf : str -> str)
    (tokenize : str -> list Morpheme) (st : Store) (row : Entry)
    (batch : list Entry) :
  well_formed st ->
  (forall st', insert_entry nf tokenize st row = Return st' -> well_formed st')
  /\ well_formed (insert_batch nf tokenize st batch).
Proof.
  intros Hwf. split.
  - intros st' H.
    destruct (insert_entry_spec nf tokenize st row)
      as [rid [e [tt [rt [H' Hin]]]]].
    rewrite H' in H. injection H as <-.
    pose proof (insert_or_ignore_well_formed st row Hwf) as Hwf'.
    pose proof (insert_fts_well_formed (insert_or_ignore st row)
                  {| fts_rowid := rid; text_tok := tt; reading_tok := rt |}
                  e Hwf' Hin) as Hgoal.
    unfold insert_fts in Hgoal. rewrite insert_or_ignore_fts in Hgoal.
    exact Hgoal.
  - unfold insert_batch.
    apply PyStrFacts.fold_left_invariant.
    + apply PyStrFacts.fold_left_invariant; [exact Hwf|].
      intros st0 x _ H0. apply insert_or_ignore_well_formed, H0.
    + intros st0 x _ H0.
      destruct (select_rowid st0 (id x)) as [rid|] eqn:E; [|exact H0].
      destruct (select_rowid_In _ _ _ E) as [e He].
      apply (insert_fts_well_formed st0 _ e H0). exact He.
Qed.

Lemma empty_store_well_formed : well_formed empty_store.
Proof.
  split; [constructor|]. split; [constructor|]. intros r0 [].
Qed.

Lemma ingest_keeps_well_formed_witness :
  (forall st',
     insert_entry Fixtures.inert_nfkc Fixtures.whole_tokenizer empty_store
       Fixtures.demo_entry = Return st' -> well_formed st')
  /\ well_formed
       (insert_batch Fixtures.inert_nfkc Fixtures.whole_tokenizer empty_store
          [Fixtures.demo_entry; Fixtures.demo_entry]).
Proof.
  exact (ingest_keeps_well_formed Fixtures.inert_nfkc Fixtures.whole_tokenizer
           empty_store Fixtures.demo_entry
           [Fixtures.demo_entry; Fixtures.demo_entry]
           empty_store_well_formed).
Defined.

Lemma reading_kana_agree (tokenize : str -> list Morpheme) (text : str) :
  (forall m, In m (tokenize text) -> reading_form m <> lit "*") ->
  tokenize_reading_kana tokenize text = tokenize_reading_kana_gui tokenize text.
Proof.
  intros H. unfold tokenize_reading_kana, tokenize_reading_kana_gui.
  f_equal. apply map_ext_in. intros m Hm. specialize (H m Hm).
  destruct (reading_form m) as [|c r] eqn:E; [reflexivity|].
  cbn [or_str]. unfold str_eqb.
  rewrite bool_decide_eq_false_2 by discriminate.
  rewrite bool_decide_eq_false_2 by exact H. reflexivity.
Qed.

(** X9. The two index builders agree unless the analyzer reports a
    reading as [*]: when no morpheme of the cleaned text has that
    reading, [insert_entry] of [build_index.py] returns the store that
    [insert_batch] of [indexer_gui.py] gives for the one-record batch. *)
Theorem index_builders_agree (nf : str -> str)
    (tokenize : str -> list Morpheme) (st : Store) (row : Entry) :
  (forall m, In m (tokenize (jp_clean nf (text row))) ->
             reading_form m <> lit "*") ->
  insert_entry nf tokenize st row
  = Return (insert_batch nf tokenize st [row]).
Proof.
  intros H. unfold insert_entry, insert_batch. cbn [fold_left].
  destruct (insert_or_ignore_selects st row) as [rid [e [Hsel _]]].
  rewrite Hsel. rewrite (reading_kana_agree tokenize _ H). reflexivity.
Qed.

Lemma whole_tokenizer_no_star :
  forall m,
    In m (Fixtures.whole_tokenizer
            (jp_clean Fixtures.inert_nfkc (text Fixtures.demo_entry))) ->
    reading_form m <> lit "*".
Proof.
  intros m Hm. vm_compute in Hm. destruct Hm as [<- | []]. discriminate.
Qed.

Lemma index_builders_agree_witness :
  text Fixtures.demo_entry = lit "hello"
  /\ insert_entry Fixtures.inert_nfkc Fixtures.whole_tokenizer empty_store
       Fixtures.demo_entry
     = Return (insert_batch Fixtures.inert_nfkc Fixtures.whole_tokenizer
                 empty_store [Fixtures.demo_entry]).
Proof.
  split; [reflexivity|].
  exact (index_builders_agree Fixtures.inert_nfkc Fixtures.whole_tokenizer
           empty_store Fixtures.demo_entry whole_tokenizer_no_star).
Defined.

Lemma insert_or_ignore_grows (st : Store) (row : Entry) :
  length (entries st) <= length (entries (insert_or_ignore st row))
  /\ length (entries (insert_or_ignore st row)) <= S (length (entries st))
  /\ forall re, In re (entries (insert_or_ignore st row)) ->
                In re (entries st) \/ snd re = row.
Proof.
  unfold insert_or_ignore. destruct (select_rowid st (id row)); simpl.
  - split; [lia|]. split; [lia|auto].
  - rewrite length_app. simpl. split; [lia|]. split; [lia|].
    intros re H. apply in_app_or in H. destruct H as [H | [<- | []]]; auto.
Qed.

Lemma build_step_skip (nf : str -> str) (tokenize : str -> list Morpheme)
    (st : Store) (n : nat) (o : Entry) :
  jp_clean nf (text o) = [] ->
  Build.build_step nf tokenize (Return (st, n)) o = Return (st, n).
Proof.
  intros H. unfold Build.build_step. cbn [Build.clean_record text].
  rewrite H. reflexivity.
Qed.

Lemma build_step_kept (nf : str -> str) (tokenize : str -> list Morpheme)
    (st : Store) (n : nat) (o : Entry) :
  jp_clean nf (text o) <> [] ->
  Build.build_step nf tokenize (Return (st, n)) o
  = match insert_entry nf tokenize st (Build.clean_record nf o) with
    | Return st' => Return (st', S n)
    | Raise msg => Raise msg
    end.
Proof.
  intros H. unfold Build.build_step. cbn [Build.clean_record text].
  destruct (jp_clean nf (text o)); [congruence|reflexivity].
Qed.

Lemma build_from (nf : str -> str) (tokenize : str -> list Morpheme)
    (objs : list Entry) (st : Store) (n : nat) :
  let kept :=
    List.filter (fun o => negb (str_eqb (jp_clean nf (text o)) [])) objs in
  exists st',
    fold_left (Build.build_step nf tokenize) objs (Return (st, n))
    = Return (st', n + length kept)
    /\ length (fts st') = length (fts st) + length kept
    /\ length (entries st) <= length (entries st')
    /\ length (entries st') <= length (entries st) + length kept
    /\ forall re, In re (entries st') ->
         In re (entries st)
         \/ exists o, In o kept /\ snd re = Build.clean_record nf o.
Proof.
  revert st n. induction objs as [|o objs IH]; intros st n; cbn zeta.
  - exists st. simpl. rewrite !Nat.add_0_r. repeat split; auto.
  - cbn [fold_left List.filter].
    destruct (decide (jp_clean nf (text o) = [])) as [Et | Et].
    + rewrite (build_step_skip _ _ _ _ _ Et).
      assert (Eb : str_eqb (jp_clean nf (text o)) [] = true)
        by (apply bool_decide_eq_true_2, Et).
      rewrite !Eb. cbn [negb].
      destruct (IH st n) as [st' [H1 [H2 [H3 [H4 H5]]]]].
      exists st'. repeat split; assumption.
    + rewrite (build_step_kept _ _ _ _ _ Et).
      assert (Eb : str_eqb (jp_clean nf (text o)) [] = false)
        by (apply bool_decide_eq_false_2, Et).
      rewrite !Eb. cbn [negb length].
      destruct (insert_entry_spec nf tokenize st (Build.clean_record nf o))
        as [rid [e [tt [rt [Hins _]]]]].
      rewrite Hins.
      match goal with
      | |- context [fold_left _ objs (Return (?s, _))] =>
          destruct (IH s (S n)) as [st' [H1 [H2 [H3 [H4 H5]]]]]
      end.
      cbn [entries fts] in H2, H3, H4, H5.
      rewrite length_app in H2. cbn [length] in H2.
      pose proof (insert_or_ignore_grows st (Build.clean_record nf o))
        as [G1 [G2 G3]].
      exists st'. split; [rewrite H1; f_equal; f_equal; lia|].
      split; [lia|]. split; [lia|]. split; [lia|].
      intros re Hre. destruct (H5 re Hre) as [Hin | [o' [Ho' Hc]]].
      * destruct (G3 re Hin) as [Hst | Hrow]; [auto|].
        right. exists o. split; [simpl; auto|exact Hrow].
      * right. exists o'. split; [simpl; auto|exact Hc].
Qed.

Lemma build_line_raised (nf : str -> str) (tokenize : str -> list Morpheme)
    (loads : str -> Outcome Entry) (lines : list str) (msg : str) :
  fold_left (Build.build_line nf tokenize loads) lines (Raise msg) = Raise msg.
Proof.
  induction lines as [|l lines IH]; [reflexivity|exact IH].
Qed.

(** A run of the loop that returns has decoded every non-blank line, and
    is the run of the loop body over the decoded records. *)
Lemma build_lines_records (nf : str -> str) (tokenize : str -> list Morpheme)
    (loads : str -> Outcome Entry) (lines : list str) (st : Store) (n : nat)
    (r : Store * nat) :
  fold_left (Build.build_line nf tokenize loads) lines (Return (st, n))
  = Return r ->
  exists objs,
    Forall2 (fun line obj => loads line = Return obj)
      (List.filter (fun l => negb (str_eqb l [])) (map strip lines)) objs
    /\ fold_left (Build.build_step nf tokenize) objs (Return (st, n))
       = Return r.
Proof.
  revert st n. induction lines as [|line lines IH]; intros st n.
  - simpl. intros H. exists []. split; [constructor | exact H].
  - cbn [fold_left map List.filter]. unfold Build.build_line at 2.
    destruct (strip line) as [|c l] eqn:Es.
    + intros H. exact (IH st n H).
    + assert (Eb : str_eqb (c :: l) [] = false)
        by (apply bool_decide_eq_false_2; discriminate).
      rewrite Eb. cbn [negb].
      destruct (loads (c :: l)) as [obj|msg] eqn:El.
      * destruct (Build.build_step nf tokenize (Return (st, n)) obj)
          as [[st2 n2]|msg] eqn:Eb2.
        -- intros H. destruct (IH st2 n2 H) as [objs [F Hf]].
           exists (obj :: objs). split; [constructor; assumption|].
           cbn [fold_left]. rewrite Eb2. exact Hf.
        -- rewrite build_line_raised. discriminate.
      * rewrite build_line_raised. discriminate.
Qed.

(** X10. When [build] returns, every line of the file that is not blank
    has been decoded, the number it reports is the number of decoded
    records whose cleaned text is not empty, and it is the number of rows
    added to the index; the [entries] table has grown by at most that
    number, and every entry it has gained is such a record with its text
    and its two context fields cleaned. *)
Theorem build_counts (nf : str -> str) (tokenize : str -> list Morpheme)
    (loads : str -> Outcome Entry) (st st' : Store) (lines : list str)
    (total : nat) :
  Build.build nf tokenize loads st lines = Return (st', total) ->
  exists objs,
    Forall2 (fun line obj => loads line = Return obj)
      (List.filter (fun l => negb (str_eqb l [])) (map strip lines)) objs
    /\ let kept :=
         List.filter (fun o => negb (str_eqb (jp_clean nf (text o)) []))
           objs in
       total = length kept
       /\ length (fts st') = length (fts st) + total
       /\ length (entries st) <= length (entries st')
       /\ length (entries st') <= length (entries st) + total
       /\ forall re, In re (entries st') ->
            In re (entries st)
            \/ exists o, In o kept /\ snd re = Build.clean_record nf o.
Proof.
  intros Hret. unfold Build.build in Hret.
  apply build_lines_records in Hret. destruct Hret as [objs [F Hf]].
  exists objs. split; [exact F|]. cbn zeta.
  destruct (build_from nf tokenize objs st 0) as [st2 [H1 [H2 [H3 [H4 H5]]]]].
  rewrite H1 in Hf. cbn [Nat.add] in Hf.
  assert (E1 : st2 = st') by congruence.
  assert (E2 : length (List.filter
                         (fun o => negb (str_eqb (jp_clean nf (text o)) []))
                         objs) = total) by congruence.
  subst st2. rewrite <- E2. repeat split; auto.
Qed.

(** A decoder that knows one line. *)
Definition demo_loads (line : str) : Outcome Entry :=
  if str_eqb line (lit "{demo}") then Return Fixtures.demo_entry
  else Raise (lit "JSONDecodeError").

Lemma build_counts_witness :
  exists objs,
    Forall2 (fun line obj => demo_loads line = Return obj) [lit "{demo}"] objs
    /\ 1 = length (List.filter
                     (fun o => negb (str_eqb
                                       (jp_clean Fixtures.inert_nfkc (text o))
                                       []))
                     objs).
Proof.
  destruct (build_counts Fixtures.inert_nfkc Fixtures.whole_tokenizer
              demo_loads empty_store
              (store_of
                 (insert_entry Fixtures.inert_nfkc Fixtures.whole_tokenizer
                    empty_store Fixtures.demo_entry))
              [lit " {demo} "; lit "  "] 1 eq_refl)
    as [objs [F [Ht _]]].
  exists objs. split; [exact F | exact Ht].
Defined.

End IngestProps.

(* ===================================================================== *)
(** ** Properties of the rendering *)
(* ===================================================================== *)

Module RenderProps.
Import Highlight.

(** The five code points [html.escape] replaces: the ampersand, the two
    angle brackets and the two quotes. *)
Definition is_html_special (c : N) : bool :=
  ((c =? 0x26) || (c =? 0x3C) || (c =? 0x3E) || (c =? 0x22) || (c =? 0x27))%N.

(** X11. The output of [html_escape] holds no angle bracket and no quote,
    and a text without any of the five special code points is returned as
    it is. *)
Theorem html_escape_safe (s : str) :
  (forall c, In c (html_escape s) ->
     c <> 0x3C%N /\ c <> 0x3E%N /\ c <> 0x22%N /\ c <> 0x27%N)
  /\ ((forall c, In c s -> is_html_special c = false) -> html_escape s = s).
Proof.
  unfold html_escape. split.
  - intros c H. apply in_flat_map in H. destruct H as [x [_ H]].
    destruct (N.eqb_spec x 0x26);
      [vm_compute in H;
       repeat (destruct H as [<- | H]; [repeat split; discriminate|]);
       destruct H|].
    destruct (N.eqb_spec x 0x3C);
      [vm_compute in H;
       repeat (destruct H as [<- | H]; [repeat split; discriminate|]);
       destruct H|].
    destruct (N.eqb_spec x 0x3E);
      [vm_compute in H;
       repeat (destruct H as [<- | H]; [repeat split; discriminate|]);
       destruct H|].
    destruct (N.eqb_spec x 0x22);
      [vm_compute in H;
       repeat (destruct H as [<- | H]; [repeat split; discriminate|]);
       destruct H|].
    destruct (N.eqb_spec x 0x27);
      [vm_compute in H;
       repeat (destruct H as [<- | H]; [repeat split; discriminate|]);
       destruct H|].
    destruct H as [<- | []]. repeat split; assumption.
  - induction s as [|x s IH]; intros H; [reflexivity|].
    cbn [flat_map]. rewrite IH by (intros c Hc; apply H; simpl; auto).
    specialize (H x ltac:(simpl; auto)). unfold is_html_special in H.
    repeat (apply orb_false_iff in H; destruct H as [H ?]).
    repeat match goal with E : (_ =? _)%N = false |- _ => rewrite E; clear E end.
    reflexivity.
Qed.

Lemma html_escape_safe_witness :
  lit "ab" = lit "ab"
  /\ html_escape (lit "ab") = lit "ab".
Proof.
  split; [reflexivity|].
  apply (proj2 (html_escape_safe (lit "ab"))).
  intros c Hc. vm_compute in Hc.
  repeat (destruct Hc as [<- | Hc]; [reflexivity|]). destruct Hc.
Defined.

Lemma occurrences_absent (fuel : nat) (text p : str) :
  contains p text = false -> occurrences fuel text p 0 = [].
Proof.
  intros H. destruct fuel as [|fuel]; [reflexivity|]. simpl.
  destruct (find text p 0) as [i|] eqn:E; [|reflexivity].
  apply PyStrFacts.find_spec in E. destruct E as [_ E].
  assert (Hc : contains p text = true) by (apply PyStrFacts.contains_spec; destruct E as [pre [post [E _]]]; eauto).
  congruence.
Qed.

Lemma flat_map_nil {A B} (f : A -> list B) (l : list A) :
  (forall x, In x l -> f x = []) -> flat_map f l = [].
Proof.
  induction l as [|x l IH]; intros H; [reflexivity|].
  simpl. rewrite (H x) by (simpl; auto).
  apply IH. intros y Hy. apply H. simpl. auto.
Qed.

(** X12. When no non-empty phrase occurs in the text and no morpheme of
    the text is a query token, [build_highlight_html] returns the escaped
    text, with no markup. *)
Theorem nothing_to_highlight (tokenize : str -> list Morpheme) (text : str)
    (phrases : list str) (surf_qset read_qset : gset str) :
  (forall p, In p phrases -> p <> [] -> contains p text = false) ->
  (forall m, In m (tokenize text) ->
     is_query_token surf_qset read_qset m = false) ->
  highlight_spans tokenize text phrases surf_qset read_qset = []
  /\ build_highlight_html tokenize text phrases surf_qset read_qset
     = html_escape text.
Proof.
  intros Hp Hm.
  assert (Hr : find_phrase_ranges text phrases = []).
  { unfold find_phrase_ranges. rewrite flat_map_nil; [reflexivity|].
    intros p Hin. destruct p; [reflexivity|].
    apply occurrences_absent, Hp; [exact Hin|discriminate]. }
  assert (Hs : highlight_spans tokenize text phrases surf_qset read_qset = []).
  { unfold highlight_spans. destruct text as [|c t]; [reflexivity|].
    rewrite Hr. unfold token_ranges. rewrite flat_map_nil; [reflexivity|].
    intros m Hin. rewrite (Hm m Hin). reflexivity. }
  split; [exact Hs|].
  unfold build_highlight_html. rewrite Hs.
  destruct text as [|c t]; [reflexivity|].
  unfold render. cbn [fold_left]. 
  replace (0 <? length (c :: t)) with true by (simpl; reflexivity).
  unfold slice. rewrite Nat.sub_0_r. cbn [drop]. rewrite firstn_all.
  cbn [app concat]. apply app_nil_r.
Qed.

Lemma nothing_to_highlight_witness :
  highlight_spans Fixtures.char_tokenizer (lit "a<b") [lit "x"]
    {[ lit "c" ]} ∅ = []
  /\ build_highlight_html Fixtures.char_tokenizer (lit "a<b") [lit "x"]
       {[ lit "c" ]} ∅
     = html_escape (lit "a<b").
Proof.
  apply (nothing_to_highlight Fixtures.char_tokenizer (lit "a<b") [lit "x"]
           {[ lit "c" ]} ∅).
  - intros p [<- | []] _. vm_compute. reflexivity.
  - intros m Hm. vm_compute in Hm.
    repeat (destruct Hm as [<- | Hm]; [vm_compute; reflexivity|]).
    destruct Hm.
Defined.

End RenderProps.

(* ===================================================================== *)
(** ** The interval operations of the highlighter on their own *)
(* ===================================================================== *)

Module IntervalProps.
Import Highlight HighlightProps.

(** A range that ends where the next begins at the latest. *)
Definition before (x y : Range) : Prop := snd x <= fst y.

Lemma StronglySorted_app_intro {A} (R : A -> A -> Prop) (l1 l2 : list A) :
  StronglySorted R l1 -> StronglySorted R l2 ->
  (forall a b, In a l1 -> In b l2 -> R a b) ->
  StronglySorted R (l1 ++ l2).
Proof.
  induction l1 as [|x l1 IH]; intros H1 H2 H; simpl; [exact H2|].
  inversion H1 as [|? ? Hl Hx]; subst. constructor.
  - apply IH; [exact Hl|exact H2|]. intros a b Ha Hb. apply H; simpl; auto.
  - rewrite List.Forall_forall in Hx |- *. intros y Hy.
    apply in_app_or in Hy. destruct Hy as [Hy | Hy]; [auto|].
    apply H; simpl; auto.
Qed.

Lemma StronglySorted_filter {A} (R : A -> A -> Prop) (f : A -> bool)
    (l : list A) :
  StronglySorted R l -> StronglySorted R (List.filter f l).
Proof.
  induction 1 as [|x l Hl IH Hx]; simpl; [constructor|].
  destruct (f x); [|exact IH]. constructor; [exact IH|].
  rewrite List.Forall_forall in Hx |- *. intros y Hy.
  apply filter_In in Hy. apply Hx. tauto.
Qed.

Lemma cut_segment_pieces (b seg : Range) :
  fst b <= snd b -> fst seg < snd seg ->
  StronglySorted before (cut_segment b seg)
  /\ forall p, In p (cut_segment b seg) ->
       fst p < snd p /\ fst seg <= fst p /\ snd p <= snd seg.
Proof.
  destruct b as [bs_s bs_e], seg as [x y]. unfold cut_segment, before.
  cbn [fst snd]. intros Hb Hseg.
  destruct (Nat.leb_spec bs_e x); destruct (Nat.leb_spec y bs_s);
    destruct (Nat.ltb_spec x bs_s); destruct (Nat.ltb_spec bs_e y);
    cbn [orb app]; split;
    try (repeat constructor; cbn [fst snd]; lia);
    intros p Hp; simpl in Hp;
    repeat (destruct Hp as [<- | Hp]; [cbn [fst snd]; lia|]);
    destruct Hp.
Qed.

Lemma flat_map_cut_pieces (b : Range) (segs : list Range) :
  fst b <= snd b ->
  StronglySorted before segs -> (forall x, In x segs -> fst x < snd x) ->
  StronglySorted before (flat_map (cut_segment b) segs)
  /\ (forall p, In p (flat_map (cut_segment b) segs) ->
        fst p < snd p
        /\ exists x, In x segs /\ fst x <= fst p /\ snd p <= snd x).
Proof.
  intros Hb Hs. induction Hs as [|x segs Hl IH Hx]; intros Hne.
  - split; [constructor|intros p []].
  - destruct IH as [IH1 IH2]; [intros y Hy; apply Hne; simpl; auto|].
    destruct (cut_segment_pieces b x Hb (Hne x ltac:(simpl; auto)))
      as [C1 C2].
    rewrite List.Forall_forall in Hx. cbn [flat_map]. split.
    + apply StronglySorted_app_intro; [exact C1|exact IH1|].
      intros p q Hp Hq. destruct (C2 p Hp) as [_ [_ Hpx]].
      destruct (IH2 q Hq) as [_ [y [Hy [Hyq _]]]].
      specialize (Hx y Hy). unfold before in *. lia.
    + intros p Hp. apply in_app_or in Hp. destruct Hp as [Hp | Hp].
      * destruct (C2 p Hp) as [H1 [H2 H3]]. split; [exact H1|].
        exists x. simpl. auto.
      * destruct (IH2 p Hp) as [H1 [y [Hy H2]]]. split; [exact H1|].
        exists y. simpl. auto.
Qed.

Lemma subtract_loop_sorted (bs segs : list Range) :
  (forall b, In b bs -> fst b <= snd b) ->
  StronglySorted before segs -> (forall x, In x segs -> fst x < snd x) ->
  StronglySorted before (subtract_loop segs bs).
Proof.
  revert segs. induction bs as [|b bs IH]; intros segs Hbs Hs Hne; simpl;
    [exact Hs|].
  destruct (flat_map_cut_pieces b segs (Hbs b ltac:(simpl; auto)) Hs Hne)
    as [F1 F2].
  destruct (flat_map (cut_segment b) segs) as [|p new] eqn:E; [constructor|].
  apply IH.
  - intros b' Hb'. apply Hbs. simpl. auto.
  - exact F1.
  - intros y Hy. apply F2, Hy.
Qed.

(** X13. The pieces of [subtract_intervals(a, bs)] are non-empty, lie
    inside [a], and hold exactly the offsets of [a] that lie in no range
    of [bs]; when no range of [bs] ends before it begins, the pieces come
    in increasing order and share no offset. *)
Theorem subtract_intervals_exact (a : Range) (bs : list Range) :
  (forall b, In b bs -> fst b <= snd b) ->
  (forall r, In r (subtract_intervals a bs) ->
     fst r < snd r /\ fst a <= fst r /\ snd r <= snd a)
  /\ (forall i, covered_by (subtract_intervals a bs) i
               <-> covers a i /\ forall b, In b bs -> ~ covers b i)
  /\ StronglySorted before (subtract_intervals a bs).
Proof.
  intros Hbs. split; [|split].
  - intros r Hr. split; [exact (subtract_intervals_nonempty _ _ _ Hr)|].
    exact (subtract_intervals_inside _ _ _ Hr).
  - intros i. apply subtract_intervals_covers.
  - destruct (Nat.lt_ge_cases (fst a) (snd a)) as [Hlt | Hge].
    + unfold subtract_intervals. apply StronglySorted_filter.
      apply subtract_loop_sorted; [exact Hbs|repeat constructor|].
      intros x [<- | []]. exact Hlt.
    + destruct (subtract_intervals a bs) as [|r rest] eqn:E; [constructor|].
      assert (Hr : In r (subtract_intervals a bs)) by (rewrite E; simpl; auto).
      pose proof (subtract_intervals_nonempty _ _ _ Hr).
      pose proof (subtract_intervals_inside _ _ _ Hr). lia.
Qed.

Lemma subtract_intervals_exact_witness :
  subtract_intervals (0, 10) [(2, 4); (6, 12)] = [(0, 2); (4, 6)]
  /\ StronglySorted before (subtract_intervals (0, 10) [(2, 4); (6, 12)]).
Proof.
  split; [vm_compute; reflexivity|].
  apply (subtract_intervals_exact (0, 10) [(2, 4); (6, 12)]).
  intros b Hb. simpl in Hb.
  repeat (destruct Hb as [<- | Hb]; [simpl; lia|]). destruct Hb.
Defined.

(** The occurrences the search loop of [find_phrase_ranges] finds, phrase
    by phrase, before they are sorted and merged. *)
Definition found_occurrences (text : str) (phrases : list str) : list Range :=
  flat_map (fun p => match p with
                     | [] => []
                     | _ => occurrences (S (length text)) text p 0
                     end) phrases.

(** A range that ends strictly before the next begins. *)
Definition well_before (x y : Range) : Prop := snd x < fst y.

Lemma range_leb_total (a b : Range) :
  range_leb a b = true \/ range_leb b a = true.
Proof.
  destruct a as [s1 e1], b as [s2 e2]. unfold range_leb. cbn [fst snd].
  destruct (Nat.ltb_spec s1 s2); destruct (Nat.ltb_spec s2 s1);
    destruct (Nat.eqb_spec s1 s2); destruct (Nat.eqb_spec s2 s1);
    destruct (Nat.leb_spec e1 e2); destruct (Nat.leb_spec e2 e1);
    simpl; auto; lia.
Qed.

Lemma range_leb_trans (a b c : Range) :
  range_leb a b = true -> range_leb b c = true -> range_leb a c = true.
Proof.
  destruct a as [s1 e1], b as [s2 e2], c as [s3 e3]. unfold range_leb.
  cbn [fst snd].
  destruct (Nat.ltb_spec s1 s2); destruct (Nat.ltb_spec s2 s3);
    destruct (Nat.ltb_spec s1 s3);
    destruct (Nat.eqb_spec s1 s2); destruct (Nat.eqb_spec s2 s3);
    destruct (Nat.eqb_spec s1 s3);
    destruct (Nat.leb_spec e1 e2); destruct (Nat.leb_spec e2 e3);
    destruct (Nat.leb_spec e1 e3);
    simpl; auto; lia.
Qed.

Lemma range_leb_start (a b : Range) :
  range_leb a b = true -> fst a <= fst b.
Proof.
  destruct a as [s1 e1], b as [s2 e2]. unfold range_leb. cbn [fst snd].
  destruct (Nat.ltb_spec s1 s2); destruct (Nat.eqb_spec s1 s2);
    simpl; intros; try lia; discriminate.
Qed.

(** The invariant of the merge loop: [merged] so far, [rest] to read. *)
Definition merge_inv (merged rest : list Range) : Prop :=
  (forall x, In x merged -> fst x < snd x)
  /\ StronglySorted well_before merged
  /\ (forall x y, In x merged -> In y rest -> fst x <= fst y).

Lemma merge_cases (merged : list Range) (s e : nat) :
  (merged = [] /\ merge_step merged (s, e) = [(s, e)])
  \/ (exists init ls le,
        merged = init ++ [(ls, le)] /\ le < s
        /\ merge_step merged (s, e) = merged ++ [(s, e)])
  \/ (exists init ls le,
        merged = init ++ [(ls, le)] /\ s <= le
        /\ merge_step merged (s, e) = init ++ [(ls, Nat.max le e)]).
Proof.
  unfold merge_step.
  destruct (last_view merged) as [[-> ->] | [init [[ls le] [-> [-> ->]]]]].
  - left. auto.
  - destruct (Nat.ltb_spec le s) as [Hlt | Hge].
    + right. left. exists init, ls, le. auto.
    + right. right. exists init, ls, le. auto.
Qed.

Lemma merge_step_inv (merged rest : list Range) (s e : nat) :
  s < e -> (forall y, In y rest -> s <= fst y) ->
  merge_inv merged ((s, e) :: rest) ->
  merge_inv (merge_step merged (s, e)) rest
  /\ forall i, covered_by merged i \/ s <= i < e ->
               covered_by (merge_step merged (s, e)) i.
Proof.
  intros Hne Hsorted [Hnon [Hord Hbefore]].
  destruct (merge_cases merged s e)
    as [[-> ->] | [[init [ls [le [-> [Hlt ->]]]]]
                  | [init [ls [le [-> [Hge ->]]]]]]].
  - split.
    + split; [intros x [<- | []]; exact Hne|].
      split; [repeat constructor|].
      intros x y [<- | []] Hy. apply Hsorted, Hy.
    + intros i [[r [[] _]] | Hi]. exists (s, e). simpl. auto.
  - assert (Hlast : In (ls, le) (init ++ [(ls, le)]))
      by (apply in_or_app; simpl; auto).
    pose proof (Hnon _ Hlast) as Hlne. cbn [fst snd] in Hlne.
    split.
    + split; [|split].
      * intros x Hx. apply in_app_or in Hx.
        destruct Hx as [Hx | [<- | []]]; [auto|exact Hne].
      * apply StronglySorted_snoc. split; [exact Hord|].
        apply StronglySorted_snoc in Hord. destruct Hord as [_ Hinit].
        intros a Ha. apply in_app_or in Ha. unfold well_before in *.
        destruct Ha as [Ha | [<- | []]]; [|cbn [fst snd]; lia].
        specialize (Hinit a Ha). cbn [fst snd] in Hinit |- *. lia.
      * intros x y Hx Hy. apply in_app_or in Hx.
        destruct Hx as [Hx | [<- | []]].
        -- apply Hbefore; [exact Hx|simpl; auto].
        -- apply Hsorted, Hy.
    + intros i [[r [Hr Hc]] | Hi].
      * exists r. split; [apply in_or_app; auto|exact Hc].
      * exists (s, e). split; [apply in_or_app; simpl; auto|exact Hi].
  - assert (Hlast : In (ls, le) (init ++ [(ls, le)]))
      by (apply in_or_app; simpl; auto).
    pose proof (Hnon _ Hlast) as Hlne. cbn [fst snd] in Hlne.
    pose proof (Hbefore _ (s, e) Hlast ltac:(simpl; auto)) as Hls.
    cbn [fst snd] in Hls.
    apply StronglySorted_snoc in Hord. destruct Hord as [Hord Hinit].
    split.
    + split; [|split].
      * intros x Hx. apply in_app_or in Hx.
        destruct Hx as [Hx | [<- | []]]; [|cbn [fst snd]; lia].
        apply Hnon, in_or_app. auto.
      * apply StronglySorted_snoc. split; [exact Hord|].
        intros a Ha. exact (Hinit a Ha).
      * intros x y Hx Hy. apply in_app_or in Hx.
        destruct Hx as [Hx | [<- | []]].
        -- apply Hbefore; [apply in_or_app; auto|simpl; auto].
        -- cbn [fst]. pose proof (Hsorted y Hy). lia.
    + intros i [[r [Hr Hc]] | Hi].
      * apply in_app_or in Hr. destruct Hr as [Hr | [<- | []]].
        -- exists r. split; [apply in_or_app; auto|exact Hc].
        -- exists (ls, Nat.max le e).
           split; [apply in_or_app; simpl; auto|].
           unfold covers in *. cbn [fst snd] in *. lia.
      * exists (ls, Nat.max le e).
        split; [apply in_or_app; simpl; auto|].
        unfold covers. cbn [fst snd]. lia.
Qed.

Lemma merge_loop_inv (rest merged : list Range) :
  (forall x, In x rest -> fst x < snd x) ->
  StronglySorted (fun a b : Range => fst a <= fst b) rest ->
  merge_inv merged rest ->
  merge_inv (fold_left merge_step rest merged) []
  /\ forall i, covered_by merged i \/ covered_by rest i ->
               covered_by (fold_left merge_step rest merged) i.
Proof.
  revert merged. induction rest as [|[s e] rest IH]; intros merged Hne Hs HI.
  - simpl. split; [exact HI|]. intros i [H | [r [[] _]]]. exact H.
  - inversion Hs as [|? ? Hs' Hfirst]; subst.
    rewrite List.Forall_forall in Hfirst.
    destruct (merge_step_inv merged rest s e) as [HI' Hcov'].
    + exact (Hne (s, e) ltac:(simpl; auto)).
    + intros y Hy. exact (Hfirst y Hy).
    + exact HI.
    + destruct (IH (merge_step merged (s, e))) as [HI'' Hcov''].
      * intros x Hx. apply Hne. simpl. auto.
      * exact Hs'.
      * exact HI'.
      * cbn [fold_left]. split; [exact HI''|].
        intros i [Hc | [r [[<- | Hr] Hc]]].
        -- apply Hcov''. left. apply Hcov'. auto.
        -- apply Hcov''. left. apply Hcov'. right. exact Hc.
        -- apply Hcov''. right. exists r. auto.
Qed.

(** X14. The ranges of [find_phrase_ranges] are non-empty, lie within the
    text, come in increasing order with a gap between one range and the
    next, and hold exactly the offsets of the occurrences the search loop
    found, each of which is an occurrence of a non-empty phrase. *)
Theorem find_phrase_ranges_structure (text : str) (phrases : list str) :
  StronglySorted well_before (find_phrase_ranges text phrases)
  /\ (forall r, In r (find_phrase_ranges text phrases) ->
        fst r < snd r <= length text)
  /\ (forall i, covered_by (find_phrase_ranges text phrases) i
               <-> covered_by (found_occurrences text phrases) i)
  /\ (forall r, In r (found_occurrences text phrases) ->
        exists p, In p phrases /\ p <> [] /\ occurs_at text p (fst r)
                  /\ snd r = fst r + length p).
Proof.
  assert (Hfound : forall r, In r (found_occurrences text phrases) ->
            exists p, In p phrases /\ p <> [] /\ occurs_at text p (fst r)
                      /\ snd r = fst r + length p)
    by exact (all_occurrences_spec text phrases).
  destruct (merge_loop_inv
              (sort range_leb (found_occurrences text phrases)) [])
    as [[_ [Hord _]] Hcov].
  - intros x Hx. apply PyStrFacts.sort_In in Hx.
    destruct (Hfound x Hx) as [p [_ [Hne [_ ->]]]].
    destruct p; [congruence|simpl; lia].
  - apply (StronglySorted_weaken (fun a b => range_leb a b = true)).
    + apply range_leb_start.
    + apply PyStrFacts.sort_sorted;
        [apply range_leb_total|apply range_leb_trans].
  - split; [intros x []|]. split; [constructor|intros x y []].
  - split; [exact Hord|]. split; [apply find_phrase_ranges_good|].
    split; [|exact Hfound].
    intros i. split.
    + intros [r [Hr Hc]].
      destruct (merged_ranges_covers _ _ _ Hr Hc) as [x [Hx Hcx]].
      exists x. split; [apply PyStrFacts.sort_In in Hx; exact Hx|exact Hcx].
    + intros [x [Hx Hc]]. apply Hcov. right. exists x.
      split; [apply PyStrFacts.sort_In; exact Hx|exact Hc].
Qed.

End IntervalProps.

(* ===================================================================== *)
(** ** The phrase filter and the highlighter together *)
(* ===================================================================== *)

Module FilterHighlightProps.
Import Highlight HighlightProps IntervalProps.

Lemma find_from_complete (p t : str) (off : nat) :
  contains p t = true -> exists i, find_from p t off = Some i.
Proof.
  revert off. induction t as [|c t IH]; intros off; simpl.
  - rewrite orb_false_r. intros ->. eauto.
  - destruct (startswith p (c :: t)); [eauto|]. simpl. intros H.
    exact (IH (S off) H).
Qed.

Lemma find_complete (text p : str) :
  contains p text = true -> exists i, find text p 0 = Some i.
Proof.
  intros H. unfold find. simpl. apply find_from_complete. exact H.
Qed.

Lemma found_covers_merged (text : str) (phrases : list str) (i : nat) :
  covered_by (found_occurrences text phrases) i ->
  covered_by (find_phrase_ranges text phrases) i.
Proof.
  intros [x [Hx Hc]].
  destruct (merge_loop_inv
              (sort range_leb (found_occurrences text phrases)) [])
    as [_ Hcov].
  - intros y Hy. apply PyStrFacts.sort_In in Hy.
    destruct (all_occurrences_spec text phrases y Hy) as [p [_ [Hne [_ ->]]]].
    destruct p; [congruence|simpl; lia].
  - apply (StronglySorted_weaken (fun a b => range_leb a b = true)).
    + apply range_leb_start.
    + apply PyStrFacts.sort_sorted;
        [apply range_leb_total|apply range_leb_trans].
  - split; [intros y []|]. split; [constructor|intros y z []].
  - apply Hcov. right. exists x.
    split; [apply PyStrFacts.sort_In; exact Hx|exact Hc].
Qed.

(** X15. A row that passes the phrase filter of [query_hits] is shown
    with every non-empty phrase highlighted: the highlighter emits
    phrase-labeled ranges that cover a whole occurrence of that phrase in
    the row's text. *)
Theorem filtered_rows_show_phrases (tokenize : str -> list Morpheme)
    (text : str) (phrases : list str) (surf_qset read_qset : gset str)
    (p : str) :
  Search.has_all phrases (Some text) = true ->
  In p phrases -> p <> [] ->
  exists k,
    occurs_at text p k
    /\ forall i, k <= i < k + length p ->
         covered_as (highlight_spans tokenize text phrases surf_qset read_qset)
           phrase i.
Proof.
  intros Hall Hp Hne. unfold Search.has_all in Hall. simpl in Hall.
  rewrite forallb_forall in Hall. specialize (Hall p Hp).
  destruct (find_complete text p Hall) as [k Hk].
  pose proof (PyStrFacts.find_spec _ _ _ _ Hk) as [_ Hocc].
  exists k. split; [exact Hocc|]. intros i Hi.
  assert (Htext : text <> []).
  { apply occurs_at_bound in Hocc. destruct text; [|discriminate].
    destruct p; [congruence|simpl in Hocc; lia]. }
  rewrite (highlight_spans_emitted tokenize text phrases surf_qset read_qset
             Htext).
  destruct (emitted_structure tokenize text phrases surf_qset read_qset)
    as [_ [_ Hcov]].
  apply Hcov.
  destruct (found_covers_merged text phrases i) as [[s e] [Hr Hc]].
  - exists (k, k + length p). split; [|exact Hi].
    unfold found_occurrences. apply in_flat_map. exists p.
    split; [exact Hp|]. destruct p as [|c p']; [congruence|].
    cbn [occurrences]. rewrite Hk. simpl. auto.
  - exists s, e. split; [apply labeled_phrase, Hr|exact Hc].
Qed.

Lemma filtered_rows_show_phrases_witness :
  Search.has_all [lit "cd"] (Some (lit "abcdef")) = true
  /\ exists k,
       occurs_at (lit "abcdef") (lit "cd") k
       /\ forall i, k <= i < k + length (lit "cd") ->
            covered_as (highlight_spans Fixtures.char_tokenizer (lit "abcdef")
                          [lit "cd"] {[ lit "a" ]} ∅)
              phrase i.
Proof.
  split; [vm_compute; reflexivity|].
  apply (filtered_rows_show_phrases Fixtures.char_tokenizer (lit "abcdef")
           [lit "cd"] {[ lit "a" ]} ∅ (lit "cd")).
  - vm_compute. reflexivity.
  - simpl. auto.
  - discriminate.
Defined.

End FilterHighlightProps.

(* ===================================================================== *)
(** ** More on the lyric parser *)
(* ===================================================================== *)

Module LrcProps.
Import BuildIndex ParseMedia.

Lemma line_entries_fields (digit_value : N -> option Z) (stem : str -> str)
    (clean : str -> str) (path line : str) (e : Entry) :
  In e (line_entries digit_value stem clean path line) ->
  text e <> []
  /\ text e = clean (strip (sub_empty digit_value line))
  /\ end_ms e = (start_ms e + 3000)%Z
  /\ media_type e = lit "song"
  /\ source_path e = path
  /\ id e = path ++ lit "|" ++ str_of_Z (start_ms e)
  /\ exists tag, In tag (finditer digit_value line)
                 /\ start_ms e = tag_start_ms digit_value tag.
Proof.
  unfold line_entries.
  destruct (finditer digit_value line) as [|t0 tags] eqn:Et; [intros []|].
  destruct (clean (strip (sub_empty digit_value line))) as [|c txt] eqn:Ec;
    [intros []|].
  intros H. apply in_map_iff in H. destruct H as [tag [<- Htag]].
  cbn [text end_ms start_ms media_type source_path id].
  split; [discriminate|]. repeat split. exists tag. auto.
Qed.

Lemma set_context_lookup (entries : list Entry) (i : nat) (e : Entry) :
  set_context entries !! i = Some e ->
  exists e0,
    entries !! i = Some e0
    /\ start_ms e = start_ms e0 /\ end_ms e = end_ms e0 /\ text e = text e0
    /\ id e = id e0 /\ media_type e = media_type e0
    /\ source_path e = source_path e0 /\ title e = title e0
    /\ context_prev e = match i with
                        | S j => default [] (text <$> entries !! j)
                        | 0 => []
                        end
    /\ context_next e = if (S i <? length entries)%nat
                        then default [] (text <$> entries !! S i) else [].
Proof.
  unfold set_context. rewrite list_lookup_imap.
  destruct (entries !! i) as [e0|]; [|discriminate].
  simpl. intros [= <-]. exists e0. cbn. repeat split; reflexivity.
Qed.

Lemma set_context_text (entries : list Entry) (j : nat) :
  text <$> set_context entries !! j = text <$> entries !! j.
Proof.
  unfold set_context. rewrite list_lookup_imap.
  destruct (entries !! j); reflexivity.
Qed.

Section WithCollaborators.
Variable digit_value : N -> option Z.
Variable stem : str -> str.
Variable clean : str -> str.
Variables path txt : str.

(** The entries of all lines, sorted by start time, before the context
    fields are set. *)
Definition sorted_entries : list Entry :=
  sort (fun a b => (start_ms a <=? start_ms b)%Z)
    (flat_map (line_entries digit_value stem clean path) (splitlines txt)).

Lemma sorted_entries_sorted :
  StronglySorted (fun a b => (start_ms a <= start_ms b)%Z) sorted_entries.
Proof.
  apply (HighlightProps.StronglySorted_weaken
           (fun a b => (start_ms a <=? start_ms b)%Z = true)).
  - intros a b H. apply Z.leb_le, H.
  - apply PyStrFacts.sort_sorted.
    + intros a b. rewrite !Z.leb_le. lia.
    + intros a b c. rewrite !Z.leb_le. lia.
Qed.

(** X16. [parse_lrc] returns its entries in the order of their start
    times. Each entry has a non-empty text, which is the cleaned text of a
    line with its time tags removed, starts at the time of a tag of that
    line, ends 3000 ms later, is of type [song] and is identified by the
    path and the start time. *)
Theorem parse_lrc_entries :
  let out := parse_lrc_with digit_value stem clean path txt in
  (forall i j a b, i < j -> out !! i = Some a -> out !! j = Some b ->
     (start_ms a <= start_ms b)%Z)
  /\ (forall e, In e out ->
        text e <> []
        /\ end_ms e = (start_ms e + 3000)%Z
        /\ media_type e = lit "song"
        /\ source_path e = path
        /\ id e = path ++ lit "|" ++ str_of_Z (start_ms e)
        /\ exists line tag,
             In line (splitlines txt)
             /\ text e = clean (strip (sub_empty digit_value line))
             /\ In tag (finditer digit_value line)
             /\ start_ms e = tag_start_ms digit_value tag).
Proof.
  cbn zeta. unfold parse_lrc_with. fold sorted_entries. split.
  - intros i j a b Hij Ha Hb.
    apply set_context_lookup in Ha, Hb.
    destruct Ha as [a0 [Ha [-> _]]], Hb as [b0 [Hb [-> _]]].
    exact (HighlightProps.StronglySorted_lookup _ _ _ _ _ _
             sorted_entries_sorted Hij Ha Hb).
  - intros e He. apply list_elem_of_In, list_elem_of_lookup in He.
    destruct He as [i Hi]. apply set_context_lookup in Hi.
    destruct Hi as [e0 [He0 [Hs [He [Ht [Hid [Hm [Hsp _]]]]]]]].
    assert (Hin : In e0 sorted_entries).
    { apply list_elem_of_In, list_elem_of_lookup. eauto. }
    unfold sorted_entries in Hin. apply PyStrFacts.sort_In in Hin.
    apply in_flat_map in Hin. destruct Hin as [line [Hline Hin]].
    apply line_entries_fields in Hin.
    destruct Hin as [F1 [F2 [F3 [F4 [F5 [F6 [tag [F7 F8]]]]]]]].
    rewrite Ht, He, Hs, Hm, Hsp, Hid.
    split; [exact F1|]. split; [exact F3|]. split; [exact F4|].
    split; [exact F5|]. split; [exact F6|].
    exists line, tag. auto.
Qed.

(** X17. In the list [parse_lrc] returns, [context_prev] of an entry is
    the text of the entry before it and [context_next] the text of the
    entry after it; they are empty for the first and for the last entry. *)
Theorem parse_lrc_context :
  let out := parse_lrc_with digit_value stem clean path txt in
  forall i e, out !! i = Some e ->
    context_prev e = match i with
                     | S j => default [] (text <$> out !! j)
                     | 0 => []
                     end
    /\ context_next e = default [] (text <$> out !! S i)
    /\ (S i = length out -> context_next e = []).
Proof.
  cbn zeta. unfold parse_lrc_with. fold sorted_entries. intros i e Hi.
  pose proof (set_context_lookup _ _ _ Hi)
    as [e0 [He0 [_ [_ [_ [_ [_ [_ [_ [Hp Hn]]]]]]]]]].
  assert (Hnext : context_next e
                  = default [] (text <$> set_context sorted_entries !! S i)).
  { rewrite Hn, set_context_text.
    destruct (Nat.ltb_spec (S i) (length sorted_entries)) as [|Hge];
      [reflexivity|].
    rewrite (lookup_ge_None_2 sorted_entries (S i)) by lia. reflexivity. }
  split; [|split].
  - rewrite Hp. destruct i as [|j]; [reflexivity|].
    rewrite set_context_text. reflexivity.
  - exact Hnext.
  - intros Hlen. rewrite Hnext.
    rewrite (lookup_ge_None_2 (set_context sorted_entries) (S i)) by lia.
    reflexivity.
Qed.
End WithCollaborators.

Lemma parse_lrc_context_witness :
  lit "la" = lit "la"
  /\ ([] : str) = default []
       (text <$> parse_lrc_with Fixtures.ascii_digit_value Fixtures.simple_stem
                   Fixtures.inert_nfkc (lit "a.lrc") (lit "[00:05] la ") !! 1).
Proof.
  split; [reflexivity|].
  refine (proj1 (proj2 (parse_lrc_context Fixtures.ascii_digit_value
            Fixtures.simple_stem Fixtures.inert_nfkc (lit "a.lrc")
            (lit "[00:05] la ") 0
            {| id := lit "a.lrc|5000"; media_type := lit "song";
               title := lit "a"; episode_or_track := []; media_path := [];
               source_path := lit "a.lrc"; start_ms := 5000; end_ms := 8000;
               text := lit "la"; context_prev := []; context_next := [] |}
            _))).
  vm_compute. reflexivity.
Defined.

End LrcProps.

(* ===================================================================== *)
(** ** Time tags of the lyric parser *)
(* ===================================================================== *)

Module TimeTagProps.
Import BuildIndex ParseMedia.

Section WithDigits.
Variable digit_value : N -> option Z.

Lemma take_digits_split (max : nat) (s ds rest : str) :
  take_digits digit_value max s = (ds, rest) ->
  length ds <= max /\ s = ds ++ rest.
Proof.
  revert s ds rest. induction max as [|k IH]; intros s ds rest; simpl.
  - destruct s; intros [= <- <-]; split; auto.
  - destruct s as [|c s']; [intros [= <- <-]; split; auto with arith|].
    destruct (is_digit digit_value c).
    + destruct (take_digits digit_value k s') as [ds' rest'] eqn:E.
      intros [= <- <-]. destruct (IH _ _ _ E) as [Hl ->].
      split; [simpl; lia | reflexivity].
    + intros [= <- <-]. split; [simpl; lia | reflexivity].
Qed.

(** The groups of a match have the lengths the pattern asks for. *)
Lemma match_time_tag_shape (s : str) (tag : TimeTag) :
  match_time_tag digit_value s = Some tag ->
  1 <= length (tag_mm tag) <= 2
  /\ length (tag_ss tag) = 2
  /\ forall f, tag_frac tag = Some f -> 1 <= length f <= 3.
Proof.
  unfold match_time_tag.
  destruct s as [|c0 r1]; [discriminate|].
  destruct (negb (c0 =? 0x5B)%N); [discriminate|].
  destruct (take_digits digit_value 2 r1) as [mm r2] eqn:Emm.
  apply take_digits_split in Emm. destruct Emm as [Hmm _].
  destruct mm as [|m0 mm]; [discriminate|].
  destruct r2 as [|c1 r3]; [discriminate|].
  destruct (negb (c1 =? 0x3A)%N); [discriminate|].
  destruct (take_digits digit_value 2 r3) as [ss r4] eqn:Ess.
  destruct (length ss =? 2) eqn:Els; [|discriminate].
  apply Nat.eqb_eq in Els. cbn [negb].
  assert (Hplain : forall t,
            match r4 with
            | c3 :: _ =>
                if (c3 =? 0x5D)%N
                then Some {| tag_mm := m0 :: mm; tag_ss := ss;
                             tag_frac := None;
                             tag_len := 1 + length (m0 :: mm) + 1 + 2 + 1 |}
                else None
            | [] => None
            end = Some t ->
            1 <= length (tag_mm t) <= 2 /\ length (tag_ss t) = 2
            /\ forall f, tag_frac t = Some f -> 1 <= length f <= 3).
  { intros t. destruct r4 as [|c3 r]; [discriminate|].
    destruct (c3 =? 0x5D)%N; [|discriminate].
    intros [= <-]. cbn [tag_mm tag_ss tag_frac].
    split; [simpl in *; lia|]. split; [exact Els|]. discriminate. }
  destruct r4 as [|c2 r5]; [apply Hplain|].
  destruct ((c2 =? 0x2E)%N || (c2 =? 0x3A)%N); [|apply Hplain].
  destruct (take_digits digit_value 3 r5) as [frac r6] eqn:Efr.
  apply take_digits_split in Efr. destruct Efr as [Hfr _].
  destruct frac as [|f0 frac]; [apply Hplain|].
  destruct r6 as [|c3 r7]; [apply Hplain|].
  destruct (c3 =? 0x5D)%N; [|apply Hplain].
  intros [= <-]. cbn [tag_mm tag_ss tag_frac].
  split; [simpl in *; lia|]. split; [exact Els|].
  intros f [= <-]. simpl in *. lia.
Qed.

(** Every match the scan reports is a match of the pattern somewhere. *)
Lemma scan_time_tags_match (s : str) (skip : nat) (tag : TimeTag) :
  In tag (fst (scan_time_tags digit_value s skip)) ->
  exists s', match_time_tag digit_value s' = Some tag.
Proof.
  revert skip. induction s as [|c s IH]; intros skip; [intros []|].
  cbn [scan_time_tags]. destruct skip as [|k]; [|apply IH].
  destruct (match_time_tag digit_value (c :: s)) as [t|] eqn:Em.
  - destruct (scan_time_tags digit_value s (tag_len t - 1)) as [tags rest] eqn:E.
    cbn [fst]. intros [<-|Hin]; [eauto|].
    apply (IH (tag_len t - 1)). rewrite E. exact Hin.
  - destruct (scan_time_tags digit_value s 0) as [tags rest] eqn:E.
    cbn [fst]. intros Hin. apply (IH 0). rewrite E. exact Hin.
Qed.

(** Without an opening bracket nothing matches, and nothing is removed. *)
Lemma scan_time_tags_no_bracket (s : str) :
  ~ In 0x5B%N s -> scan_time_tags digit_value s 0 = ([], s).
Proof.
  induction s as [|c s IH]; intros Hno; [reflexivity|].
  cbn [scan_time_tags].
  assert (Em : match_time_tag digit_value (c :: s) = None).
  { unfold match_time_tag. destruct (N.eqb_spec c 0x5B) as [->|_];
      [exfalso; apply Hno; left; reflexivity | reflexivity]. }
  rewrite Em, IH; [reflexivity|]. intros H. apply Hno. right. exact H.
Qed.

Hypothesis digit_zero : digit_value 0x30%N = Some 0%Z.
Hypothesis digit_range :
  forall c v, digit_value c = Some v -> (0 <= v <= 9)%Z.

Lemma digit_default_range (c : N) :
  (0 <= default 0 (digit_value c) <= 9)%Z.
Proof.
  destruct (digit_value c) as [v|] eqn:E; simpl; [eauto | lia].
Qed.

(** The fraction is padded with zeros on the right and read as
    milliseconds. *)
Lemma fraction_padded (f : str) :
  1 <= length f <= 3 ->
  int_of_digits digit_value (take 3 (f ++ lit "00"))
  = (int_of_digits digit_value f * 10 ^ Z.of_nat (3 - length f))%Z.
Proof.
  intros Hl. change (lit "00") with [48%N; 48%N].
  destruct f as [|a [|b [|c [|d f]]]]; simpl in Hl; try lia;
    unfold int_of_digits; simpl; rewrite ?digit_zero; simpl default.
  - change (10 ^ 2)%Z with 100%Z. lia.
  - change (10 ^ 1)%Z with 10%Z. lia.
  - change (10 ^ 0)%Z with 1%Z. lia.
Qed.

Lemma int_of_digits_bound (s : str) :
  (0 <= int_of_digits digit_value s < 10 ^ Z.of_nat (length s))%Z.
Proof.
  unfold int_of_digits.
  assert (G : forall s acc k, (0 <= acc < 10 ^ Z.of_nat k)%Z ->
            (0 <= fold_left
                    (fun acc c => (acc * 10 + default 0 (digit_value c))%Z)
                    s acc
             < 10 ^ Z.of_nat (k + length s))%Z).
  { clear s. induction s as [|c s IH]; intros acc k Hacc; simpl.
    - rewrite Nat.add_0_r. exact Hacc.
    - replace (k + S (length s)) with (S k + length s) by lia.
      apply IH. pose proof (digit_default_range c) as Hd.
      rewrite Nat2Z.inj_succ, Z.pow_succ_r by lia. lia. }
  apply (G s 0%Z 0). simpl. lia.
Qed.
End WithDigits.

(** X18. A time tag [[mm:ss.f]] found in a line starts at
    [(mm * 60 + ss) * 1000] milliseconds plus its fraction read as a
    decimal fraction of a second (one digit counts tenths, two count
    hundredths, three count milliseconds; no fraction counts 0). The
    start lies between 0 and 6039999 ms. *)
Theorem time_tag_value (digit_value : N -> option Z) (line : str)
    (tag : TimeTag) :
  digit_value 0x30%N = Some 0%Z ->
  (forall c v, digit_value c = Some v -> (0 <= v <= 9)%Z) ->
  In tag (finditer digit_value line) ->
  let int := int_of_digits digit_value in
  let frac_ms :=
    match tag_frac tag with
    | None => 0%Z
    | Some f => (int f * 10 ^ Z.of_nat (3 - length f))%Z
    end in
  tag_start_ms digit_value tag
  = ((int (tag_mm tag) * 60 + int (tag_ss tag)) * 1000 + frac_ms)%Z
  /\ (0 <= frac_ms < 1000)%Z
  /\ (0 <= tag_start_ms digit_value tag <= 6039999)%Z.
Proof.
  intros H0 Hr Hin. cbn zeta.
  apply scan_time_tags_match in Hin. destruct Hin as [s' Hm].
  apply match_time_tag_shape in Hm. destruct Hm as [Hmm [Hss Hf]].
  pose proof (int_of_digits_bound digit_value Hr (tag_mm tag)) as Bm.
  pose proof (int_of_digits_bound digit_value Hr (tag_ss tag)) as Bs.
  assert (Pm : (10 ^ Z.of_nat (length (tag_mm tag)) <= 100)%Z).
  { destruct (length (tag_mm tag)) as [|[|[|n]]]; simpl; lia. }
  rewrite Hss in Bs. change (10 ^ Z.of_nat 2)%Z with 100%Z in Bs.
  unfold tag_start_ms. destruct (tag_frac tag) as [f|].
  - specialize (Hf f eq_refl).
    rewrite (fraction_padded digit_value H0 f Hf).
    pose proof (int_of_digits_bound digit_value Hr f) as Bf.
    assert (Pf : (0 <= int_of_digits digit_value f
                       * 10 ^ Z.of_nat (3 - length f) < 1000)%Z).
    { destruct (length f) as [|[|[|[|n]]]]; simpl in *; try lia. }
    split; [reflexivity|]. split; [exact Pf|]. lia.
  - split; [reflexivity|]. split; lia.
Qed.

Lemma ascii_digit_value_range (c : N) (v : Z) :
  Fixtures.ascii_digit_value c = Some v -> (0 <= v <= 9)%Z.
Proof.
  unfold Fixtures.ascii_digit_value.
  destruct ((0x30 <=? c) && (c <=? 0x39))%N eqn:E; [|discriminate].
  intros [= <-]. apply andb_true_iff in E. destruct E as [E1 E2].
  apply N.leb_le in E1, E2. lia.
Qed.

Lemma time_tag_value_witness :
  tag_start_ms Fixtures.ascii_digit_value
    {| tag_mm := lit "01"; tag_ss := lit "02"; tag_frac := Some (lit "5");
       tag_len := 9 |} = 62500%Z.
Proof.
  pose proof (time_tag_value Fixtures.ascii_digit_value (lit "[01:02.5]la")
                {| tag_mm := lit "01"; tag_ss := lit "02";
                   tag_frac := Some (lit "5"); tag_len := 9 |}
                eq_refl ascii_digit_value_range
                (or_introl eq_refl)) as [H _].
  rewrite H. reflexivity.
Defined.

Lemma splitlines_from_chars (s cur line : str) (c : N) :
  In line (splitlines_from s cur) -> In c line -> In c s \/ In c cur.
Proof.
  remember (length s) as n eqn:Hn.
  assert (Hle : length s <= n) by lia. clear Hn.
  revert s cur Hle. induction n as [|n IH]; intros s cur Hle Hl Hc.
  - destruct s; [|simpl in Hle; lia]. simpl in Hl.
    destruct cur as [|x cur]; [destruct Hl|].
    destruct Hl as [<-|[]]. right. apply in_rev. exact Hc.
  - destruct s as [|c0 s].
    + simpl in Hl. destruct cur as [|x cur]; [destruct Hl|].
      destruct Hl as [<-|[]]. right. apply in_rev. exact Hc.
    + simpl in Hle.
      assert (Hbreak : forall s1, length s1 <= n ->
                (forall x, In x s1 -> In x s) ->
                In line (rev cur :: splitlines_from s1 []) ->
                In c (c0 :: s) \/ In c cur).
      { intros s1 H1 Hsub [<-|Hl1].
        - right. apply in_rev. exact Hc.
        - destruct (IH s1 [] H1 Hl1 Hc) as [H|[]].
          left. right. apply Hsub. exact H. }
      cbn [splitlines_from] in Hl.
      destruct (c0 =? 0x0D)%N.
      * destruct s as [|c1 s2].
        -- apply (Hbreak []); [simpl; lia | intros x [] | exact Hl].
        -- destruct (c1 =? 0x0A)%N.
           ++ apply (Hbreak s2); [simpl in Hle; lia | | exact Hl].
              intros x Hx. right. exact Hx.
           ++ apply (Hbreak (c1 :: s2)); [lia | auto | exact Hl].
      * destruct (is_line_boundary c0).
        -- apply (Hbreak s); [lia | auto | exact Hl].
        -- destruct (IH s (c0 :: cur) ltac:(lia) Hl Hc) as [H|[<-|H]].
           ++ left. right. exact H.
           ++ left. left. reflexivity.
           ++ right. exact H.
Qed.

(** X19. A lyric file without an opening square bracket has no time tag,
    so [parse_lrc] returns no entry for it, whatever its text. *)
Theorem no_bracket_no_entries (digit_value : N -> option Z)
    (stem clean : str -> str) (path txt : str) :
  ~ In 0x5B%N txt ->
  parse_lrc_with digit_value stem clean path txt = [].
Proof.
  intros Hno. unfold parse_lrc_with.
  assert (Hflat : flat_map (line_entries digit_value stem clean path)
                    (splitlines txt) = []).
  { unfold splitlines.
    assert (Hall : forall line, In line (splitlines_from txt []) ->
              line_entries digit_value stem clean path line = []).
    { intros line Hl. unfold line_entries, finditer.
      rewrite scan_time_tags_no_bracket; [reflexivity|].
      intros Hc. destruct (splitlines_from_chars _ _ _ _ Hl Hc) as [H|[]].
      exact (Hno H). }
    induction (splitlines_from txt []) as [|l ls IHl]; [reflexivity|].
    simpl. rewrite (Hall l (or_introl eq_refl)), IHl; [reflexivity|].
    intros line Hin. apply Hall. right. exact Hin. }
  rewrite Hflat. reflexivity.
Qed.

Lemma no_bracket_no_entries_witness :
  parse_lrc_with Fixtures.ascii_digit_value Fixtures.simple_stem
    Fixtures.inert_nfkc (lit "a.lrc") (lit "00:05 la") = []
  /\ length (parse_lrc_with Fixtures.ascii_digit_value Fixtures.simple_stem
               Fixtures.inert_nfkc (lit "a.lrc") (lit "[00:05] la")) = 1.
Proof.
  split; [|reflexivity].
  apply (no_bracket_no_entries Fixtures.ascii_digit_value Fixtures.simple_stem
           Fixtures.inert_nfkc (lit "a.lrc") (lit "00:05 la")).
  vm_compute. intros H. repeat (destruct H as [H|H]; [discriminate H|]).
  exact H.
Defined.

End TimeTagProps.

(* ===================================================================== *)
(** ** The lyric parser: one entry for every time tag *)
(* ===================================================================== *)

Module LrcTagProps.
Import BuildIndex ParseMedia.

Lemma insert_sorted_Permutation {A : Type} (leb : A -> A -> bool) (x : A)
    (l : list A) :
  Permutation (insert_sorted leb x l) (x :: l).
Proof.
  induction l as [|y l IH]; simpl; [reflexivity|].
  destruct (leb x y); [reflexivity|].
  rewrite IH. apply perm_swap.
Qed.

(** Sorting only changes the order. *)
Lemma sort_Permutation {A : Type} (leb : A -> A -> bool) (l : list A) :
  Permutation (sort leb l) l.
Proof.
  induction l as [|x l IH]; simpl; [reflexivity|].
  rewrite insert_sorted_Permutation, IH. reflexivity.
Qed.

(** What the claim speaks of in an entry: its times and its text. *)
Definition times_and_text (e : Entry) : Z * Z * str :=
  (start_ms e, end_ms e, text e).

Lemma set_context_times_and_text (entries : list Entry) :
  map times_and_text (set_context entries) = map times_and_text entries.
Proof.
  apply list_eq. intros i. rewrite !list_lookup_fmap.
  unfold set_context. rewrite list_lookup_imap.
  destruct (entries !! i); reflexivity.
Qed.

Section WithCollaborators.
Variable digit_value : N -> option Z.
Variable stem : str -> str.
Variable clean : str -> str.
Variable path : str.

(** The times and the text that one line of the file asks for: nothing
    when its cleaned text is empty, and otherwise one triple for every
    time tag of the line, in their order, all with the text of the line. *)
Definition line_demand (line : str) : list (Z * Z * str) :=
  match clean (strip (sub_empty digit_value line)) with
  | [] => []
  | c :: t =>
      map (fun tag =>
             (tag_start_ms digit_value tag,
              (tag_start_ms digit_value tag + 3000)%Z,
              c :: t))
          (finditer digit_value line)
  end.

Lemma line_entries_demand (line : str) :
  map times_and_text (line_entries digit_value stem clean path line)
  = line_demand line.
Proof.
  unfold line_entries, line_demand.
  destruct (finditer digit_value line) as [|t0 tags] eqn:Et.
  - destruct (clean (strip (sub_empty digit_value line))); reflexivity.
  - destruct (clean (strip (sub_empty digit_value line))) as [|c t];
      [reflexivity|].
    rewrite map_map. reflexivity.
Qed.

Lemma parse_lrc_with_demand (txt : str) :
  Permutation
    (map times_and_text (parse_lrc_with digit_value stem clean path txt))
    (flat_map line_demand (splitlines txt)).
Proof.
  unfold parse_lrc_with. rewrite set_context_times_and_text.
  rewrite (Permutation_map times_and_text (sort_Permutation _ _)).
  induction (splitlines txt) as [|line lines IH]; [reflexivity|].
  cbn [flat_map]. rewrite map_app, line_entries_demand, IH. reflexivity.
Qed.
End WithCollaborators.

(** A file written line by line: [pieces] are the terminated lines, each
    with its terminator, and [tail] is what follows the last terminator. *)
Definition file_of (pieces : list (str * str)) (tail : str) : str :=
  flat_map (fun lt => fst lt ++ snd lt) pieces ++ tail.

(** The lines of such a file: the terminated ones, and the tail when it
    is not empty. *)
Definition lines_of (pieces : list (str * str)) (tail : str) : list str :=
  map fst pieces ++ match tail with [] => [] | _ => [tail] end.

(** The code points at which [str.splitlines] ends a line: line feed,
    vertical tab, form feed, carriage return, the file, group and record
    separators, next line, line separator and paragraph separator. *)
Definition line_boundaries : list N :=
  [0x0A; 0x0B; 0x0C; 0x0D; 0x1C; 0x1D; 0x1E; 0x85; 0x2028; 0x2029]%N.

(** A line holds no line boundary. *)
Definition plain_line (l : str) : Prop :=
  forall c, In c l -> ~ In c line_boundaries.

(** A terminator is a carriage return with a line feed, or one line
    boundary other than the carriage return. *)
Definition is_terminator (t : str) : Prop :=
  t = [0x0D; 0x0A]%N
  \/ exists c, t = [c] /\ In c line_boundaries /\ c <> 0x0D%N.

Lemma is_line_boundary_spec (c : N) :
  is_line_boundary c = true <-> In c line_boundaries.
Proof.
  unfold is_line_boundary, line_boundaries. cbn [In].
  rewrite !orb_true_iff, !N.eqb_eq. intuition congruence.
Qed.

Lemma splitlines_from_plain (l rest cur : str) :
  plain_line l ->
  splitlines_from (l ++ rest) cur = splitlines_from rest (rev l ++ cur).
Proof.
  revert cur. induction l as [|c l IH]; intros cur Hl; [reflexivity|].
  assert (Hc : is_line_boundary c = false).
  { destruct (is_line_boundary c) eqn:E; [|reflexivity].
    apply is_line_boundary_spec in E.
    exfalso. exact (Hl c (or_introl eq_refl) E). }
  assert (Hcr : (c =? 0x0D)%N = false).
  { destruct (N.eqb_spec c 0x0D) as [->|]; [discriminate Hc | reflexivity]. }
  cbn [app splitlines_from]. rewrite Hcr, Hc.
  rewrite IH by (intros x Hx; apply Hl; right; exact Hx).
  cbn [rev]. rewrite <- app_assoc. reflexivity.
Qed.

Lemma splitlines_from_terminator (t rest cur : str) :
  is_terminator t ->
  splitlines_from (t ++ rest) cur = rev cur :: splitlines_from rest [].
Proof.
  intros [->|[c [-> [Hb Hne]]]]; [reflexivity|].
  apply is_line_boundary_spec in Hb.
  cbn [app splitlines_from].
  destruct (N.eqb_spec c 0x0D) as [E|_]; [contradiction|].
  rewrite Hb. reflexivity.
Qed.

(** [splitlines] gives back the lines of a file written line by line. *)
Lemma splitlines_file_of (pieces : list (str * str)) (tail : str) :
  (forall lt, In lt pieces -> plain_line (fst lt) /\ is_terminator (snd lt)) ->
  plain_line tail ->
  splitlines (file_of pieces tail) = lines_of pieces tail.
Proof.
  unfold splitlines, file_of, lines_of. intros Hp Ht.
  induction pieces as [|[l t] pieces IH].
  - cbn [flat_map map app].
    rewrite <- (app_nil_r tail) at 1.
    rewrite splitlines_from_plain by exact Ht. rewrite app_nil_r.
    cbn [splitlines_from].
    destruct tail as [|c tail]; [reflexivity|].
    destruct (rev (c :: tail)) as [|x r] eqn:Er.
    + apply (f_equal (@length N)) in Er. rewrite length_rev in Er.
      discriminate Er.
    + rewrite <- Er, rev_involutive. reflexivity.
  - destruct (Hp (l, t) (or_introl eq_refl)) as [Hl Hterm].
    cbn [flat_map map app fst snd]. rewrite <- !app_assoc.
    rewrite splitlines_from_plain by exact Hl.
    rewrite splitlines_from_terminator by exact Hterm.
    rewrite app_nil_r, rev_involutive. f_equal.
    apply IH. intros lt Hin. apply Hp. right. exact Hin.
Qed.

Lemma found_tag_start_ms (digit_value : N -> option Z) (line : str)
    (tag : TimeTag) :
  digit_value 0x30%N = Some 0%Z ->
  In tag (finditer digit_value line) ->
  tag_start_ms digit_value tag
  = ((int_of_digits digit_value (tag_mm tag) * 60
      + int_of_digits digit_value (tag_ss tag)) * 1000
     + match tag_frac tag with
       | None => 0
       | Some f =>
           int_of_digits digit_value f * 10 ^ Z.of_nat (3 - length f)
       end)%Z.
Proof.
  intros H0 Hin.
  apply TimeTagProps.scan_time_tags_match in Hin. destruct Hin as [s' Hm].
  apply TimeTagProps.match_time_tag_shape in Hm.
  destruct Hm as [_ [_ Hf]].
  unfold tag_start_ms. destruct (tag_frac tag) as [f|]; [|reflexivity].
  rewrite (TimeTagProps.fraction_padded digit_value H0 f (Hf f eq_refl)).
  reflexivity.
Qed.



End LrcTagProps.

(* ===================================================================== *)
(** ** More on the snippet cache *)
(* ===================================================================== *)

Module ClipProps.
Import Snippet.

(** On a host on which no step raises, the whole function is the body
    alone. *)
Lemma make_snippet_plain (md5_hexdigest : str -> str) (cache_dir : str)
    (ffmpeg : FfmpegArgs -> gmap str Z -> bool * gmap str Z)
    (ffmpeg_exe media : str) (start_ms end_ms pad_ms : Z) (w : World) :
  SnippetTry.make_snippet md5_hexdigest cache_dir ffmpeg SnippetTry.plain_host
    ffmpeg_exe media start_ms end_ms pad_ms w
  = make_snippet md5_hexdigest cache_dir ffmpeg ffmpeg_exe media
      start_ms end_ms pad_ms w.
Proof.
  unfold SnippetTry.make_snippet, make_snippet, SnippetTry.plain_host.
  cbn [SnippetTry.prepares SnippetTry.stats SnippetTry.builds_command negb].
  destruct (match files w !! _ with
            | Some size => (1024 <? size)%Z
            | None => false
            end); [reflexivity|].
  destruct (ffmpeg _ (files w)) as [ok files']. reflexivity.
Qed.



End ClipProps.

(* ===================================================================== *)
(** ** Properties of the media lookup *)
(* ===================================================================== *)

Module MediaProps.
Import Media.

Section WithLinks.
Context {path : Type} `{Countable path}.
Variable stem : path -> str.
Variable exists_ : path -> bool.


End WithLinks.

Lemma filter_try_spec {A : Type} (f : A -> Outcome bool) (l r : list A) :
  filter_try f l = Return r ->
  forall x, In x r -> In x l /\ f x = Return true.
Proof.
  revert r. induction l as [|y l IH]; intros r; cbn [filter_try].
  - intros [= <-] x [].
  - destruct (f y) as [b|e] eqn:Ey; [|discriminate].
    destruct (filter_try f l) as [r'|e]; [|discriminate].
    intros [= <-] x Hx. destruct b.
    + destruct Hx as [<-|Hx]; [split; [left; reflexivity | exact Ey]|].
      destruct (IH r' eq_refl x Hx). split; [right|]; assumption.
    + destruct (IH r' eq_refl x Hx). split; [right|]; assumption.
Qed.

Lemma collect_try_spec {A : Type} (l : list (Outcome (list A)))
    (r : list A) :
  collect_try l = Return r ->
  forall x, In x r -> exists xs, In (Return xs) l /\ In x xs.
Proof.
  revert r. induction l as [|o l IH]; intros r; cbn [collect_try].
  - intros [= <-] x [].
  - destruct o as [xs|e]; [|discriminate].
    destruct (collect_try l) as [ys|e]; [|discriminate].
    intros [= <-] x Hx. apply in_app_or in Hx. destruct Hx as [Hx|Hx].
    + exists xs. split; [left; reflexivity | exact Hx].
    + destruct (IH ys eq_refl x Hx) as [zs [Hz Hxz]].
      exists zs. split; [right|]; assumption.
Qed.

Section WithFileSystem.
Context {path : Type} `{Countable path}.
Variable stem : path -> str.
Variable parent : path -> path.
Variable joinpath : path -> str -> path.
Variable suffix : path -> str.
Variable py_lower : str -> str.
Variable path_exists : path -> Outcome bool.
Variable path_is_file : path -> Outcome bool.
Variable iterdir : path -> Outcome (list path).
Variable rglob : path -> str -> Outcome (list path).
Variable glob_all : path -> Outcome (list path).

Lemma dedupe_fold (candidates uniq : list path) (seen : gset path) :
  NoDup uniq -> (forall p, p ∈ seen <-> p ∈ uniq) ->
  let r := fold_left dedupe_step candidates (uniq, seen) in
  NoDup (fst r)
  /\ (forall p, p ∈ fst r <-> p ∈ uniq \/ p ∈ candidates)
  /\ exists extra, fst r = uniq ++ extra.
Proof.
  revert uniq seen. induction candidates as [|c cs IH];
    intros uniq seen Hnd Hseen; cbn zeta; cbn [fold_left].
  - cbn [fst]. split; [exact Hnd|]. split.
    + intros p. rewrite elem_of_nil. tauto.
    + exists []. rewrite app_nil_r. reflexivity.
  - destruct (bool_decide (c ∈ seen)) eqn:E.
    + assert (Es : dedupe_step (uniq, seen) c = (uniq, seen)).
      { unfold dedupe_step. rewrite E. reflexivity. }
      rewrite Es. apply bool_decide_eq_true in E.
      destruct (IH uniq seen Hnd Hseen) as [N [M X]].
      split; [exact N|]. split; [|exact X].
      intros p. rewrite M, elem_of_cons. apply Hseen in E.
      split; [tauto|]. intros [Hp|[->|Hp]]; auto.
    + assert (Es : dedupe_step (uniq, seen) c
                   = (uniq ++ [c], {[c]} ∪ seen)).
      { unfold dedupe_step. rewrite E. reflexivity. }
      rewrite Es. apply bool_decide_eq_false in E.
      assert (Hnd' : NoDup (uniq ++ [c])).
      { apply NoDup_app. split; [exact Hnd|]. split; [|apply NoDup_singleton].
        intros x Hx Hx'. apply list_elem_of_singleton in Hx'. subst x.
        apply E, Hseen, Hx. }
      assert (Hseen' : forall p, p ∈ ({[c]} ∪ seen : gset path)
                                 <-> p ∈ uniq ++ [c]).
      { intros p. rewrite elem_of_union, elem_of_singleton, elem_of_app,
          list_elem_of_singleton, Hseen. tauto. }
      destruct (IH _ _ Hnd' Hseen') as [N [M [extra X]]].
      split; [exact N|]. split.
      * intros p. rewrite M, elem_of_app, list_elem_of_singleton,
          elem_of_cons. tauto.
      * exists (c :: extra). rewrite X, <- app_assoc. reflexivity.
Qed.

Lemma dedupe_spec (candidates : list path) :
  NoDup (dedupe candidates)
  /\ forall p, p ∈ dedupe candidates <-> p ∈ candidates.
Proof.
  unfold dedupe.
  destruct (dedupe_fold candidates [] ∅ (NoDup_nil_2)) as [N [M _]].
  - intros p. rewrite elem_of_nil. set_solver.
  - split; [exact N|]. intros p. rewrite M, elem_of_nil. tauto.
Qed.

Abbreviation candidates_of :=
  (find_media_candidates stem parent joinpath suffix py_lower path_exists
     path_is_file iterdir rglob glob_all).
Abbreviation siblings_of :=
  (same_stem_siblings stem parent joinpath path_exists).
Abbreviation media_file := (is_media_file suffix py_lower path_is_file).

(** Where a candidate can come from. *)
Definition sibling_of (source_path : option path) (p : path) : Prop :=
  exists sp ext,
    source_path = Some sp /\ ext ∈ MEDIA_EXTS
    /\ p = joinpath (parent sp) (stem sp ++ ext)
    /\ path_exists p = Return true.

Definition listed_with (source_path : option path) (p : path) : Prop :=
  exists sp ps,
    source_path = Some sp /\ siblings_of sp = Return []
    /\ iterdir (parent sp) = Return ps
    /\ p ∈ ps /\ media_file p = Return true.

Definition under_root (source_path media_root : option path) (p : path)
    : Prop :=
  exists sp root ext ps,
    source_path = Some sp /\ media_root = Some root
    /\ stem sp <> [] /\ ext ∈ MEDIA_EXTS
    /\ rglob root (stem sp ++ ext) = Return ps /\ p ∈ ps.

Definition top_of_root (source_path media_root : option path) (p : path)
    : Prop :=
  exists root ps,
    media_root = Some root
    /\ (source_path = None \/ exists sp, source_path = Some sp /\ stem sp = [])
    /\ glob_all root = Return ps
    /\ p ∈ ps /\ media_file p = Return true.

Lemma siblings_of_spec (sp : path) (cs : list path) (p : path) :
  siblings_of sp = Return cs -> In p cs -> sibling_of (Some sp) p.
Proof.
  unfold same_stem_siblings. intros Hs Hin.
  destruct (filter_try_spec _ _ _ Hs p Hin) as [Hmap He].
  apply in_map_iff in Hmap. destruct Hmap as [ext [<- Hext]].
  exists sp, ext. split; [reflexivity|].
  split; [apply list_elem_of_In; exact Hext|]. split; [reflexivity | exact He].
Qed.

Lemma local_candidates_spec (source_path : option path) (cs : list path) :
  local_candidates stem parent joinpath suffix py_lower path_exists
    path_is_file iterdir source_path = Return cs ->
  (source_path = None -> cs = [])
  /\ forall p, In p cs ->
       sibling_of source_path p \/ listed_with source_path p.
Proof.
  unfold local_candidates. destruct source_path as [sp|].
  - destruct (siblings_of sp) as [[|c cs0]|e] eqn:Es; [| |discriminate].
    + destruct (iterdir (parent sp)) as [ps|e] eqn:Ei; [|discriminate].
      intros Hf. split; [discriminate|]. intros p Hp. right.
      destruct (filter_try_spec _ _ _ Hf p Hp) as [Hin Hm].
      exists sp, ps. split; [reflexivity|]. split; [exact Es|].
      split; [exact Ei|]. split; [apply list_elem_of_In; exact Hin|exact Hm].
    + intros [= <-]. split; [discriminate|]. intros p Hp. left.
      exact (siblings_of_spec sp _ p Es Hp).
  - intros [= <-]. split; [reflexivity|]. intros p [].
Qed.

Lemma with_root_candidates_spec (source_path media_root : option path)
    (cs all : list path) :
  with_root_candidates stem suffix py_lower path_is_file rglob glob_all
    source_path media_root cs = Return all ->
  (media_root = None -> all = cs)
  /\ forall p, In p all ->
       In p cs
       \/ under_root source_path media_root p
       \/ top_of_root source_path media_root p.
Proof.
  unfold with_root_candidates. destruct media_root as [root|].
  - assert (Htop : (source_path = None
                    \/ exists sp, source_path = Some sp /\ stem sp = []) ->
              match cs with
              | [] =>
                  match glob_all root with
                  | Return ps => filter_try media_file ps
                  | Raise e => Raise e
                  end
              | _ :: _ => Return cs
              end = Return all ->
              (Some root = None -> all = cs)
              /\ forall p, In p all ->
                   In p cs
                   \/ under_root source_path (Some root) p
                   \/ top_of_root source_path (Some root) p).
    { intros Hstem Hall. split; [discriminate|]. intros p Hp.
      destruct cs as [|c0 cs0].
      - destruct (glob_all root) as [ps|e] eqn:Eg; [|discriminate].
        destruct (filter_try_spec _ _ _ Hall p Hp) as [Hin Hm].
        right. right. exists root, ps. split; [reflexivity|].
        split; [exact Hstem|]. split; [exact Eg|].
        split; [apply list_elem_of_In; exact Hin | exact Hm].
      - left. congruence. }
    destruct source_path as [sp|]; cbn [option_map].
    + destruct (stem sp) as [|c st] eqn:Est.
      * apply Htop. right. exists sp. auto.
      * destruct (collect_try _) as [found|e] eqn:Ec; [|discriminate].
        intros [= <-]. split; [discriminate|]. intros p Hp.
        apply in_app_or in Hp. destruct Hp as [Hp|Hp]; [left; exact Hp|].
        right. left.
        destruct (collect_try_spec _ _ Ec p Hp) as [ps [Hps Hin]].
        apply in_map_iff in Hps. destruct Hps as [ext [Hr Hext]].
        exists sp, root, ext, ps. split; [reflexivity|].
        split; [reflexivity|]. rewrite Est. split; [discriminate|].
        split; [apply list_elem_of_In; exact Hext|].
        split; [exact Hr | apply list_elem_of_In; exact Hin].
    + apply Htop. left. reflexivity.
  - intros [= <-]. split; [reflexivity|]. intros p Hp. left. exact Hp.
Qed.

(** X22. When [find_media_candidates] returns, its list has no
    duplicates, and every path in it is a file with the stem of the
    source and a media extension that exists next to the source, or, when
    there is none, a media file of the folder of the source; or a match
    under the media root for the stem and a media extension, or, when no
    stem is known and nothing was found before, a media file at the top
    of the media root. Without a source path and without a media root the
    list is empty. *)
Theorem find_media_candidates_result (source_path media_root : option path)
    (res : list path) :
  candidates_of source_path media_root = Return res ->
  NoDup res
  /\ (source_path = None -> media_root = None -> res = [])
  /\ forall p, p ∈ res ->
       sibling_of source_path p
       \/ listed_with source_path p
       \/ under_root source_path media_root p
       \/ top_of_root source_path media_root p.
Proof.
  unfold find_media_candidates.
  destruct (local_candidates stem parent joinpath suffix py_lower path_exists
              path_is_file iterdir source_path) as [cs|e] eqn:El;
    [|discriminate].
  destruct (with_root_candidates stem suffix py_lower path_is_file rglob
              glob_all source_path media_root cs) as [all|e] eqn:Er;
    [|discriminate].
  intros [= <-].
  destruct (local_candidates_spec _ _ El) as [Hnone Hcs].
  destruct (with_root_candidates_spec _ _ _ _ Er) as [Hsame Hall].
  destruct (dedupe_spec all) as [Hnd Hmem].
  split; [exact Hnd|]. split.
  - intros Hs Hr. rewrite (Hsame Hr), (Hnone Hs). reflexivity.
  - intros p Hp. apply Hmem, list_elem_of_In in Hp.
    destruct (Hall p Hp) as [Hin|[Hu|Ht]]; [|auto|auto].
    destruct (Hcs p Hin); auto.
Qed.
End WithFileSystem.

(** A file system with the video [d/a.mkv] next to the subtitle and the
    same video found twice under the media root. *)
Definition demo_exists (p : str) : Outcome bool :=
  Return (str_eqb p (lit "d/a.mkv")).

Definition demo_rglob (root pattern : str) : Outcome (list str) :=
  Return (if str_eqb pattern (lit "a.mkv")
          then [lit "d/a.mkv"; lit "m/a.mkv"] else []).

Lemma find_media_candidates_result_witness :
  find_media_candidates (fun _ => lit "a") (fun _ => lit "d")
    (fun folder name => folder ++ lit "/" ++ name) (fun _ => lit ".srt")
    lower demo_exists (fun _ => Return true) (fun _ => Return [])
    demo_rglob (fun _ => Return [])
    (Some (lit "d/a.srt")) (Some (lit "m"))
  = Return [lit "d/a.mkv"; lit "m/a.mkv"]
  /\ NoDup [lit "d/a.mkv"; lit "m/a.mkv"].
Proof.
  assert (E : find_media_candidates (fun _ => lit "a") (fun _ => lit "d")
                (fun folder name => folder ++ lit "/" ++ name)
                (fun _ => lit ".srt")
                lower demo_exists (fun _ => Return true) (fun _ => Return [])
                demo_rglob (fun _ => Return [])
                (Some (lit "d/a.srt")) (Some (lit "m"))
              = Return [lit "d/a.mkv"; lit "m/a.mkv"]).
  { vm_compute. reflexivity. }
  split; [exact E|].
  exact (proj1 (find_media_candidates_result _ _ _ _ _ _ _ _ _ _ _ _ _ E)).
Defined.

End MediaProps.

(* ===================================================================== *)
(** ** Tokens of the query and of the index *)
(* ===================================================================== *)

Module TokenProps.

(** No white space at either end. *)
Definition trimmed (t : str) : Prop :=
  forall c, head t = Some c \/ last t = Some c -> is_space c = false.

Lemma lstrip_head (s : str) (c : N) :
  head (lstrip s) = Some c -> is_space c = false.
Proof.
  induction s as [|a s IH]; simpl; [discriminate|].
  destruct (is_space a) eqn:E; [exact IH|].
  simpl. intros [= <-]. exact E.
Qed.

Lemma lstrip_fixed (t : str) :
  (forall c, head t = Some c -> is_space c = false) -> lstrip t = t.
Proof.
  destruct t as [|a t]; [reflexivity|]. intros Hh. simpl.
  rewrite (Hh a eq_refl). reflexivity.
Qed.

Lemma last_rev_head (t : str) : last (rev t) = head t.
Proof.
  destruct t as [|a t]; [reflexivity|]. simpl. apply last_snoc.
Qed.

Lemma head_rev_last (t : str) : head (rev t) = last t.
Proof.
  rewrite <- (rev_involutive t) at 2. symmetry. apply last_rev_head.
Qed.

Lemma rstrip_last (s : str) (c : N) :
  last (rstrip s) = Some c -> is_space c = false.
Proof.
  unfold rstrip. rewrite last_rev_head. apply lstrip_head.
Qed.

Lemma rstrip_prefix (s : str) : exists b, s = rstrip s ++ b.
Proof.
  unfold rstrip. destruct (ParseQueryProps.lstrip_suffix (rev s)) as [a Ha].
  exists (rev a). rewrite <- rev_app_distr, <- Ha, rev_involutive.
  reflexivity.
Qed.

Lemma rstrip_fixed (t : str) :
  (forall c, last t = Some c -> is_space c = false) -> rstrip t = t.
Proof.
  intros Hl. unfold rstrip. rewrite lstrip_fixed; [apply rev_involutive|].
  intros c. rewrite head_rev_last. apply Hl.
Qed.

Lemma strip_trimmed (s : str) : trimmed (strip s).
Proof.
  intros c [Hh|Hl].
  - unfold strip in Hh. destruct (rstrip_prefix (lstrip s)) as [b Hb].
    apply (lstrip_head s). rewrite Hb.
    destruct (rstrip (lstrip s)) as [|x r]; [discriminate|]. exact Hh.
  - exact (rstrip_last _ _ Hl).
Qed.

Lemma trimmed_strip (t : str) : trimmed t -> strip t = t.
Proof.
  intros Ht. unfold strip. rewrite lstrip_fixed by (intros c Hc; apply Ht; auto).
  apply rstrip_fixed. intros c Hc. apply Ht. auto.
Qed.

Lemma kept_token (f : Morpheme -> str) (ms : list Morpheme) (t : str) :
  In t (List.filter (fun w => negb (str_eqb w []))
          (map (fun m => strip (f m)) ms)) ->
  t <> [] /\ exists m, In m ms /\ t = strip (f m).
Proof.
  intros Hin. apply filter_In in Hin. destruct Hin as [Hin Hne].
  apply in_map_iff in Hin. destruct Hin as [m [<- Hm]]. split; [|eauto].
  intros E. rewrite E in Hne. discriminate Hne.
Qed.

(** X23. Every token that the query path or an index builder takes from
    the analyzer is non-empty and has no white space at its start or end,
    so that stripping it again changes nothing. *)
Theorem tokens_are_trimmed (tokenize : str -> list Morpheme) (q t : str) :
  In t (Search.tokenize_surface tokenize q)
  \/ In t (Search.tokenize_reading tokenize q)
  \/ In t (BuildIndex.tokenize_surface tokenize q)
  \/ In t (BuildIndex.tokenize_reading_kana tokenize q)
  \/ In t (BuildIndex.tokenize_reading_kana_gui tokenize q) ->
  t <> [] /\ trimmed t /\ strip t = t.
Proof.
  assert (G : forall f, In t (List.filter (fun w => negb (str_eqb w []))
                                (map (fun m => strip (f m)) (tokenize q))) ->
              t <> [] /\ trimmed t /\ strip t = t).
  { intros f Hin. apply kept_token in Hin. destruct Hin as [Hne [m [_ ->]]].
    split; [exact Hne|]. split; [apply strip_trimmed|].
    apply trimmed_strip, strip_trimmed. }
  intros [Hin|[Hin|[Hin|[Hin|Hin]]]].
  - exact (G surface Hin).
  - exact (G (fun m => or_str (reading_form m) (surface m)) Hin).
  - exact (G surface Hin).
  - exact (G (fun m => if str_eqb (reading_form m) []
                          || str_eqb (reading_form m) (lit "*")
                       then surface m else reading_form m) Hin).
  - exact (G (fun m => or_str (reading_form m) (surface m)) Hin).
Qed.

Lemma tokens_are_trimmed_witness :
  In (lit "neko") (Search.tokenize_surface Fixtures.whole_tokenizer
                     (lit " neko "))
  /\ strip (lit "neko") = lit "neko".
Proof.
  assert (Hin : In (lit "neko")
                  (Search.tokenize_surface Fixtures.whole_tokenizer
                     (lit " neko "))).
  { vm_compute. left. reflexivity. }
  split; [exact Hin|].
  exact (proj2 (proj2 (tokens_are_trimmed Fixtures.whole_tokenizer
                         (lit " neko ") (lit "neko") (or_introl Hin)))).
Defined.

End TokenProps.

(* ===================================================================== *)
(** ** Properties of the subtitle parser *)
(* ===================================================================== *)

Module SubtitleProps.
Import BuildIndex ParseMedia Subtitle.

Lemma span_until_absent (c : N) (s : str) :
  ParseQuery.span_until c s = None -> ~ In c s.
Proof.
  induction s as [|x s IH]; simpl; [intros _ []|].
  destruct (N.eqb_spec x c) as [->|Hne]; [discriminate|].
  destruct (ParseQuery.span_until c s); [discriminate|].
  intros _ [E|Hin]; [congruence | exact (IH eq_refl Hin)].
Qed.

Lemma remove_blocks_In (s : str) (skip : nat) (c : N) :
  In c (remove_blocks s skip) -> In c s.
Proof.
  revert skip. induction s as [|x s IH]; intros skip; [intros []|].
  cbn [remove_blocks]. destruct skip as [|k]; [|right; eauto].
  destruct (x =? 0x7B)%N.
  - destruct (ParseQuery.span_until 0x7D s) as [g|].
    + right. eauto.
    + intros [<-|Hin]; [left; reflexivity | right; eauto].
  - intros [<-|Hin]; [left; reflexivity | right; eauto].
Qed.

Lemma remove_blocks_open (s : str) (skip : nat) (a r : str) :
  remove_blocks s skip = a ++ 0x7B%N :: r -> ~ In 0x7D%N r.
Proof.
  revert skip a. induction s as [|x s IH]; intros skip a.
  - simpl. destruct a; discriminate.
  - cbn [remove_blocks]. destruct skip as [|k]; [|apply IH].
    destruct (N.eqb_spec x 0x7B) as [->|Hne].
    + destruct (ParseQuery.span_until 0x7D s) as [g|] eqn:Eg; [apply IH|].
      destruct a as [|y a]; simpl.
      * intros [= <-] Hin. apply remove_blocks_In in Hin.
        exact (span_until_absent _ _ Eg Hin).
      * intros [= _ E]. exact (IH _ _ E).
    + destruct a as [|y a]; simpl.
      * intros [= E _]. congruence.
      * intros [= _ E]. exact (IH _ _ E).
Qed.

(** X24. When the library gives no plain text for an event, the text
    taken from it holds no override block any more: after an opening
    brace that is left, no closing brace follows. Every code point of it
    comes from the raw text of the event. *)
Theorem event_text_has_no_block (ev : Event) :
  ev_plaintext ev = None ->
  (forall a b c,
     event_text ev <> a ++ [0x7B%N] ++ b ++ [0x7D%N] ++ c)
  /\ (forall x, In x (event_text ev) -> In x (default [] (ev_text ev))).
Proof.
  intros Hp. unfold event_text. rewrite Hp. split.
  - intros a b c E. apply remove_blocks_open in E. apply E.
    apply in_or_app. right. left. reflexivity.
  - intros x. apply remove_blocks_In.
Qed.

Lemma event_text_has_no_block_witness :
  event_text {| ev_plaintext := None;
                ev_text := Some (lit "{\an8}ne{\i1}ko{");
                ev_start := 0; ev_end := 1000 |} = lit "neko{"
  /\ forall x,
       In x (event_text {| ev_plaintext := None;
                           ev_text := Some (lit "{\an8}ne{\i1}ko{");
                           ev_start := 0; ev_end := 1000 |}) ->
       In x (lit "{\an8}ne{\i1}ko{").
Proof.
  split; [reflexivity|].
  exact (proj2 (event_text_has_no_block
                  {| ev_plaintext := None;
                     ev_text := Some (lit "{\an8}ne{\i1}ko{");
                     ev_start := 0; ev_end := 1000 |} eq_refl)).
Defined.

Section WithCollaborators.
Variable stem : str -> str.
Variable clean : str -> str.
Variable path : str.

Lemma event_entries_fields (ev : Event) (e : Entry) :
  In e (event_entries stem clean path ev) ->
  e = {| id := path ++ lit "|" ++ str_of_Z (ev_start ev);
         media_type := lit "anime"; title := stem path;
         episode_or_track := []; media_path := []; source_path := path;
         start_ms := ev_start ev; end_ms := ev_end ev;
         text := clean (event_text ev);
         context_prev := []; context_next := [] |}
  /\ clean (event_text ev) <> [].
Proof.
  unfold event_entries.
  destruct (clean (event_text ev)) as [|c t] eqn:E; [intros []|].
  intros [<-|[]]. split; [reflexivity | discriminate].
Qed.

Lemma event_entries_times (events : list Event) :
  map (fun e => (start_ms e, end_ms e))
    (flat_map (event_entries stem clean path) events)
  `sublist_of` map (fun ev => (ev_start ev, ev_end ev)) events.
Proof.
  induction events as [|ev evs IH]; simpl; [constructor|].
  unfold event_entries at 1.
  destruct (clean (event_text ev)) as [|c t]; simpl.
  - apply sublist_cons. exact IH.
  - apply sublist_skip. exact IH.
Qed.

Lemma set_context_times (entries : list Entry) :
  map (fun e => (start_ms e, end_ms e)) (set_context entries)
  = map (fun e => (start_ms e, end_ms e)) entries.
Proof.
  apply list_eq. intros i. rewrite !list_lookup_fmap.
  unfold set_context. rewrite list_lookup_imap.
  destruct (entries !! i); reflexivity.
Qed.

(** X25. [parse_subtitle] keeps the order of the events and their times:
    the times of its entries are those of the events, with the events of
    empty cleaned text left out and nothing sorted. Each entry has a
    non-empty text, the cleaned text of its event, is of type [anime] and
    is identified by the path and the start time; its [context_prev] and
    [context_next] are the texts of its neighbours in the list. *)
Theorem parse_subtitle_entries (events : list Event) :
  let out := parse_subtitle_with stem clean path events in
  map (fun e => (start_ms e, end_ms e)) out
    `sublist_of` map (fun ev => (ev_start ev, ev_end ev)) events
  /\ length out
     = length (List.filter (fun ev => negb (str_eqb (clean (event_text ev)) []))
                 events)
  /\ forall i e, out !! i = Some e ->
       text e <> []
       /\ media_type e = lit "anime"
       /\ source_path e = path
       /\ id e = path ++ lit "|" ++ str_of_Z (start_ms e)
       /\ (exists ev, In ev events
                      /\ text e = clean (event_text ev)
                      /\ start_ms e = ev_start ev /\ end_ms e = ev_end ev)
       /\ context_prev e = match i with
                           | S j => default [] (text <$> out !! j)
                           | 0 => []
                           end
       /\ context_next e = default [] (text <$> out !! S i).
Proof.
  cbn zeta. unfold parse_subtitle_with. split; [|split].
  - rewrite set_context_times. apply event_entries_times.
  - unfold set_context. rewrite length_imap.
    induction events as [|ev evs IH]; [reflexivity|].
    cbn [flat_map List.filter]. rewrite length_app, IH.
    unfold event_entries.
    destruct (clean (event_text ev)) as [|c t]; reflexivity.
  - intros i e Hi.
    set (entries := flat_map (event_entries stem clean path) events) in *.
    pose proof (LrcProps.set_context_lookup _ _ _ Hi)
      as [e0 [He0 [Hs [He [Ht [Hid [Hm [Hsp [_ [Hp Hn]]]]]]]]]].
    assert (Hin : In e0 entries).
    { apply list_elem_of_In, list_elem_of_lookup. eauto. }
    apply in_flat_map in Hin. destruct Hin as [ev [Hev Hin]].
    apply event_entries_fields in Hin. destruct Hin as [E Hne].
    rewrite Ht, Hm, Hsp, Hid, Hs, He, E.
    cbn [text media_type source_path id start_ms end_ms].
    split; [exact Hne|]. split; [reflexivity|]. split; [reflexivity|].
    split; [reflexivity|]. split; [exists ev; auto|].
    split.
    + rewrite Hp. destruct i as [|j]; [reflexivity|].
      rewrite LrcProps.set_context_text. reflexivity.
    + rewrite Hn, LrcProps.set_context_text.
      destruct (Nat.ltb_spec (S i) (length entries)) as [|Hge];
        [reflexivity|].
      rewrite (lookup_ge_None_2 entries (S i)) by lia. reflexivity.
Qed.
End WithCollaborators.

Lemma parse_subtitle_entries_witness :
  length (parse_subtitle_with Fixtures.simple_stem
            (BuildIndex.nfkc Fixtures.inert_nfkc) (lit "ep1.srt")
            [{| ev_plaintext := Some (lit "neko"); ev_text := None;
                ev_start := 0; ev_end := 1000 |};
             {| ev_plaintext := Some (lit "  "); ev_text := None;
                ev_start := 1000; ev_end := 2000 |}]) = 1.
Proof.
  rewrite (proj1 (proj2 (parse_subtitle_entries Fixtures.simple_stem
                           (BuildIndex.nfkc Fixtures.inert_nfkc)
                           (lit "ep1.srt") _))).
  reflexivity.
Defined.

End SubtitleProps.
